(** * Formetrix AI: the extraction and formatting pipeline

    A shallow embedding of [src/services/OCRService.ts],
    [src/services/AIService.ts], [src/services/StorageService.ts] and of
    the handlers [handleFileUpload] and [processText] of [src/App.tsx],
    with the properties of the specification stated and settled against
    it, and further properties of the code.

    Conventions of the embedding:
    - a JavaScript string is the list of its code units; only code units
      below 256 are represented ([ascii]), so the white space of [\s] and of
      [String.prototype.trim] is the part of the ECMAScript set that lies in
      that range;
    - a JavaScript number that is a progress value is a rational ([Q]);
    - a rejected promise or a thrown value is the left injection of a sum. *)

From Stdlib Require Import List Ascii Bool Arith Lia ZArith QArith.
Import ListNotations.
Close Scope Q_scope.
Close Scope Z_scope.
Open Scope nat_scope.

Set Implicit Arguments.

(* ================================================================== *)
(** * JavaScript strings *)
(* ================================================================== *)

Definition jsstring := list ascii.

Inductive jslit := LNil | LCons (a : ascii) (l : jslit).

Fixpoint lit_of_bytes (l : list Byte.byte) : jslit :=
  match l with
  | [] => LNil
  | b :: r => LCons (ascii_of_byte b) (lit_of_bytes r)
  end.

Fixpoint bytes_of_lit (l : jslit) : list Byte.byte :=
  match l with
  | LNil => []
  | LCons a r => byte_of_ascii a :: bytes_of_lit r
  end.

Declare Scope js_scope.
Delimit Scope js_scope with js.
Bind Scope js_scope with jsstring.
#[warnings="-via-type-remapping,-via-type-mismatch"]
String Notation jsstring lit_of_bytes bytes_of_lit
  (via jslit mapping [[nil] => LNil, [cons] => LCons]) : js_scope.
Open Scope js_scope.
Open Scope list_scope.

Module JS.

(** Code units 9, 10, 11, 12, 13, 32 and 160: the members of WhiteSpace and
    LineTerminator below 256. *)
Definition is_space (c : ascii) : bool :=
  let n := nat_of_ascii c in
  ((9 <=? n) && (n <=? 13)) || (n =? 32) || (n =? 160).

(** LineTerminator: line feed and carriage return. *)
Definition is_lt (c : ascii) : bool :=
  let n := nat_of_ascii c in (n =? 10) || (n =? 13).

Definition is_digit (c : ascii) : bool :=
  let n := nat_of_ascii c in (48 <=? n) && (n <=? 57).

(** [\w]: letters, digits and the underscore. *)
Definition is_word (c : ascii) : bool :=
  let n := nat_of_ascii c in
  ((48 <=? n) && (n <=? 57)) || ((65 <=? n) && (n <=? 90))
  || ((97 <=? n) && (n <=? 122)) || (n =? 95).

Definition chr (c : ascii) : ascii -> bool := Ascii.eqb c.

Definition LF : ascii := ascii_of_nat 10.
Definition CR : ascii := ascii_of_nat 13.
Definition TAB : ascii := ascii_of_nat 9.
Definition SP : ascii := " "%char.

Fixpoint eqb (s t : jsstring) : bool :=
  match s, t with
  | [], [] => true
  | a :: s', b :: t' => Ascii.eqb a b && eqb s' t'
  | _, _ => false
  end.

Definition is_empty (s : jsstring) : bool :=
  match s with [] => true | _ => false end.

(** [s.startsWith(p)] *)
Fixpoint startsWith (p s : jsstring) : bool :=
  match p, s with
  | [], _ => true
  | a :: p', b :: s' => Ascii.eqb a b && startsWith p' s'
  | _ :: _, [] => false
  end.

Fixpoint trimStart (s : jsstring) : jsstring :=
  match s with
  | [] => []
  | c :: r => if is_space c then trimStart r else s
  end.

Fixpoint trimEnd (s : jsstring) : jsstring :=
  match s with
  | [] => []
  | c :: r =>
      match trimEnd r with
      | [] => if is_space c then [] else [c]
      | r' => c :: r'
      end
  end.

(** [s.trim()] *)
Definition trim (s : jsstring) : jsstring := trimEnd (trimStart s).

(** [s.split(sep)] for a separator that is not empty. [skip] counts the
    code units of a separator found earlier that are still to be passed. *)
Fixpoint split_go (sep : jsstring) (skip : nat) (cur : jsstring)
    (s : jsstring) : list jsstring :=
  match s with
  | [] => [rev cur]
  | c :: r =>
      match skip with
      | S k => split_go sep k cur r
      | 0 =>
          if startsWith sep s
          then rev cur :: split_go sep (length sep - 1) [] r
          else split_go sep 0 (c :: cur) r
      end
  end.

Definition split (sep s : jsstring) : list jsstring := split_go sep 0 [] s.

(** [a.join(sep)] *)
Fixpoint join (sep : jsstring) (l : list jsstring) : jsstring :=
  match l with
  | [] => []
  | [x] => x
  | x :: r => x ++ sep ++ join sep r
  end.

(** The first and the last code unit of a string are white space. *)
Definition startsWithSpace (s : jsstring) : bool :=
  match s with
  | c :: _ => is_space c
  | [] => false
  end.

Definition endsWithSpace (s : jsstring) : bool := startsWithSpace (rev s).

End JS.

(* ================================================================== *)
(** * The regular expressions of the sources

    The fragment of ECMAScript regular expressions that the sources use:
    an alternation of sequences of assertions ([^], [$], [\b]), single
    characters of a class, and greedy repetitions [c+], [c*], [c{n,}] of a
    class, possibly inside a capturing group. Matching is the backtracking
    search of the language: alternatives in order, the longest repetition
    first. *)
(* ================================================================== *)

Module Regex.
Import JS.

Inductive item :=
| Bol                                              (* ^ *)
| Eol                                              (* $ *)
| WordB                                            (* \b *)
| One (cls : ascii -> bool)                        (* one character *)
| Rep (cap : bool) (cls : ascii -> bool) (min : nat). (* cls{min,} *)

Record regex := {
  alts : list (list item);
  global : bool;      (* flag g *)
  multiline : bool    (* flag m *)
}.

(** [prev] is the code unit before the current position, [None] at the start
    of the input; [s] is the input from the current position on. *)
Definition at_bol (m : bool) (prev : option ascii) : bool :=
  match prev with
  | None => true
  | Some c => m && is_lt c
  end.

Definition at_eol (m : bool) (s : jsstring) : bool :=
  match s with
  | [] => true
  | c :: _ => m && is_lt c
  end.

Definition word_before (prev : option ascii) : bool :=
  match prev with Some c => is_word c | None => false end.

Definition word_after (s : jsstring) : bool :=
  match s with c :: _ => is_word c | [] => false end.

Definition at_wordb (prev : option ascii) (s : jsstring) : bool :=
  xorb (word_before prev) (word_after s).

Fixpoint run_length (cls : ascii -> bool) (s : jsstring) : nat :=
  match s with
  | c :: r => if cls c then S (run_length cls r) else 0
  | [] => 0
  end.

(** The code unit before the position reached after [k] more code units. *)
Definition prev_after (prev : option ascii) (s : jsstring) (k : nat)
  : option ascii :=
  match k with
  | 0 => prev
  | S j => nth_error s j
  end.

(** The first success of [f] on [k], [k-1], ..., [lo]. *)
Fixpoint first_down (A : Type) (f : nat -> option A) (lo k : nat)
  : option A :=
  if k <? lo then None
  else match f k with
       | Some r => Some r
       | None =>
           match k with
           | 0 => None
           | S k' => first_down f lo k'
           end
       end.

(** A match of a sequence at the current position: the captures, in the
    order of their groups, and the number of code units matched. *)
Definition result := (list jsstring * nat)%type.

Fixpoint match_seq (m : bool) (its : list item) (prev : option ascii)
    (s : jsstring) : option result :=
  match its with
  | [] => Some ([], 0)
  | Bol :: r => if at_bol m prev then match_seq m r prev s else None
  | Eol :: r => if at_eol m s then match_seq m r prev s else None
  | WordB :: r => if at_wordb prev s then match_seq m r prev s else None
  | One cls :: r =>
      match s with
      | c :: s' =>
          if cls c
          then match match_seq m r (Some c) s' with
               | Some (caps, n) => Some (caps, S n)
               | None => None
               end
          else None
      | [] => None
      end
  | Rep cap cls mn :: r =>
      first_down
        (fun k =>
           match match_seq m r (prev_after prev s k) (skipn k s) with
           | Some (caps, n) =>
               Some (if cap then firstn k s :: caps else caps, k + n)
           | None => None
           end)
        mn (run_length cls s)
  end.

Fixpoint match_alts (m : bool) (al : list (list item)) (prev : option ascii)
    (s : jsstring) : option result :=
  match al with
  | [] => None
  | its :: rest =>
      match match_seq m its prev s with
      | Some r => Some r
      | None => match_alts m rest prev s
      end
  end.

Definition match_here (re : regex) : option ascii -> jsstring -> option result :=
  match_alts (multiline re) (alts re).

(** [re.test(s)] for a regular expression without the flag g. *)
Fixpoint test_from (re : regex) (prev : option ascii) (s : jsstring) : bool :=
  match match_here re prev s with
  | Some _ => true
  | None =>
      match s with
      | [] => false
      | c :: r => test_from re (Some c) r
      end
  end.

Definition test (re : regex) (s : jsstring) : bool := test_from re None s.

(** Replacement patterns: literal text and [$n]. *)
Inductive piece :=
| Lit (s : jsstring)
| Grp (n : nat).

Definition expand (tpl : list piece) (caps : list jsstring) : jsstring :=
  concat (map (fun p => match p with
                        | Lit s => s
                        | Grp n => nth (n - 1) caps []
                        end) tpl).

(** [s.replace(re, tpl)]. [skip] counts the code units of the last match that
    are still to be passed. With the flag g every match is replaced, the
    search resuming where the last match ended (one code unit further after
    an empty match); without it only the first match is. *)
Fixpoint replace_from (re : regex) (tpl : list piece) (skip : nat)
    (prev : option ascii) (s : jsstring) : jsstring :=
  match skip with
  | S k =>
      match s with
      | [] => []
      | c :: r => replace_from re tpl k (Some c) r
      end
  | 0 =>
      match match_here re prev s with
      | Some (caps, n) =>
          expand tpl caps ++
          (if global re
           then match s with
                | [] => []
                | c :: r =>
                    match n with
                    | 0 => c :: replace_from re tpl 0 (Some c) r
                    | S k => replace_from re tpl k (Some c) r
                    end
                end
           else skipn n s)
      | None =>
          match s with
          | [] => []
          | c :: r => c :: replace_from re tpl 0 (Some c) r
          end
      end
  end.

Definition replace (re : regex) (tpl : list piece) (s : jsstring) : jsstring :=
  replace_from re tpl 0 None s.

End Regex.

(* ================================================================== *)
(** * AIService: the local transform *)
(* ================================================================== *)

Module AIService.
Import JS Regex.

Definition nl : jsstring := [LF].

Definition dot (c : ascii) : bool := negb (is_lt c).
Definition hspace (c : ascii) : bool := chr SP c || chr TAB c.
Definition bullet (c : ascii) : bool := chr "-" c || chr "*" c.

(** The regular expression "/\r\n/g" *)
Definition re_crlf : regex :=
  {| alts := [[One (chr CR); One (chr LF)]]; global := true; multiline := false |}.

(** The regular expression "/\n{3,}/g" *)
Definition re_nl3 : regex :=
  {| alts := [[Rep false (chr LF) 3]]; global := true; multiline := false |}.

(** The regular expression "/[ \t]+/g" *)
Definition re_hspace : regex :=
  {| alts := [[Rep false hspace 1]]; global := true; multiline := false |}.

(** The regular expression "/^\s+|\s+$/gm" *)
Definition re_line_trim : regex :=
  {| alts := [[Bol; Rep false is_space 1]; [Rep false is_space 1; Eol]];
     global := true; multiline := true |}.

(** The regular expression "/^(#+)\s*(R)$/gm" where R is ".*" *)
Definition re_heading : regex :=
  {| alts := [[Bol; Rep true (chr "#") 1; Rep false is_space 0;
               Rep true dot 0; Eol]];
     global := true; multiline := true |}.

(** The regular expression "/\n{2,}/g" *)
Definition re_nl2 : regex :=
  {| alts := [[Rep false (chr LF) 2]]; global := true; multiline := false |}.

(** The regular expression "/^\s*[-*]\s+/gm" *)
Definition re_bullet_gm : regex :=
  {| alts := [[Bol; Rep false is_space 0; One bullet; Rep false is_space 1]];
     global := true; multiline := true |}.

(** The regular expression "/\b(\d+)\.\s+/g" *)
Definition re_numbered : regex :=
  {| alts := [[WordB; Rep true is_digit 1; One (chr "."); Rep false is_space 1]];
     global := true; multiline := false |}.

(** The regular expression "/^\s*[-*]\s+/" *)
Definition re_bullet : regex :=
  {| alts := [[Bol; Rep false is_space 0; One bullet; Rep false is_space 1]];
     global := false; multiline := false |}.

Definition convertToMarkdown (text : jsstring) : jsstring :=
  trim
    (replace re_numbered [Grp 1; Lit ". "]
       (replace re_bullet_gm [Lit "- "]
          (replace re_nl2 [Lit (nl ++ nl)]
             (replace re_heading [Lit "# "; Grp 2] text)))).

(** What one iteration of the loop of [convertToHTML] appends to [html]. *)
Definition htmlBlock (para : jsstring) : jsstring :=
  if is_empty (trim para) then ""
  else if test re_bullet para then
    let items := filter (fun line => negb (is_empty (trim line))) (split nl para) in
    fold_left
      (fun html item => html ++ "  <li>" ++ replace re_bullet [] item ++ "</li>" ++ nl)
      items ("<ul>" ++ nl)
    ++ "</ul>" ++ nl
  else "<p>" ++ para ++ "</p>" ++ nl.

Definition convertToHTML (text : jsstring) : jsstring :=
  fold_left (fun html para => html ++ htmlBlock para) (split (nl ++ nl) text) "".

(** The chain of replacements at the head of [localProcessing]. *)
Definition normalize (text : jsstring) : jsstring :=
  trim
    (replace re_line_trim []
       (replace re_hspace [Lit " "]
          (replace re_nl3 [Lit (nl ++ nl)]
             (replace re_crlf [Lit nl] text)))).

Definition localProcessing (text format : jsstring) : jsstring :=
  let processed := normalize text in
  if JS.eqb format "markdown" then convertToMarkdown processed
  else if JS.eqb format "html" then convertToHTML processed
  else processed.

(** ** The provider table and [callProvider] *)

Record Settings := {
  provider : jsstring;
  apiKey : jsstring;
  model : jsstring;
  customUrl : jsstring;
  customHeader : jsstring;
  saveKey : bool
}.

Record Provider := {
  name : jsstring;
  endpoint : jsstring;
  defaultModel : jsstring;
  requiresKey : bool
}.

(** [Providers[key]], for the keys of the table itself. A key that every
    object inherits ([toString], [constructor], ...) is not represented: for
    such a provider the source finds a value without the four fields, skips
    the check of the key and sends one request. The statements about the
    requests sent take a provider of the table. *)
Definition Providers (key : jsstring) : option Provider :=
  if JS.eqb key "groq" then
    Some {| name := "Groq";
            endpoint := "https://api.groq.com/openai/v1/chat/completions";
            defaultModel := "llama-3.3-70b-versatile";
            requiresKey := true |}
  else if JS.eqb key "deepseek" then
    Some {| name := "DeepSeek";
            endpoint := "https://router.huggingface.co/v1";
            defaultModel := "deepseek-ai/DeepSeek-V3.2-Exp:novita";
            requiresKey := true |}
  else if JS.eqb key "huggingface" then
    Some {| name := "Hugging Face";
            endpoint := "https://api-inference.huggingface.co/models/";
            defaultModel := "google/flan-t5-base";
            requiresKey := true |}
  else if JS.eqb key "openai" then
    Some {| name := "OpenAI";
            endpoint := "https://api.openai.com/v1/chat/completions";
            defaultModel := "gpt-3.5-turbo";
            requiresKey := true |}
  else if JS.eqb key "local" then
    Some {| name := "Local (No API)";
            endpoint := "";
            defaultModel := "";
            requiresKey := false |}
  else None.

(** [a || b] on strings. *)
Definition orElse (a b : jsstring) : jsstring :=
  if is_empty a then b else a.

(** [formatInstructions[format] || ''], for a format that is a key of the
    table or that no object inherits. For a key that every object inherits
    ([constructor], [toString], ...) the source appends the rendering of the
    inherited value, which is not represented; [processText] and
    [testConnection] pass 'text'. *)
Definition formatInstructions (format : jsstring) : jsstring :=
  if JS.eqb format "markdown" then
    "Format the output as clean Markdown with proper headings, lists, and emphasis."
  else if JS.eqb format "html" then
    "Convert to clean HTML with proper semantic tags. Use paragraphs, lists, and tables where appropriate."
  else if JS.eqb format "latex" then
    "Convert to LaTeX format with proper document structure, sections, and mathematical notation if needed."
  else if JS.eqb format "text" then
    "Output clean, well-formatted plain text with proper paragraphs and spacing."
  else "".

Definition enhancePromptForFormat (prompt format : jsstring) : jsstring :=
  let instruction := formatInstructions format in
  if is_empty instruction then prompt else prompt ++ nl ++ nl ++ instruction.

(** The body of a request, by the shape of the backend. *)
Inductive Body :=
| ChatBody (model system user : jsstring)
| InferenceBody (inputs : jsstring).

Record Request := {
  url : jsstring;
  authorization : jsstring;
  body : Body;
  timeout : Z                            (* milliseconds *)
}.

(** What becomes of a request. The decoding of the response is not part of
    the embedding: [HttpError] carries the message that the code builds from
    a response that is not ok, [HttpOk] the text that it extracts from the
    decoded body. [HttpOkUnreadable] is a response that is ok and whose body
    is decoded, but from which the text cannot be read (the body is [null]):
    the code has called [onProgress(90)] when the reading throws, with the
    message carried. [Failed] is any other failure, fetch or decoding, by
    its message. *)
Inductive Outcome :=
| Aborted
| Failed (message : jsstring)
| HttpError (errorMsg : jsstring)
| HttpOkUnreadable (message : jsstring)
| HttpOk (text : jsstring).

Inductive Event :=
| OnProgress (value : nat)
| Fetch (request : Request).

(** A thrown [Error], by its message. *)
Definition Thrown := jsstring.

Definition Run := ((Thrown + jsstring) * list Event)%type.

Section Remote.

Variable fetch : Request -> Outcome.

(** [if (onProgress) onProgress(v)] *)
Definition report (onProgress : bool) (v : nat) : list Event :=
  if onProgress then [OnProgress v] else [].

Definition send (request : Request) (onProgress : bool) : Run :=
  match fetch request with
  | Aborted => (inl "Request timeout - please try again", [Fetch request])
  | Failed m => (inl m, [Fetch request])
  | HttpError errorMsg => (inl errorMsg, [Fetch request])
  | HttpOkUnreadable m => (inl m, Fetch request :: report onProgress 90)
  | HttpOk text => (inr text, Fetch request :: report onProgress 90)
  end.

Definition callOpenAICompatible (endpoint model apiKey prompt userText
    format : jsstring) (onProgress : bool) : Run :=
  let enhancedPrompt := enhancePromptForFormat prompt format in
  send {| url := endpoint;
          authorization := "Bearer " ++ apiKey;
          body := ChatBody model
            "You are a text formatting assistant. Apply instructions exactly. Output only formatted text with no explanation."
            (enhancedPrompt ++ nl ++ nl ++ "Text to process:" ++ nl ++ userText);
          timeout := 30000%Z |} onProgress.

Definition callDeepSeek (endpoint model apiKey prompt userText
    format : jsstring) (onProgress : bool) : Run :=
  callOpenAICompatible (endpoint ++ "/chat/completions") model apiKey prompt
    userText format onProgress.

Definition callHuggingFace (endpoint model apiKey prompt userText
    format : jsstring) (onProgress : bool) : Run :=
  let enhancedPrompt := enhancePromptForFormat prompt format in
  let fullPrompt :=
    enhancedPrompt ++ nl ++ nl ++ "Text to format:" ++ nl ++ userText
    ++ nl ++ nl ++ "Formatted text:" in
  send {| url := endpoint ++ model;
          authorization := "Bearer " ++ apiKey;
          body := InferenceBody fullPrompt;
          timeout := 45000%Z |} onProgress.

(** [onProgress] tells whether the caller passed a callback. *)
Definition callProvider (settings : Settings) (prompt userText
    format : jsstring) (onProgress : bool) : Run :=
  let provider := provider settings in
  if is_empty provider || JS.eqb provider "local" then
    (inr (localProcessing userText format), [])
  else
    match Providers provider with
    | None => (inl "Invalid provider selected", [])
    | Some config =>
        if requiresKey config && is_empty (apiKey settings) then
          (inl ("API key required for " ++ name config
                ++ ". Please configure in AI Settings."), [])
        else
          let model := orElse (model settings) (defaultModel config) in
          let endpoint := orElse (customUrl settings) (endpoint config) in
          let '(r, evs) :=
            if JS.eqb provider "deepseek" then
              callDeepSeek endpoint model (apiKey settings) prompt userText
                format onProgress
            else if JS.eqb provider "huggingface" then
              callHuggingFace endpoint model (apiKey settings) prompt userText
                format onProgress
            else
              callOpenAICompatible endpoint model (apiKey settings) prompt
                userText format onProgress in
          match r with
          | inr text => (inr text, report onProgress 10 ++ evs)
          | inl error => (inl error, report onProgress 10 ++ evs ++ report onProgress 0)
          end
    end.

End Remote.

Definition isFetch (e : Event) : bool :=
  match e with Fetch _ => true | OnProgress _ => false end.

End AIService.

(* ================================================================== *)
(** * OCRService *)
(* ================================================================== *)

Module OCRService.
Import JS.

(** ** Thrown values

    Every failure of the service is [new Error(message)]; the constructors
    are the throw sites of the file. [External] is a value thrown by
    Tesseract.js, PDF.js or the DOM, given by its rendering [String(error)]. *)
Inductive Thrown :=
| External (rendering : jsstring)
| OCRInitFailed
| WorkerNotAvailable
| NoTextInImage
| ImageProcessingFailed (cause : Thrown)
| NoTextInPDF
| PDFProcessingFailed (cause : Thrown).

(** [error.message] and the rendering of [error] inside a template literal. *)
Fixpoint message (e : Thrown) : jsstring :=
  let toString e' :=
    match e' with
    | External r => r
    | _ => "Error: " ++ message e'
    end in
  match e with
  | External r => r
  | OCRInitFailed => "Failed to initialize OCR engine"
  | WorkerNotAvailable => "OCR worker not available"
  | NoTextInImage => "No text could be extracted from this image"
  | ImageProcessingFailed c => "Image processing failed: " ++ toString c
  | NoTextInPDF => "No text content could be extracted from this PDF"
  | PDFProcessingFailed c => "PDF processing failed: " ++ toString c
  end.

(** The throw site at the root of a chain of re-thrown errors. *)
Fixpoint rootCause (e : Thrown) : Thrown :=
  match e with
  | ImageProcessingFailed c => rootCause c
  | PDFProcessingFailed c => rootCause c
  | _ => e
  end.

(** The two throw sites that report that there is no text to return. *)
Definition isNoTextFound (e : Thrown) : bool :=
  match rootCause e with
  | NoTextInImage | NoTextInPDF => true
  | _ => false
  end.

(** ** The world of the service *)

(** A progress callback, known by its identity as a function object. *)
Definition Callback := nat.

(** A message that Tesseract.js hands to the logger of a worker. *)
Record LogMessage := {
  status : jsstring;
  progress : Q
}.

(** An image file, with what the recognizer does on it: the messages it
    logs and the text it resolves to, or the value it rejects with. *)
Record File := {
  logged : list LogMessage;
  recognized : Thrown + jsstring
}.

(** A page of a parsed PDF: the [str] of the items of its text content (or
    the rejection of [getPage] / [getTextContent]), whether the canvas gives
    a 2d context, and the PNG file that rendering the page at a viewport
    scale and [toBlob] produce (or the rejection of [render]). *)
Record Page := {
  textItems : Thrown + list jsstring;
  has2d : bool;
  raster : Q -> Thrown + File
}.

(** A PDF file: its pages, or the rejection of [getDocument]. *)
Definition PDF := (Thrown + list Page)%type.

(** [Tesseract.Worker]: the logger closure keeps the [onProgress] of the
    call of [init] that created the worker. *)
Record Worker := {
  logger : option Callback
}.

Inductive Event :=
| Progress (cb : Callback) (value : Q)   (* cb(value) *)
| CreateWorker (onProgress : option Callback)
| Render (pageNumber : nat) (scale : Q)
| Recognize (file : File).

Record World := {
  worker : option Worker;                (* OCRService.worker *)
  trace : list Event                     (* what has happened, oldest first *)
}.

(** ** Asynchronous code: state, trace and exceptions *)

Definition M (A : Type) := World -> (Thrown + A) * World.

Definition ret {A} (a : A) : M A := fun w => (inr a, w).

Definition bind {A B} (m : M A) (k : A -> M B) : M B :=
  fun w =>
    match m w with
    | (inr a, w') => k a w'
    | (inl e, w') => (inl e, w')
    end.

Definition throw {A} (e : Thrown) : M A := fun w => (inl e, w).

Definition tryCatch {A} (m : M A) (handler : Thrown -> M A) : M A :=
  fun w =>
    match m w with
    | (inr a, w') => (inr a, w')
    | (inl e, w') => handler e w'
    end.

(** Awaiting a promise whose outcome is given. *)
Definition await {A} (p : Thrown + A) : M A := fun w => (p, w).

Definition emit (e : Event) : M unit :=
  fun w => (inr tt, {| worker := worker w; trace := trace w ++ [e] |}).

Definition getWorker : M (option Worker) := fun w => (inr (worker w), w).

Definition setWorker (v : option Worker) : M unit :=
  fun w => (inr tt, {| worker := v; trace := trace w |}).

Notation "x <- m ;; k" := (bind m (fun x => k))
  (at level 61, m at next level, right associativity).
Notation "m ;;; k" := (bind m (fun _ => k))
  (at level 61, right associativity).

(** [if (onProgress) onProgress(v)] *)
Definition report (onProgress : option Callback) (v : Q) : M unit :=
  match onProgress with
  | Some cb => emit (Progress cb v)
  | None => ret tt
  end.

Fixpoint forEach {A} (f : A -> M unit) (l : list A) : M unit :=
  match l with
  | [] => ret tt
  | x :: r => f x ;;; forEach f r
  end.

Section Service.

(** [Tesseract.createWorker] resolves, or rejects with the given value. *)
Variable createWorkerRejects : option Thrown.

(** The logger that [init] installs. *)
Definition loggerCall (onProgress : option Callback) (m : LogMessage) : M unit :=
  if JS.eqb (status m) "recognizing text" then
    match onProgress with
    | Some cb => emit (Progress cb (progress m * 100)%Q)
    | None => ret tt
    end
  else ret tt.

(** [init], up to the point where it awaits [createWorker]: [true] when the
    creation of a worker was started. *)
Definition initBegin (onProgress : option Callback) : M bool :=
  w <- getWorker ;;
  match w with
  | Some _ => ret false
  | None => emit (CreateWorker onProgress) ;;; ret true
  end.

(** [init], from the point where [createWorker] has settled. *)
Definition initResume (onProgress : option Callback)
    (settled : option Thrown) : M unit :=
  match settled with
  | None => setWorker (Some {| logger := onProgress |})
  | Some _ => setWorker None ;;; throw OCRInitFailed
  end.

Definition init (onProgress : option Callback) : M unit :=
  started <- initBegin onProgress ;;
  if started then initResume onProgress createWorkerRejects else ret tt.

(** [worker.recognize(file)] *)
Definition recognize (wk : Worker) (file : File) : M jsstring :=
  emit (Recognize file) ;;;
  forEach (loggerCall (logger wk)) (logged file) ;;;
  await (recognized file).

Definition processImage (file : File) (onProgress : option Callback)
  : M jsstring :=
  init onProgress ;;;
  w <- getWorker ;;
  match w with
  | None => throw WorkerNotAvailable
  | Some wk =>
      tryCatch
        (text <- recognize wk file ;;
         if is_empty text || (length (trim text) =? 0)
         then throw NoTextInImage
         else ret (trim text))
        (fun error => throw (ImageProcessingFailed error))
  end.

(** [(i / totalPages) * 100] *)
Definition pageProgress (i totalPages : nat) : Q :=
  ((inject_Z (Z.of_nat i) / inject_Z (Z.of_nat totalPages)) * 100)%Q.

(** The body of the loop of [processPDF] for page [i], on the variables
    [textPages] and [hasTextContent]. *)
Definition processPage (i : nat) (page : Page)
    (textPages : list jsstring) (hasTextContent : bool)
  : M (list jsstring * bool) :=
  items <- await (textItems page) ;;
  let pageText := join " " items in
  if 20 <? length (trim pageText) then
    ret (textPages ++ [pageText], true)
  else if has2d page then
    emit (Render i 2%Q) ;;;
    imageFile <- await (raster page 2%Q) ;;
    text <- processImage imageFile None ;;
    if negb (is_empty text) && (0 <? length (trim text))
    then ret (textPages ++ [trim text], true)
    else ret (textPages, hasTextContent)
  else ret (textPages, hasTextContent).

Fixpoint pagesLoop (totalPages : nat) (onProgress : option Callback)
    (i : nat) (pages : list Page)
    (textPages : list jsstring) (hasTextContent : bool)
  : M (list jsstring * bool) :=
  match pages with
  | [] => ret (textPages, hasTextContent)
  | page :: rest =>
      r <- processPage i page textPages hasTextContent ;;
      report onProgress (pageProgress i totalPages) ;;;
      pagesLoop totalPages onProgress (S i) rest (fst r) (snd r)
  end.

Definition processPDF (file : PDF) (onProgress : option Callback)
  : M jsstring :=
  tryCatch
    (pages <- await file ;;
     let totalPages := length pages in
     r <- pagesLoop totalPages onProgress 1 pages [] false ;;
     if negb (snd r)
     then throw NoTextInPDF
     else ret (join (LF :: LF :: nil) (fst r)))
    (fun error => throw (PDFProcessingFailed error)).

(** ** Calls of [init] that overlap

    A call of [init] runs up to its [await] when it is made and is resumed
    when [createWorker] has settled; between the two, other calls may be
    made and resumed. *)
Inductive Caller :=
| Called (onProgress : option Callback)      (* about to call init *)
| Awaiting (onProgress : option Callback)    (* suspended at the await *)
| Settled (r : Thrown + unit).               (* the promise of init settled *)

Definition stepCaller (c : Caller) (w : World) : Caller * World :=
  match c with
  | Called cb =>
      match initBegin cb w with
      | (inr true, w') => (Awaiting cb, w')
      | (inr false, w') => (Settled (inr tt), w')
      | (inl e, w') => (Settled (inl e), w')
      end
  | Awaiting cb =>
      let '(r, w') := initResume cb createWorkerRejects w in (Settled r, w')
  | Settled _ => (c, w)
  end.

Fixpoint setNth {A} (n : nat) (x : A) (l : list A) : list A :=
  match l, n with
  | [], _ => []
  | _ :: r, 0 => x :: r
  | y :: r, S k => y :: setNth k x r
  end.

(** The callers advance in the order of [schedule], one step each time. *)
Fixpoint runCallers (schedule : list nat) (cs : list Caller) (w : World)
  : list Caller * World :=
  match schedule with
  | [] => (cs, w)
  | i :: rest =>
      match nth_error cs i with
      | Some c =>
          let '(c', w') := stepCaller c w in
          runCallers rest (setNth i c' cs) w'
      | None => runCallers rest cs w
      end
  end.

Definition isCreateWorker (e : Event) : bool :=
  match e with CreateWorker _ => true | _ => false end.

(** The number of calls of [Tesseract.createWorker] in a trace. *)
Definition creations (tr : list Event) : nat :=
  length (filter isCreateWorker tr).

End Service.

(** ** Observations on a run *)

(** The values that a trace hands to the callback [cb], oldest first. *)
Fixpoint delivered (cb : Callback) (tr : list Event) : list Q :=
  match tr with
  | [] => []
  | Progress cb' v :: r =>
      if cb' =? cb then v :: delivered cb r else delivered cb r
  | _ :: r => delivered cb r
  end.

(** The renderings of a trace: page number and scale. *)
Fixpoint renders (tr : list Event) : list (nat * Q) :=
  match tr with
  | [] => []
  | Render i scale :: r => (i, scale) :: renders r
  | _ :: r => renders r
  end.

(** The files that a trace hands to the recognizer. *)
Fixpoint recognitions (tr : list Event) : list File :=
  match tr with
  | [] => []
  | Recognize f :: r => f :: recognitions r
  | _ :: r => recognitions r
  end.


(** What the logger of a worker does with the messages of a recognition. *)
Definition loggerEvents (onProgress : option Callback)
    (msgs : list LogMessage) : list Event :=
  flat_map
    (fun m =>
       if JS.eqb (status m) "recognizing text" then
         match onProgress with
         | Some cb => [Progress cb (progress m * 100)%Q]
         | None => []
         end
       else [])
    msgs.

(** What [processImage] settles to once the worker exists. *)
Definition imageResult (file : File) : Thrown + jsstring :=
  match recognized file with
  | inl e => inl (ImageProcessingFailed e)
  | inr text =>
      if is_empty text || (length (trim text) =? 0)
      then inl (ImageProcessingFailed NoTextInImage)
      else inr (trim text)
  end.

(** The text layer of a page as [processPDF] reads it. *)
Definition nativeText (page : Page) : jsstring :=
  match textItems page with
  | inr items => join " " items
  | inl _ => []
  end.

(** The file and the text that the fallback of [processPDF] obtains for a
    page: the rendering at scale 2, and its recognized text, trimmed. *)
Definition fallbackFiles (pages : list Page) : list File :=
  flat_map (fun page => match raster page 2%Q with
                        | inr f => [f]
                        | inl _ => []
                        end) pages.

Definition fallbackText (page : Page) : jsstring :=
  match raster page 2%Q with
  | inr f => match recognized f with
             | inr text => trim text
             | inl _ => []
             end
  | inl _ => []
  end.

(** The logger of the worker, if there is one, does not call [cb]. *)
Definition quiet (cb : Callback) (w : World) : Prop :=
  forall wk, worker w = Some wk -> logger wk <> Some cb.

(** A worker exists, or [createWorker] will resolve. *)
Definition engineReady (createWorkerRejects : option Thrown) (w : World)
  : Prop :=
  worker w <> None \/ createWorkerRejects = None.

(** The items of the text layer of the page, joined, have at most 20 code
    units. *)
Definition textShort (page : Page) : Prop :=
  exists items,
    textItems page = inr items /\ length (join " " items) <= 20.

(** The native text of the page is not accepted (at most 20 code units once
    trimmed). *)
Definition textRejected (page : Page) : Prop :=
  exists items,
    textItems page = inr items /\ length (trim (join " " items)) <= 20.

(** The fallback of the page resolves to text that is not blank. *)
Definition fallbackReads (page : Page) : Prop :=
  has2d page = true /\
  exists f text,
    raster page 2%Q = inr f /\ recognized f = inr text /\ trim text <> [].

(** The fallback of the page gives no text: there is no 2d context, or the
    recognizer resolves to blank text. *)
Definition fallbackBlank (page : Page) : Prop :=
  has2d page = false \/
  exists f text,
    raster page 2%Q = inr f /\ recognized f = inr text /\ trim text = [].

End OCRService.

(* ================================================================== *)
(** * App: the choice of the extraction in [handleFileUpload] *)
(* ================================================================== *)

Module App.
Import JS.

Inductive Strategy :=
| ProcessPDF       (* OCRService.processPDF(file, ...) *)
| ProcessImage     (* OCRService.processImage(file, ...) *)
| ReadText.        (* file.text() *)

Definition imageExtensions : list jsstring :=
  ["jpg"; "jpeg"; "png"; "tiff"; "bmp"; "gif"].

(** [l.includes(x)] *)
Definition includes (l : list jsstring) (x : jsstring) : bool :=
  existsb (JS.eqb x) l.

(** The chain of conditions on [file.type] and [fileExtension]; the left
    injection is the message of the error thrown by the last branch. *)
Definition selectStrategy (type fileExtension : jsstring)
  : jsstring + Strategy :=
  if JS.eqb type "application/pdf" || JS.eqb fileExtension "pdf" then
    inr ProcessPDF
  else if startsWith "image/" type || includes imageExtensions fileExtension then
    inr ProcessImage
  else if JS.eqb type "text/plain" || JS.eqb fileExtension "txt" then
    inr ReadText
  else
    inl ("Unsupported file type: "
         ++ (if is_empty type then fileExtension else type)).

End App.

(* ================================================================== *)
(** * Inputs used in the examples *)
(* ================================================================== *)

Module Examples.
Import JS OCRService.

(** A scanned page: no text layer, and the recognizer resolves to [text]
    after logging [msgs]. *)
Definition scannedPage (msgs : list LogMessage) (text : jsstring) : Page :=
  {| textItems := inr [];
     has2d := true;
     raster := fun _ => inr {| logged := msgs; recognized := inr text |} |}.

(** A page with a text layer made of one item. *)
Definition textPage (text : jsstring) : Page :=
  {| textItems := inr [text];
     has2d := true;
     raster := fun _ => inr {| logged := []; recognized := inr "" |} |}.

(** A page whose rendering rejects. *)
Definition brokenPage : Page :=
  {| textItems := inr [];
     has2d := true;
     raster := fun _ => inl (External "Error: render failed") |}.

(** A scanned page for which the canvas gives no 2d context. *)
Definition noCanvasPage : Page :=
  {| textItems := inr [];
     has2d := false;
     raster := fun _ => inr {| logged := []; recognized := inr "hello" |} |}.

Definition realText : jsstring := "This page has a real text layer.".

(** No worker yet, nothing has happened. *)
Definition fresh : World := {| worker := None; trace := [] |}.

(** A worker created by an earlier [init(cb)]. *)
Definition initializedBy (cb : Callback) : World :=
  {| worker := Some {| logger := Some cb |}; trace := [] |}.

Definition done : LogMessage :=
  {| status := "recognizing text"; progress := 1 |}.

Definition claimedInput : jsstring :=
  "- a" ++ AIService.nl ++ "- b" ++ AIService.nl ++ AIService.nl
  ++ "Second para".

Definition groqNoKey : AIService.Settings :=
  {| AIService.provider := "groq"; AIService.apiKey := "";
     AIService.model := ""; AIService.customUrl := "";
     AIService.customHeader := ""; AIService.saveKey := false |}.

(** Two scanned pages that the recognizer reads. *)
Definition twoScans : list Page :=
  [scannedPage [] "  hello "; scannedPage [] "world"].

(** A blank scanned page, then a page with a text layer. *)
Definition blankThenText : list Page :=
  [scannedPage [] ""; textPage realText].

(** A page whose rendering rejects, then a page with a text layer. *)
Definition brokenThenText : list Page :=
  [brokenPage; textPage realText].

(** A document without any text. *)
Definition blankDocument : list Page :=
  [noCanvasPage; scannedPage [] "  "].


Definition photo : File :=
  {| logged := [done]; recognized := inr "  hi there " |}.

Definition noNetwork : AIService.Request -> AIService.Outcome :=
  fun _ => AIService.Aborted.

End Examples.

(* ================================================================== *)
(** * The shape of the texts of the local transform

    Predicates on strings and on positions of strings that describe what
    the replacements of [normalize] and of [convertToMarkdown] leave
    behind, and the relation that a replacement with the flag g builds
    between its argument and its result. They are used to state and prove
    that the local transform, applied to its own result, finds nothing
    more to change. *)
(* ================================================================== *)

Unset Implicit Arguments.

Module Shape.
Import JS Regex AIService.

(** [P] holds at every position of [s], the end included; a position is the
    code unit before it and the rest of the string. *)
Fixpoint everywhere (P : option ascii -> jsstring -> Prop)
    (prev : option ascii) (s : jsstring) : Prop :=
  P prev s /\ match s with
              | [] => True
              | c :: r => everywhere P (Some c) r
              end.

(** The least number of code units that a sequence of items matches. *)
Fixpoint min_len (its : list item) : nat :=
  match its with
  | [] => 0
  | One _ :: r => S (min_len r)
  | Rep _ _ mn :: r => mn + min_len r
  | _ :: r => min_len r
  end.

(** No alternative of the expression matches the empty string. *)
Definition nonempty (re : regex) : bool :=
  forallb (fun its => 1 <=? min_len its) (alts re).

(** The run of [s.replace(re, tpl)] for an expression with the flag g that
    does not match the empty string. *)
Inductive Rewrites (re : regex) (tpl : list piece)
  : option ascii -> jsstring -> jsstring -> Prop :=
| RwEnd prev :
    match_here re prev [] = None -> Rewrites re tpl prev [] []
| RwCopy prev c s out :
    match_here re prev (c :: s) = None ->
    Rewrites re tpl (Some c) s out ->
    Rewrites re tpl prev (c :: s) (c :: out)
| RwMatch prev s caps n out :
    match_here re prev s = Some (caps, n) ->
    1 <= n <= length s ->
    Rewrites re tpl (prev_after prev s n) (skipn n s) out ->
    Rewrites re tpl prev s (expand tpl caps ++ out).

(** Two neighbours of a tidy string: no line terminator next to white
    space, and no two blanks. *)
Definition okPair (x y : ascii) : bool :=
  negb (is_lt x && is_space y) && negb (is_space x && is_lt y)
  && negb (hspace x && hspace y).

(** The condition of a tidy string at a position: no white space at the two
    ends, no tabulation, and between two neighbours no line terminator next
    to white space and no two blanks. *)
Definition tidyAt (prev : option ascii) (s : jsstring) : Prop :=
  match s with
  | [] => match prev with Some x => is_space x = false | None => True end
  | y :: _ =>
      y <> TAB /\
      match prev with
      | Some x => okPair x y = true
      | None => is_space y = false
      end
  end.

(** The strings that [normalize] returns, and leaves as they are. *)
Definition Tidy (s : jsstring) : Prop := everywhere tidyAt None s.

(** No tabulation and no two blanks in a row. *)
Definition blanksAt (prev : option ascii) (s : jsstring) : Prop :=
  match s with
  | [] => True
  | y :: _ =>
      y <> TAB /\
      match prev with
      | Some x => hspace x && hspace y = false
      | None => True
      end
  end.

(** The white space at the head of [s] has no line terminator and is
    followed by a code unit that is not white space. *)
Fixpoint open (s : jsstring) : bool :=
  match s with
  | [] => false
  | c :: r => if is_space c then negb (is_lt c) && open r else true
  end.

(** The string starts with a blank or a tabulation. *)
Definition startsWithBlank (s : jsstring) : bool :=
  match s with y :: _ => hspace y | [] => false end.

(** How the last code unit written relates to what is left to read, during
    the replacement that trims the lines. *)
Definition Link (oprev prev : option ascii) (s : jsstring) : Prop :=
  match oprev with
  | None => startsWithSpace s = false \/ at_bol true prev = true
  | Some x =>
      is_space x = false
      \/ (open s = true /\ (startsWithSpace s = true -> prev = Some x))
  end.

(** The second alternative of the expression that trims the lines. *)
Definition trailing (s : jsstring) (k : nat) : option result :=
  if at_eol true (skipn k s) then Some ([], k) else None.

(** The heading: the run of #, the white space after it, the rest of the
    line. *)
Definition headingParts (s : jsstring) : nat * nat * nat :=
  let a := run_length (chr "#") s in
  let W := run_length is_space (skipn a s) in
  let D := run_length dot (skipn W (skipn a s)) in
  (a, W, D).

(** The code unit before the position at the end of [a]. *)
Definition ctx (prev : option ascii) (a : jsstring) : option ascii :=
  fold_left (fun _ c => Some c) a prev.

(** Tidy but for the end: no tabulation, no white space at the start, and
    every pair of neighbours as in a tidy string. *)
Fixpoint midb (prev : option ascii) (s : jsstring) : bool :=
  match s with
  | [] => true
  | y :: r =>
      negb (chr TAB y)
      && match prev with
         | Some x => okPair x y
         | None => negb (is_space y)
         end
      && midb (Some y) r
  end.

(** White space at the end of the string is one blank after a #. *)
Fixpoint tailb (prev : option ascii) (s : jsstring) : bool :=
  match s with
  | [] => true
  | w :: r =>
      match r with
      | [] =>
          negb (is_space w)
          || (chr SP w && match prev with
                          | Some x => chr "#" x
                          | None => false
                          end)
      | _ :: _ => tailb (Some w) r
      end
  end.

(** One blank, and no white space after it. *)
Definition gap (r : jsstring) : Prop :=
  match r with
  | w :: r' => w = SP /\ startsWithSpace r' = false
  | [] => False
  end.

(** A # at the start of a line is followed by one blank. *)
Definition headAt (prev : option ascii) (s : jsstring) : Prop :=
  at_bol true prev = true ->
  match s with
  | c :: r => chr "#" c = true -> gap r
  | [] => True
  end.

(** A # at the start of a line is followed by one blank, or ends the
    string. *)
Definition headEnd (prev : option ascii) (s : jsstring) : Prop :=
  at_bol true prev = true ->
  match s with
  | c :: r => chr "#" c = true -> r = [] \/ gap r
  | [] => True
  end.

(** A bullet at the start of a line that is followed by white space is a
    dash followed by one blank. *)
Definition bulletAt (prev : option ascii) (s : jsstring) : Prop :=
  at_bol true prev = true ->
  match s with
  | c :: r =>
      bullet c = true -> startsWithSpace r = true -> c = "-"%char /\ gap r
  | [] => True
  end.

(** A number at a word boundary that is followed by a full stop and white
    space is followed by a full stop and one blank. *)
Definition numberAt (prev : option ascii) (s : jsstring) : Prop :=
  at_wordb prev s = true ->
  1 <= run_length is_digit s ->
  match skipn (run_length is_digit s) s with
  | c :: r => chr "." c = true -> startsWithSpace r = true -> gap r
  | [] => True
  end.

(** The last code unit written and the last one read, while a bullet or a
    number is rewritten: the same, or a blank written for white space. *)
Definition Sim (oprev prev : option ascii) (s : jsstring) : Prop :=
  oprev = prev
  \/ (oprev = Some SP /\ startsWithSpace s = false
      /\ exists w, prev = Some w /\ is_space w = true).

(** The replacement texts of [convertToMarkdown]: '# $2', '- ' and
    '$1. '. *)
Definition tplH : list piece := [Lit "# "; Grp 2].

Definition tplB : list piece := [Lit "- "].

Definition tplN : list piece := [Grp 1; Lit ". "].

(** What holds of the text before the final [trim] of [convertToMarkdown]. *)
Definition Marked (s : jsstring) : Prop :=
  midb None s = true /\ tailb None s = true
  /\ everywhere headAt None s /\ everywhere bulletAt None s
  /\ everywhere numberAt None s.

End Shape.

Set Implicit Arguments.

(* ================================================================== *)
(** * AIService: [testConnection], and what a run shows *)
(* ================================================================== *)

Module Connection.
Import JS AIService.

(** [s.includes(sub)] *)
Fixpoint includes (sub s : jsstring) : bool :=
  startsWith sub s
  || match s with
     | [] => false
     | _ :: r => includes sub r
     end.

Section Remote.

Variable fetch : Request -> Outcome.

(** [callProvider] is called without [format] (its default is 'text') and
    without [onProgress]. *)
Definition testConnection (settings : Settings)
  : (Thrown + bool) * list Event :=
  let '(r, evs) :=
    callProvider fetch settings "Respond with exactly: TEST OK" "test" "text"
      false in
  match r with
  | inr result =>
      (inr (negb (is_empty result) && includes "TEST OK" result), evs)
  | inl error =>
      if includes "loading" error
      then (inl "Model is loading, please try again in a moment", evs)
      else (inl error, evs)
  end.

End Remote.

(** The values handed to [onProgress] in a run, oldest first. *)
Definition progressValues (evs : list Event) : list nat :=
  flat_map (fun e => match e with
                     | OnProgress v => [v]
                     | Fetch _ => []
                     end) evs.

(** The requests made in a run, oldest first. *)
Definition requests (evs : list Event) : list Request :=
  flat_map (fun e => match e with
                     | Fetch request => [request]
                     | OnProgress _ => []
                     end) evs.

End Connection.

(* ================================================================== *)
(** * OCRService: [cleanup], and calls made one after the other *)
(* ================================================================== *)

Module Lifecycle.
Import JS OCRService.

(** [cleanup]; the result is the worker whose [terminate] is called, if
    there is one. *)
Definition cleanup : M (option Worker) :=
  w <- getWorker ;;
  match w with
  | Some wk => setWorker None ;;; ret (Some wk)
  | None => ret None
  end.

(** Calls of [processImage] made one after the other, each awaited before
    the next and each with a handler for its rejection, as the loop of
    [handleFileUpload] makes them: what every call settles to. *)
Fixpoint processImages (createWorkerRejects : option Thrown)
    (calls : list (File * option Callback)) (w : World)
  : list (Thrown + jsstring) * World :=
  match calls with
  | [] => ([], w)
  | (file, onProgress) :: rest =>
      let '(r, w1) := processImage createWorkerRejects file onProgress w in
      let '(rs, w2) := processImages createWorkerRejects rest w1 in
      (r :: rs, w2)
  end.

(** The page has a text layer that [processPDF] accepts. *)
Definition textAccepted (page : Page) : Prop :=
  exists items,
    textItems page = inr items /\ 20 < length (trim (join " " items)).

(** The calls of [cb] that end the pages 1 to [n] of a document of [n]
    pages. *)
Definition pageReports (onProgress : option Callback) (n : nat) : list Event :=
  match onProgress with
  | Some cb => map (fun k => Progress cb (pageProgress k n)) (seq 1 n)
  | None => []
  end.

(** There is no worker, or the logger of the worker holds no callback. *)
Definition silent (w : World) : Prop :=
  worker w = None \/ worker w = Some {| logger := None |}.

End Lifecycle.

(* ================================================================== *)
(** * App: [handleFileUpload] and [processText]

    The state of the component is the record of the values of its [useState]
    hooks that the two handlers read or write; a setter applied to a
    function is the functional update of React. Of a document, the [File]
    object and [processedResult] are left out: the handlers do not read
    them. *)
(* ================================================================== *)

Module Handlers.
Import JS App.

(** [c.toLowerCase()] for a code unit below 256: the capital letters of
    ASCII, and those of Latin-1 (192 to 222, the multiplication sign 215
    apart). *)
Definition lower (c : ascii) : ascii :=
  let n := nat_of_ascii c in
  if ((65 <=? n) && (n <=? 90))
     || ((192 <=? n) && (n <=? 222) && negb (n =? 215))
  then ascii_of_nat (n + 32)
  else c.

Definition toLowerCase (s : jsstring) : jsstring := map lower s.

(** [file.name.toLowerCase().split('.').pop() || ''] *)
Definition fileExtension (name : jsstring) : jsstring :=
  last (split "." (toLowerCase name)) "".

Fixpoint digits (u : Decimal.uint) : jsstring :=
  match u with
  | Decimal.Nil => []
  | Decimal.D0 r => "0" ++ digits r
  | Decimal.D1 r => "1" ++ digits r
  | Decimal.D2 r => "2" ++ digits r
  | Decimal.D3 r => "3" ++ digits r
  | Decimal.D4 r => "4" ++ digits r
  | Decimal.D5 r => "5" ++ digits r
  | Decimal.D6 r => "6" ++ digits r
  | Decimal.D7 r => "7" ++ digits r
  | Decimal.D8 r => "8" ++ digits r
  | Decimal.D9 r => "9" ++ digits r
  end.

(** A length inside a template literal. *)
Definition decimal (n : nat) : jsstring := digits (Nat.to_uint n).

Inductive DocStatus := DocUploaded | DocProcessing | DocReady | DocError.

Record Document := {
  id : jsstring;
  name : jsstring;
  size : nat;
  type : jsstring;
  uploadedAt : nat;
  extractedText : jsstring;
  status : DocStatus
}.

Inductive ToastType := Success | Error | Warning | Info.

Record Toast := {
  message : jsstring;
  toastType : ToastType
}.

Inductive StatusType := StatusReady | StatusProcessing | StatusError.

Record Status := {
  text : jsstring;
  kind : StatusType
}.

(** What the callback of a call of [setTimeout] does: [HideToast] takes off
    the screen the toast that [showToast] has just added, and [ResetStatus]
    sets the progress to 0 and the status to 'Ready'. The identifier that
    [showToast] draws for a toast is not represented: the callback names its
    toast by the rank of the toast among the toasts shown, [shown], which
    supposes that no two toasts draw the same identifier. *)
Inductive TimerAction :=
| HideToast (shown : nat)
| ResetStatus.

(** A call of [setTimeout]: the delay in milliseconds and the callback. *)
Record Timer := {
  delay : Z;
  action : TimerAction
}.

(** [toasts] is every toast shown so far and [timers] every timer set so
    far, oldest first. *)
Record State := {
  documents : list Document;
  inputText : jsstring;
  outputText : jsstring;
  customPrompt : jsstring;
  processing : bool;
  progress : Q;
  appStatus : Status;
  toasts : list Toast;
  timers : list Timer;
  settings : AIService.Settings
}.

Definition setDocuments (f : list Document -> list Document) (st : State)
  : State :=
  {| documents := f (documents st); inputText := inputText st;
     outputText := outputText st; customPrompt := customPrompt st;
     processing := processing st; progress := progress st;
     appStatus := appStatus st; toasts := toasts st;
     timers := timers st; settings := settings st |}.

Definition setInputText (f : jsstring -> jsstring) (st : State) : State :=
  {| documents := documents st; inputText := f (inputText st);
     outputText := outputText st; customPrompt := customPrompt st;
     processing := processing st; progress := progress st;
     appStatus := appStatus st; toasts := toasts st;
     timers := timers st; settings := settings st |}.

Definition setOutputText (v : jsstring) (st : State) : State :=
  {| documents := documents st; inputText := inputText st;
     outputText := v; customPrompt := customPrompt st;
     processing := processing st; progress := progress st;
     appStatus := appStatus st; toasts := toasts st;
     timers := timers st; settings := settings st |}.

Definition setProcessing (v : bool) (st : State) : State :=
  {| documents := documents st; inputText := inputText st;
     outputText := outputText st; customPrompt := customPrompt st;
     processing := v; progress := progress st;
     appStatus := appStatus st; toasts := toasts st;
     timers := timers st; settings := settings st |}.

Definition setProgress (v : Q) (st : State) : State :=
  {| documents := documents st; inputText := inputText st;
     outputText := outputText st; customPrompt := customPrompt st;
     processing := processing st; progress := v;
     appStatus := appStatus st; toasts := toasts st;
     timers := timers st; settings := settings st |}.

Definition setStatus (v : Status) (st : State) : State :=
  {| documents := documents st; inputText := inputText st;
     outputText := outputText st; customPrompt := customPrompt st;
     processing := processing st; progress := progress st;
     appStatus := v; toasts := toasts st;
     timers := timers st; settings := settings st |}.

(** [setTimeout(callback, delay)] *)
Definition setTimeout (callback : TimerAction) (ms : Z) (st : State) : State :=
  {| documents := documents st; inputText := inputText st;
     outputText := outputText st; customPrompt := customPrompt st;
     processing := processing st; progress := progress st;
     appStatus := appStatus st; toasts := toasts st;
     timers := timers st ++ [{| delay := ms; action := callback |}];
     settings := settings st |}.

(** [showToast(message, type)]: the toast is added, and a timer is set that
    takes it off after four seconds. *)
Definition showToast (m : jsstring) (t : ToastType) (st : State) : State :=
  setTimeout (HideToast (length (toasts st))) 4000
    {| documents := documents st; inputText := inputText st;
       outputText := outputText st; customPrompt := customPrompt st;
       processing := processing st; progress := progress st;
       appStatus := appStatus st;
       toasts := toasts st ++ [{| message := m; toastType := t |}];
       timers := timers st; settings := settings st |}.

Definition ready : Status := {| text := "Ready"; kind := StatusReady |}.

(** A file of the list: its name, type and size, and what the extraction
    chosen for it settles to, the message of the error it rejects with or
    the text. The calls of [setProgress] that the extraction makes through
    its callback are not represented: the two branches that follow it end
    with [setProgress(0)]. *)
Record UploadFile := {
  fileName : jsstring;
  fileType : jsstring;
  fileSize : nat;
  settles : Strategy -> jsstring + jsstring
}.

(** What [Math.random().toString(36).slice(2, 10)] and [Date.now()] give
    for one file. *)
Record Fresh := {
  newId : jsstring;
  now : nat
}.

Definition separator (name : jsstring) : jsstring :=
  [LF; LF] ++ "--- " ++ name ++ " ---" ++ [LF].

(** What the [try] block of one iteration ends with: the message of the
    error thrown, or the text extracted. *)
Definition attempt (file : UploadFile) : jsstring + jsstring :=
  match selectStrategy (fileType file) (fileExtension (fileName file)) with
  | inl unsupported => inl unsupported
  | inr strategy =>
      match settles file strategy with
      | inl thrown => inl thrown
      | inr extractedText =>
          if negb (is_empty extractedText)
             && negb (is_empty (trim extractedText))
          then inr extractedText
          else inl "No text could be extracted"
      end
  end.

Definition setError (d : Document) : Document :=
  {| id := id d; name := name d; size := size d; type := type d;
     uploadedAt := uploadedAt d; extractedText := extractedText d;
     status := DocError |}.

(** One iteration of the loop of [handleFileUpload]. *)
Definition handleFile (file : UploadFile) (fresh : Fresh) (st : State)
  : State :=
  let doc :=
    {| id := newId fresh; name := fileName file; size := fileSize file;
       type := fileType file; uploadedAt := now fresh; extractedText := "";
       status := DocProcessing |} in
  let st1 :=
    setStatus {| text := "Processing file..."; kind := StatusProcessing |}
      (setDocuments (cons doc) st) in
  match attempt file with
  | inr extractedText =>
      let doc' :=
        {| id := id doc; name := name doc; size := size doc;
           type := type doc; uploadedAt := uploadedAt doc;
           extractedText := extractedText; status := DocReady |} in
      showToast ("Successfully processed " ++ fileName file) Success
        (setProgress 0
           (setStatus ready
              (setInputText
                 (fun prev =>
                    if is_empty prev
                    then separator (fileName file) ++ extractedText
                    else prev ++ separator (fileName file) ++ extractedText)
                 (setDocuments
                    (map (fun d => if JS.eqb (id d) (id doc') then doc' else d))
                    st1))))
  | inl thrown =>
      setProgress 0
        (setStatus ready
           (setDocuments
              (map (fun d => if JS.eqb (name d) (fileName file)
                             then setError d else d))
              (showToast
                 ("Error processing " ++ fileName file ++ ": " ++ thrown)
                 Error st1)))
  end.

(** [files] is [None] for [null]. *)
Definition handleFileUpload (files : option (list (UploadFile * Fresh)))
    (st : State) : State :=
  match files with
  | None => st
  | Some fileArray =>
      fold_left (fun s f => handleFile (fst f) (snd f) s) fileArray
        (showToast
           ("Processing " ++ decimal (length fileArray) ++ " file(s)...")
           Info st)
  end.

Section Remote.

Variable fetch : AIService.Request -> AIService.Outcome.

(** [processText]: the state when the promise settles and the events of
    the call of [callProvider]. The callback passed to [callProvider] calls
    [setProgress]; the value it leaves is overwritten by the [setProgress]
    that follows the call. *)
Definition processText (st : State) : State * list AIService.Event :=
  if is_empty (trim (inputText st)) then
    (showToast "Please enter text or upload a document" Warning st, [])
  else if is_empty (trim (customPrompt st)) then
    (showToast "Please select or enter a formatting prompt" Warning st, [])
  else
    let st1 :=
      setProgress 10
        (setStatus {| text := "Processing..."; kind := StatusProcessing |}
           (setProcessing true st)) in
    let '(r, evs) :=
      AIService.callProvider fetch (settings st) (customPrompt st)
        (inputText st) "text" true in
    match r with
    | inr result =>
        (setProcessing false
           (setTimeout ResetStatus 2000
              (showToast "Processing completed successfully" Success
                 (setStatus {| text := "Complete"; kind := StatusReady |}
                    (setProgress 100 (setOutputText result st1))))),
         evs)
    | inl thrown =>
        (setProcessing false
           (showToast ("Processing failed: " ++ thrown) Error
              (setStatus {| text := "Failed"; kind := StatusError |}
                 (setProgress 0 st1))),
         evs)
    end.

End Remote.

End Handlers.
(* ================================================================== *)
(** * StorageService

    [localStorage] is the list of its entries, one per key. The two
    functions of JSON are parameters: [stringify value] is the string that
    [setItem] receives, [None] when [JSON.stringify] throws; [parse item] is
    the value of [JSON.parse], [None] when it throws. [available] tells
    whether reaching [localStorage] succeeds, and [accepts] whether the
    browser takes the storage that a write would give (the quota). *)
(* ================================================================== *)

Module StorageService.
Import JS.

Definition Storage := list (jsstring * jsstring).

(** [localStorage.getItem(key)], [None] for [null] *)
Fixpoint getItem (key : jsstring) (s : Storage) : option jsstring :=
  match s with
  | [] => None
  | (k, v) :: r => if JS.eqb k key then Some v else getItem key r
  end.

(** [localStorage.removeItem(key)] *)
Definition removeItem (key : jsstring) (s : Storage) : Storage :=
  filter (fun entry => negb (JS.eqb (fst entry) key)) s.

(** [localStorage.setItem(key, value)], when it is accepted *)
Definition setItem (key value : jsstring) (s : Storage) : Storage :=
  (key, value) :: removeItem key s.

Section Codec.

Variable T : Type.
Variable stringify : T -> option jsstring.
Variable parse : jsstring -> option T.
Variable available : bool.
Variable accepts : Storage -> bool.

Definition save (key : jsstring) (value : T) (s : Storage) : bool * Storage :=
  if available then
    match stringify value with
    | Some text =>
        if accepts (setItem key text s)
        then (true, setItem key text s)
        else (false, s)
    | None => (false, s)
    end
  else (false, s).

Definition load (key : jsstring) (defaultValue : T) (s : Storage) : T :=
  if available then
    match getItem key s with
    | Some item =>
        if is_empty item then defaultValue
        else match parse item with
             | Some value => value
             | None => defaultValue
             end
    | None => defaultValue
    end
  else defaultValue.

Definition remove (key : jsstring) (s : Storage) : bool * Storage :=
  if available then (true, removeItem key s) else (false, s).

End Codec.

End StorageService.

(* ================================================================== *)
(** * More inputs for the examples *)
(* ================================================================== *)

Module Scenarios.
Import JS.

(** The settings of the component before any are chosen. *)
Definition noProvider : AIService.Settings :=
  {| AIService.provider := ""; AIService.apiKey := "";
     AIService.model := ""; AIService.customUrl := "";
     AIService.customHeader := "Authorization"; AIService.saveKey := false |}.

Definition deepseek : AIService.Settings :=
  {| AIService.provider := "deepseek"; AIService.apiKey := "key";
     AIService.model := "m"; AIService.customUrl := "http://localhost/v1";
     AIService.customHeader := "X-Key"; AIService.saveKey := false |}.

(** A backend that answers every request with [text]. *)
Definition answers (text : jsstring) : AIService.Request -> AIService.Outcome :=
  fun _ => AIService.HttpOk text.

(** The request that [callProvider] builds from [deepseek], the prompt 'p',
    the text 't' and the format 'text'. *)
Definition deepseekRequest : AIService.Request :=
  {| AIService.url := "http://localhost/v1/chat/completions";
     AIService.authorization := "Bearer key";
     AIService.body :=
       AIService.ChatBody "m"
         "You are a text formatting assistant. Apply instructions exactly. Output only formatted text with no explanation."
         ("p" ++ [LF; LF]
          ++ "Output clean, well-formatted plain text with proper paragraphs and spacing."
          ++ [LF; LF] ++ "Text to process:" ++ [LF] ++ "t");
     AIService.timeout := 30000%Z |}.

(** The state of the component when it is mounted, with a text and a
    prompt typed in. *)
Definition typed (input prompt : jsstring) (settings : AIService.Settings)
  : Handlers.State :=
  {| Handlers.documents := []; Handlers.inputText := input;
     Handlers.outputText := ""; Handlers.customPrompt := prompt;
     Handlers.processing := false; Handlers.progress := 0;
     Handlers.appStatus := Handlers.ready; Handlers.toasts := [];
     Handlers.timers := []; Handlers.settings := settings |}.

(** A text file that reads as 'hello', and an archive. *)
Definition notes : Handlers.UploadFile :=
  {| Handlers.fileName := "Notes.TXT"; Handlers.fileType := "";
     Handlers.fileSize := 5; Handlers.settles := fun _ => inr "hello" |}.

Definition archive : Handlers.UploadFile :=
  {| Handlers.fileName := "a.zip"; Handlers.fileType := "application/zip";
     Handlers.fileSize := 9; Handlers.settles := fun _ => inr "hello" |}.

Definition stamp : Handlers.Fresh :=
  {| Handlers.newId := "k3j9x0q1"; Handlers.now := 1700 |}.

(** Two pages with a text layer. *)
Definition textPages : list OCRService.Page :=
  [Examples.textPage Examples.realText; Examples.textPage Examples.realText].

(** JSON for the two booleans. *)
Definition stringifyBool (b : bool) : option jsstring :=
  Some (if b then "true" else "false").

Definition parseBool (item : jsstring) : option bool :=
  if JS.eqb item "true" then Some true
  else if JS.eqb item "false" then Some false
  else None.

End Scenarios.

(* ================================================================== *)
(** * Properties *)
(* ================================================================== *)

(** ** Strings *)

Section StringFacts.
Import JS.

Lemma eqb_refl (s : jsstring) : JS.eqb s s = true.
Proof.
  induction s as [|c s IH]; simpl; [reflexivity|].
  now rewrite Ascii.eqb_refl, IH.
Qed.

Lemma eqb_eq (s t : jsstring) : JS.eqb s t = true <-> s = t.
Proof.
  split; [|intros ->; apply eqb_refl].
  revert t; induction s as [|c s IH]; intros [|d t]; simpl; try easy.
  intros H. apply andb_true_iff in H as [Hc Hs].
  apply Ascii.eqb_eq in Hc. f_equal; auto.
Qed.

Lemma eqb_neq (s t : jsstring) : JS.eqb s t = false <-> s <> t.
Proof.
  rewrite <- eqb_eq. destruct (JS.eqb s t); intuition congruence.
Qed.

Lemma startsWith_spec (p s : jsstring) :
  startsWith p s = true <-> exists r, s = p ++ r.
Proof.
  revert s; induction p as [|a p IH]; intros s; simpl.
  - split; [intros _; now exists s | reflexivity].
  - destruct s as [|b s].
    + split; [discriminate | intros [r Hr]; discriminate].
    + rewrite andb_true_iff, Ascii.eqb_eq, IH. split.
      * intros [-> [r ->]]. now exists r.
      * intros [r Hr]. injection Hr as -> ->. split; [reflexivity | now exists r].
Qed.

Lemma is_empty_spec (s : jsstring) : is_empty s = true <-> s = [].
Proof. destruct s; simpl; split; congruence. Qed.

Lemma trimStart_startsWithSpace (s : jsstring) :
  startsWithSpace (trimStart s) = false.
Proof.
  induction s as [|c s IH]; simpl; [reflexivity|].
  destruct (is_space c) eqn:E; [exact IH | simpl; exact E].
Qed.

Lemma trimEnd_nil_iff (s : jsstring) :
  trimEnd s = [] <-> forallb is_space s = true.
Proof.
  induction s as [|c s IH]; simpl; [tauto|].
  destruct (trimEnd s) as [|d r] eqn:E.
  - destruct (is_space c); simpl; [tauto | split; discriminate].
  - split; [discriminate|]. rewrite andb_true_iff. intros [_ H].
    apply IH in H. discriminate.
Qed.

Lemma trimEnd_cons (c : ascii) (s : jsstring) :
  trimEnd (c :: s) = [] \/ trimEnd (c :: s) = c :: trimEnd s.
Proof.
  simpl. destruct (trimEnd s); [destruct (is_space c)|]; auto.
Qed.

Lemma trimEnd_startsWithSpace (s : jsstring) :
  startsWithSpace s = false -> startsWithSpace (trimEnd s) = false.
Proof.
  destruct s as [|c s]; [reflexivity|].
  intros H. destruct (trimEnd_cons c s) as [-> | ->]; [reflexivity | exact H].
Qed.

Lemma endsWithSpace_cons (c d : ascii) (s : jsstring) :
  endsWithSpace (c :: d :: s) = endsWithSpace (d :: s).
Proof.
  unfold endsWithSpace. simpl.
  destruct (rev s ++ [d]) eqn:E; [now destruct (rev s)|reflexivity].
Qed.

Lemma trimEnd_endsWithSpace (s : jsstring) :
  endsWithSpace (trimEnd s) = false.
Proof.
  induction s as [|c s IH]; [reflexivity|]. simpl.
  destruct (trimEnd s) as [|d r] eqn:E.
  - destruct (is_space c) eqn:Ec; [reflexivity | unfold endsWithSpace; simpl; exact Ec].
  - now rewrite endsWithSpace_cons.
Qed.

Lemma trim_startsWithSpace (s : jsstring) : startsWithSpace (trim s) = false.
Proof. apply trimEnd_startsWithSpace, trimStart_startsWithSpace. Qed.

Lemma trim_endsWithSpace (s : jsstring) : endsWithSpace (trim s) = false.
Proof. apply trimEnd_endsWithSpace. Qed.

Lemma trimStart_forallb (s : jsstring) :
  forallb is_space (trimStart s) = forallb is_space s.
Proof.
  induction s as [|c s IH]; simpl; [reflexivity|].
  destruct (is_space c) eqn:E; simpl; [exact IH | now rewrite E].
Qed.

Lemma trim_nil_iff (s : jsstring) :
  trim s = [] <-> forallb is_space s = true.
Proof. unfold trim. now rewrite trimEnd_nil_iff, trimStart_forallb. Qed.

End StringFacts.

(** ** The choice of the extraction *)

Section Dispatch.
Import JS App.

Lemma includes_In (l : list jsstring) (x : jsstring) :
  includes l x = true <-> In x l.
Proof.
  unfold includes. rewrite existsb_exists. split.
  - intros [y [Hy E]]. apply eqb_eq in E. now subst.
  - intros H. exists x. split; [exact H | apply eqb_refl].
Qed.

(** C1. The choice is a function of [file.type] and [fileExtension] alone,
    defined on every pair, and follows the order of priority: the PDF path
    when the type is application/pdf or the extension is pdf; else the image
    path when the type starts with image/ or the extension is one of jpg,
    jpeg, png, tiff, bmp, gif; else the plain read when the type is
    text/plain or the extension is txt; else an error whose message carries
    the type, or the extension when the type is empty. *)
Theorem selectStrategy_priority (type ext : jsstring) :
  let pdf := type = "application/pdf" \/ ext = "pdf" in
  let image :=
    (exists rest, type = "image/" ++ rest)
    \/ (ext = "jpg" \/ ext = "jpeg" \/ ext = "png" \/ ext = "tiff"
        \/ ext = "bmp" \/ ext = "gif") in
  let text := type = "text/plain" \/ ext = "txt" in
  (pdf -> selectStrategy type ext = inr ProcessPDF) /\
  (~ pdf -> image -> selectStrategy type ext = inr ProcessImage) /\
  (~ pdf -> ~ image -> text -> selectStrategy type ext = inr ReadText) /\
  (~ pdf -> ~ image -> ~ text ->
   (type <> [] ->
    selectStrategy type ext = inl ("Unsupported file type: " ++ type)) /\
   (type = [] ->
    selectStrategy type ext = inl ("Unsupported file type: " ++ ext))).
Proof.
  cbv zeta.
  assert (Hin : In ext imageExtensions
                <-> (ext = "jpg" \/ ext = "jpeg" \/ ext = "png"
                     \/ ext = "tiff" \/ ext = "bmp" \/ ext = "gif")).
  { unfold imageExtensions. cbn [In]. intuition congruence. }
  rewrite <- Hin. clear Hin.
  unfold selectStrategy.
  destruct (JS.eqb type "application/pdf" || JS.eqb ext "pdf") eqn:Epdf.
  - apply orb_true_iff in Epdf. rewrite !eqb_eq in Epdf.
    repeat split; try tauto.
  - apply orb_false_iff in Epdf as [E1 E2]. apply eqb_neq in E1, E2.
    destruct (startsWith "image/" type || includes imageExtensions ext) eqn:Eimg.
    + apply orb_true_iff in Eimg. rewrite startsWith_spec, includes_In in Eimg.
      repeat split; tauto.
    + apply orb_false_iff in Eimg as [E3 E4].
      assert (N3 : ~ exists rest, type = "image/" ++ rest).
      { rewrite <- startsWith_spec. congruence. }
      assert (N4 : ~ In ext imageExtensions).
      { rewrite <- includes_In. congruence. }
      destruct (JS.eqb type "text/plain" || JS.eqb ext "txt") eqn:Etxt.
      * apply orb_true_iff in Etxt. rewrite !eqb_eq in Etxt.
        repeat split; tauto.
      * apply orb_false_iff in Etxt as [E5 E6]. apply eqb_neq in E5, E6.
        split; [tauto|]. split; [tauto|]. split; [tauto|].
        intros _ _ _. split.
        -- intros Hne. destruct type; [congruence | reflexivity].
        -- intros ->. reflexivity.
Qed.

End Dispatch.

(** ** The formatting dispatcher *)

Section Dispatcher.
Import JS AIService.

Variable fetch : Request -> Outcome.

(** C7. With a provider of the table that requires a key and an empty
    [apiKey], [callProvider] throws the error that asks for the key, and
    nothing has happened before: no request was sent (and no progress was
    reported). *)
Theorem callProvider_missing_key (settings : Settings) (config : Provider)
    (prompt userText format : jsstring) (onProgress : bool) :
  Providers (provider settings) = Some config ->
  requiresKey config = true ->
  apiKey settings = [] ->
  callProvider fetch settings prompt userText format onProgress
  = (inl ("API key required for " ++ name config
          ++ ". Please configure in AI Settings."), [])
  /\ filter isFetch
       (snd (callProvider fetch settings prompt userText format onProgress))
     = [].
Proof.
  intros Hp Hk Ha.
  assert (E : callProvider fetch settings prompt userText format onProgress
              = (inl ("API key required for " ++ name config
                      ++ ". Please configure in AI Settings."), [])).
  { unfold callProvider.
    destruct (is_empty (provider settings) || JS.eqb (provider settings) "local") eqn:El.
    - exfalso. apply orb_true_iff in El as [El | El].
      + apply is_empty_spec in El. rewrite El in Hp. discriminate.
      + apply eqb_eq in El. rewrite El in Hp. vm_compute in Hp.
        injection Hp as <-. discriminate.
    - rewrite Hp, Hk, Ha. reflexivity. }
  rewrite E. split; reflexivity.
Qed.

End Dispatcher.

Lemma callProvider_missing_key_witness :
  AIService.callProvider Examples.noNetwork Examples.groqNoKey "p" "t" "text" true
  = (inl "API key required for Groq. Please configure in AI Settings.", [])
  /\ filter AIService.isFetch
       (snd (AIService.callProvider Examples.noNetwork Examples.groqNoKey
               "p" "t" "text" true)) = [].
Proof.
  apply (@callProvider_missing_key Examples.noNetwork Examples.groqNoKey
           {| AIService.name := "Groq";
              AIService.endpoint := "https://api.groq.com/openai/v1/chat/completions";
              AIService.defaultModel := "llama-3.3-70b-versatile";
              AIService.requiresKey := true |});
    reflexivity.
Defined.

(** ** The local transform on the input of the specification *)

Section LocalTransformExamples.
Import JS AIService.

(** C8. On the input of the claim, [localProcessing] with the format html
    returns one list of two items: the replacement that trims the lines has
    removed the blank line, so that the second paragraph is glued to the
    second item. The result is not the list followed by the paragraph. *)
Theorem localProcessing_html_claimed_input :
  localProcessing Examples.claimedInput "html"
  = "<ul>" ++ nl ++ "  <li>a</li>" ++ nl ++ "  <li>bSecond para</li>" ++ nl
    ++ "</ul>" ++ nl
  /\ localProcessing Examples.claimedInput "html"
     <> ("<ul>" ++ nl ++ "  <li>a</li>" ++ nl ++ "  <li>b</li>" ++ nl
         ++ "</ul>" ++ nl)
        ++ ("<p>Second para</p>" ++ nl)
  /\ normalize Examples.claimedInput = "- a" ++ nl ++ "- bSecond para"
  /\ convertToHTML Examples.claimedInput
     = ("<ul>" ++ nl ++ "  <li>a</li>" ++ nl ++ "  <li>b</li>" ++ nl
        ++ "</ul>" ++ nl)
       ++ ("<p>Second para</p>" ++ nl).
Proof.
  repeat split; try (vm_compute; reflexivity).
  vm_compute. discriminate.
Qed.

End LocalTransformExamples.

(** ** The recognition engine *)

Section Engine.
Import JS OCRService.

(** C9. Two calls of [init] made while no worker exists, the second before
    [createWorker] of the first has settled, each start a creation: the trace
    holds two calls of [Tesseract.createWorker], and the worker of the call
    resumed last replaces the other. *)
Theorem init_overlapping_calls_create_twice :
  let '(cs, w) :=
    runCallers None [0; 1; 0; 1] [Called None; Called (Some 7)] Examples.fresh in
  creations (trace w) = 2
  /\ trace w = [CreateWorker None; CreateWorker (Some 7)]
  /\ worker w = Some {| logger := Some 7 |}
  /\ cs = [Settled (inr tt); Settled (inr tt)].
Proof. vm_compute. repeat split. Qed.

(** Calls of [init] that do not overlap create one worker. *)
Lemma init_sequential_calls_create_once :
  let '(cs, w) :=
    runCallers None [0; 0; 1; 1] [Called None; Called (Some 7)] Examples.fresh in
  creations (trace w) = 1.
Proof. vm_compute. reflexivity. Qed.

End Engine.

(** ** Extraction *)

Section Extraction.
Import JS OCRService.

Variable cwr : option Thrown.

Lemma forEach_loggerCall (cb : option Callback) (msgs : list LogMessage)
    (w : World) :
  forEach (loggerCall cb) msgs w
  = (inr tt, {| worker := worker w; trace := trace w ++ loggerEvents cb msgs |}).
Proof.
  revert w. induction msgs as [|m msgs IH]; intros [wk tr].
  - simpl. unfold ret. now rewrite app_nil_r.
  - cbn [forEach]. unfold bind at 1, loggerCall at 1.
    unfold loggerEvents. cbn [flat_map]. fold (loggerEvents cb msgs).
    destruct (JS.eqb (status m) "recognizing text"); [destruct cb|];
      cbn; rewrite IH; cbn; now rewrite <- ?app_assoc.
Qed.

Lemma recognize_run (wk : Worker) (file : File) (w : World) :
  recognize wk file w
  = (recognized file,
     {| worker := worker w;
        trace := trace w ++ Recognize file
                   :: loggerEvents (logger wk) (logged file) |}).
Proof.
  unfold recognize, bind, emit, await. rewrite forEach_loggerCall. cbn.
  now rewrite <- app_assoc.
Qed.

Lemma bind_eq {A B} (m : M A) (k : A -> M B) (w : World) :
  bind m k w
  = match m w with
    | (inr a, w') => k a w'
    | (inl e, w') => (inl e, w')
    end.
Proof. reflexivity. Qed.

Lemma tryCatch_eq {A} (m : M A) (h : Thrown -> M A) (w : World) :
  tryCatch m h w
  = match m w with
    | (inr a, w') => (inr a, w')
    | (inl e, w') => h e w'
    end.
Proof. reflexivity. Qed.

Lemma init_run (cb : option Callback) (w : World) :
  init cwr cb w
  = match worker w with
    | Some wk => (inr tt, w)
    | None =>
        match cwr with
        | Some _ =>
            (inl OCRInitFailed,
             {| worker := None; trace := trace w ++ [CreateWorker cb] |})
        | None =>
            (inr tt,
             {| worker := Some {| logger := cb |};
                trace := trace w ++ [CreateWorker cb] |})
        end
    end.
Proof.
  destruct w as [[wk|] tr]; [reflexivity|]. destruct cwr; reflexivity.
Qed.

Lemma recognized_result (wk : Worker) (file : File) (w : World) :
  tryCatch
    (text <- recognize wk file ;;
     if is_empty text || (length (trim text) =? 0)
     then throw NoTextInImage
     else ret (trim text))
    (fun error => throw (ImageProcessingFailed error)) w
  = (imageResult file,
     {| worker := worker w;
        trace := trace w ++ Recognize file
                   :: loggerEvents (logger wk) (logged file) |}).
Proof.
  rewrite tryCatch_eq, bind_eq, recognize_run. unfold imageResult.
  destruct (recognized file) as [e|text]; [reflexivity|].
  destruct (is_empty text || (length (trim text) =? 0)); reflexivity.
Qed.

(** [processImage], by the state of the worker and the outcome of
    [createWorker]. *)
Lemma processImage_run (file : File) (cb : option Callback) (w : World) :
  processImage cwr file cb w
  = match worker w with
    | Some wk =>
        (imageResult file,
         {| worker := Some wk;
            trace := trace w ++ Recognize file
                       :: loggerEvents (logger wk) (logged file) |})
    | None =>
        match cwr with
        | Some _ =>
            (inl OCRInitFailed,
             {| worker := None; trace := trace w ++ [CreateWorker cb] |})
        | None =>
            (imageResult file,
             {| worker := Some {| logger := cb |};
                trace := trace w ++ CreateWorker cb :: Recognize file
                           :: loggerEvents cb (logged file) |})
        end
    end.
Proof.
  unfold processImage. rewrite bind_eq, init_run.
  destruct w as [[wk|] tr]; cbn [worker trace].
  - rewrite bind_eq. unfold getWorker. cbv beta iota. cbn [worker].
    now rewrite recognized_result.
  - destruct cwr as [e|]; [reflexivity|].
    rewrite bind_eq. unfold getWorker. cbv beta iota. cbn [worker].
    rewrite recognized_result.
    cbn [worker trace logger]. now rewrite <- app_assoc.
Qed.

Lemma imageResult_text (file : File) (text : jsstring) :
  recognized file = inr text -> trim text <> [] ->
  imageResult file = inr (trim text).
Proof.
  intros Hr Ht. unfold imageResult. rewrite Hr.
  destruct text as [|c text]; [now elim Ht|]. cbn [is_empty orb].
  destruct (trim (c :: text)); [now elim Ht | reflexivity].
Qed.

Lemma imageResult_blank (file : File) (text : jsstring) :
  recognized file = inr text -> trim text = [] ->
  imageResult file = inl (ImageProcessingFailed NoTextInImage).
Proof.
  intros Hr Ht. unfold imageResult. rewrite Hr, Ht. cbn.
  now rewrite orb_true_r.
Qed.

Lemma imageResult_trimmed (file : File) (s : jsstring) :
  imageResult file = inr s ->
  s <> [] /\ startsWithSpace s = false /\ endsWithSpace s = false.
Proof.
  unfold imageResult. destruct (recognized file) as [e|text]; [discriminate|].
  destruct (is_empty text || (length (trim text) =? 0)) eqn:E; [discriminate|].
  intros [= <-]. apply orb_false_iff in E as [_ E].
  split; [|split].
  - intros H. rewrite H in E. discriminate.
  - apply trim_startsWithSpace.
  - apply trim_endsWithSpace.
Qed.

(** What [trim] takes away is white space at the two ends, and what it
    leaves begins and ends with a code unit that is not white space. *)
Lemma trimStart_split (s : jsstring) :
  exists lead, s = lead ++ trimStart s /\ forallb is_space lead = true.
Proof.
  induction s as [|c s [lead [E H]]]; [now exists []|].
  cbn [trimStart]. destruct (is_space c) eqn:Ec.
  - exists (c :: lead). split.
    + cbn [app]. now rewrite <- E.
    + cbn [forallb]. now rewrite Ec, H.
  - now exists [].
Qed.

Lemma trimEnd_split (s : jsstring) :
  exists trail, s = trimEnd s ++ trail /\ forallb is_space trail = true.
Proof.
  induction s as [|c s [trail [E H]]]; [now exists []|].
  cbn [trimEnd]. destruct (trimEnd s) as [|d r] eqn:Et.
  - cbn [app] in E. destruct (is_space c) eqn:Ec.
    + exists (c :: trail). split.
      * cbn [app]. now rewrite <- E.
      * cbn [forallb]. now rewrite Ec, H.
    + exists trail. split; [|exact H]. cbn [app]. now rewrite <- E.
  - exists trail. split; [|exact H]. cbn [app]. f_equal. exact E.
Qed.

Lemma trim_split (s : jsstring) :
  exists lead trail,
    s = lead ++ trim s ++ trail
    /\ forallb is_space lead = true /\ forallb is_space trail = true.
Proof.
  destruct (trimStart_split s) as [lead [E1 H1]].
  destruct (trimEnd_split (trimStart s)) as [trail [E2 H2]].
  exists lead, trail. unfold trim. now rewrite <- E2.
Qed.

Lemma trim_ends (s : jsstring) :
  trim s <> [] ->
  (exists c r, trim s = c :: r /\ is_space c = false)
  /\ (exists r c, trim s = r ++ [c] /\ is_space c = false).
Proof.
  intros Hne. pose proof (trim_startsWithSpace s) as Hs.
  pose proof (trim_endsWithSpace s) as He. split.
  - destruct (trim s) as [|c r]; [now elim Hne|]. now exists c, r.
  - unfold endsWithSpace in He. destruct (rev (trim s)) as [|c r] eqn:Er.
    + apply (f_equal (@rev ascii)) in Er. rewrite rev_involutive in Er.
      now elim Hne.
    + exists (rev r), c. split; [|exact He].
      apply (f_equal (@rev ascii)) in Er. rewrite rev_involutive in Er.
      exact Er.
Qed.

(** C10. When the engine is there (a worker exists or can be created) and
    the recognizer resolves to a text with a code unit that is not white
    space, [processImage] resolves to that text trimmed, which is not empty
    and neither begins nor ends with white space: the recognized text is
    white space, then the result, then white space, and the result begins
    and ends with a code unit that is not white space. *)
Theorem processImage_returns_trimmed (file : File) (cb : option Callback)
    (w : World) (text : jsstring) :
  engineReady cwr w ->
  recognized file = inr text ->
  (exists c, In c text /\ is_space c = false) ->
  fst (processImage cwr file cb w) = inr (trim text)
  /\ trim text <> []
  /\ startsWithSpace (trim text) = false
  /\ endsWithSpace (trim text) = false
  /\ exists result lead trail,
       fst (processImage cwr file cb w) = inr result
       /\ text = lead ++ result ++ trail
       /\ forallb is_space lead = true
       /\ forallb is_space trail = true
       /\ (exists first rest, result = first :: rest /\ is_space first = false)
       /\ (exists rest last, result = rest ++ [last] /\ is_space last = false).
Proof.
  intros Hready Hr [c [Hin Hc]].
  assert (Ht : trim text <> []).
  { rewrite trim_nil_iff. intros H. rewrite forallb_forall in H.
    specialize (H c Hin). congruence. }
  assert (Hrun : fst (processImage cwr file cb w) = inr (trim text));
    [|split; [exact Hrun|]; split; [exact Ht|];
      split; [apply trim_startsWithSpace|];
      split; [apply trim_endsWithSpace|];
      destruct (trim_split text) as [lead [trail [E [Hl Htr]]]];
      destruct (trim_ends text Ht) as [Hfirst Hlast];
      exists (trim text), lead, trail; auto 10].
  rewrite processImage_run.
  destruct (worker w) as [wk|] eqn:Ew.
  - cbn. now apply imageResult_text.
  - destruct Hready as [H | ->]; [now elim H|].
    cbn. now apply imageResult_text.
Qed.

(** Whatever the state, a string that [processImage] resolves to is trimmed. *)
Lemma processImage_result_trimmed (file : File) (cb : option Callback)
    (w : World) (s : jsstring) :
  fst (processImage cwr file cb w) = inr s ->
  s <> [] /\ startsWithSpace s = false /\ endsWithSpace s = false.
Proof.
  rewrite processImage_run.
  destruct (worker w); [|destruct cwr]; cbn; try discriminate;
    apply imageResult_trimmed.
Qed.

(** *** Traces *)

Lemma delivered_app (cb : Callback) (a b : list Event) :
  delivered cb (a ++ b) = delivered cb a ++ delivered cb b.
Proof.
  induction a as [|[cb' v| | |] a IH]; cbn; auto.
  destruct (cb' =? cb); cbn; now rewrite IH.
Qed.

Lemma renders_app (a b : list Event) :
  renders (a ++ b) = renders a ++ renders b.
Proof. induction a as [|[] a IH]; cbn; auto. now rewrite IH. Qed.

Lemma recognitions_app (a b : list Event) :
  recognitions (a ++ b) = recognitions a ++ recognitions b.
Proof. induction a as [|[] a IH]; cbn; auto. now rewrite IH. Qed.

Lemma renders_loggerEvents (cb : option Callback) (msgs : list LogMessage) :
  renders (loggerEvents cb msgs) = [].
Proof.
  induction msgs as [|m msgs IH]; [reflexivity|].
  unfold loggerEvents. cbn [flat_map]. rewrite renders_app.
  fold (loggerEvents cb msgs). rewrite IH.
  destruct (JS.eqb (status m) "recognizing text"); [destruct cb|]; reflexivity.
Qed.

Lemma recognitions_loggerEvents (cb : option Callback)
    (msgs : list LogMessage) :
  recognitions (loggerEvents cb msgs) = [].
Proof.
  induction msgs as [|m msgs IH]; [reflexivity|].
  unfold loggerEvents. cbn [flat_map]. rewrite recognitions_app.
  fold (loggerEvents cb msgs). rewrite IH.
  destruct (JS.eqb (status m) "recognizing text"); [destruct cb|]; reflexivity.
Qed.

Lemma delivered_loggerEvents_other (cb : Callback) (o : option Callback)
    (msgs : list LogMessage) :
  o <> Some cb -> delivered cb (loggerEvents o msgs) = [].
Proof.
  intros Ho. induction msgs as [|m msgs IH]; [reflexivity|].
  unfold loggerEvents. cbn [flat_map]. rewrite delivered_app.
  fold (loggerEvents o msgs). rewrite IH.
  destruct (JS.eqb (status m) "recognizing text"); [|reflexivity].
  destruct o as [cb'|]; [|reflexivity]. cbn.
  destruct (Nat.eqb_spec cb' cb); [subst; now elim Ho | reflexivity].
Qed.

(** *** One page *)

Lemma trimStart_fix (s : jsstring) :
  startsWithSpace s = false -> trimStart s = s.
Proof. destruct s as [|c s]; cbn; [reflexivity | now intros ->]. Qed.

Lemma trimEnd_fix (s : jsstring) :
  endsWithSpace s = false -> trimEnd s = s.
Proof.
  induction s as [|c s IH]; [reflexivity|].
  destruct s as [|d s].
  - unfold endsWithSpace. cbn. now intros ->.
  - rewrite endsWithSpace_cons. intros H. specialize (IH H).
    change (trimEnd (c :: d :: s)) with
      (match trimEnd (d :: s) with
       | [] => if is_space c then [] else [c]
       | r' => c :: r'
       end).
    now rewrite IH.
Qed.

Lemma trim_trim (s : jsstring) : trim (trim s) = trim s.
Proof.
  unfold trim at 1. rewrite trimStart_fix by apply trim_startsWithSpace.
  apply trimEnd_fix, trim_endsWithSpace.
Qed.

Lemma processPage_run (i : nat) (page : Page) (tp : list jsstring)
    (ht : bool) (w : World) :
  processPage cwr i page tp ht w
  = match textItems page with
    | inl e => (inl e, w)
    | inr items =>
        if 20 <? length (trim (join " " items))
        then (inr (tp ++ [join " " items], true), w)
        else if has2d page then
          let w1 := {| worker := worker w; trace := trace w ++ [Render i 2%Q] |} in
          match raster page 2%Q with
          | inl e => (inl e, w1)
          | inr f =>
              match processImage cwr f None w1 with
              | (inl e, w2) => (inl e, w2)
              | (inr text, w2) =>
                  (inr (if negb (is_empty text) && (0 <? length (trim text))
                        then (tp ++ [trim text], true)
                        else (tp, ht)), w2)
              end
          end
        else (inr (tp, ht), w)
    end.
Proof.
  unfold processPage. rewrite bind_eq. unfold await at 1.
  destruct (textItems page) as [e|items]; [reflexivity|].
  destruct (20 <? length (trim (join " " items))); [reflexivity|].
  destruct (has2d page); [|reflexivity].
  rewrite bind_eq. unfold emit at 1. rewrite bind_eq. unfold await at 1.
  cbv zeta. destruct (raster page 2%Q) as [e|f]; [reflexivity|].
  rewrite bind_eq.
  destruct (processImage cwr f None _) as [[e|text] w2]; [reflexivity|].
  destruct (negb (is_empty text) && (0 <? length (trim text))); reflexivity.
Qed.

Lemma length_trimStart (s : jsstring) : length (trimStart s) <= length s.
Proof.
  induction s as [|c s IH]; cbn; [lia|]. destruct (is_space c); cbn; lia.
Qed.

Lemma length_trimEnd (s : jsstring) : length (trimEnd s) <= length s.
Proof.
  induction s as [|c s IH]; cbn; [lia|].
  destruct (trimEnd s); [destruct (is_space c)|]; cbn in *; lia.
Qed.

Lemma length_trim (s : jsstring) : length (trim s) <= length s.
Proof.
  unfold trim. etransitivity; [apply length_trimEnd | apply length_trimStart].
Qed.

(** A page whose fallback reads text adds that text, and leaves a worker. *)
Lemma processPage_reads (i : nat) (page : Page) (tp : list jsstring)
    (ht : bool) (w : World) :
  textRejected page -> fallbackReads page -> engineReady cwr w ->
  exists w',
    processPage cwr i page tp ht w = (inr (tp ++ [fallbackText page], true), w')
    /\ worker w' <> None
    /\ renders (trace w') = renders (trace w) ++ [(i, 2%Q)]
    /\ recognitions (trace w') = recognitions (trace w) ++ fallbackFiles [page].
Proof.
  intros [items [Hi Hlen]] [H2d [f [text [Hf [Hr Ht]]]]] Hready.
  rewrite processPage_run, Hi.
  destruct (Nat.ltb_spec 20 (length (trim (join " " items)))) as [Hlt|_]; [lia|].
  rewrite H2d. cbv zeta. rewrite Hf, processImage_run. cbn [worker trace].
  rewrite (imageResult_text f Hr Ht).
  assert (Hnb : negb (is_empty (trim text)) && (0 <? length (trim (trim text)))
                = true).
  { rewrite trim_trim. destruct (trim text); [now elim Ht | reflexivity]. }
  assert (Hft : fallbackText page = trim text).
  { unfold fallbackText. now rewrite Hf, Hr. }
  assert (Hff : fallbackFiles [page] = [f]).
  { unfold fallbackFiles. cbn. now rewrite Hf. }
  rewrite Hft, Hff.
  destruct (worker w) as [wk|] eqn:Ew.
  - eexists. rewrite Hnb, trim_trim. split; [reflexivity|]. cbn [worker trace].
    split; [discriminate|].
    rewrite <- app_assoc, renders_app, recognitions_app. cbn.
    now rewrite renders_loggerEvents, recognitions_loggerEvents.
  - destruct Hready as [H | ->]; [now elim H|].
    eexists. rewrite Hnb, trim_trim. split; [reflexivity|]. cbn [worker trace].
    split; [discriminate|].
    rewrite <- app_assoc, renders_app, recognitions_app. cbn.
    now rewrite renders_loggerEvents, recognitions_loggerEvents.
Qed.

(** A page that gives no text either leaves the variables as they are, or
    makes [processImage] throw for want of text. *)
Lemma processPage_blank (i : nat) (page : Page) (tp : list jsstring)
    (ht : bool) (w : World) :
  textRejected page -> fallbackBlank page -> engineReady cwr w ->
  exists w',
    (processPage cwr i page tp ht w = (inr (tp, ht), w')
     /\ engineReady cwr w')
    \/ processPage cwr i page tp ht w
       = (inl (ImageProcessingFailed NoTextInImage), w').
Proof.
  intros [items [Hi Hlen]] Hblank Hready.
  rewrite processPage_run, Hi.
  destruct (Nat.ltb_spec 20 (length (trim (join " " items)))) as [Hlt|_]; [lia|].
  destruct (has2d page) eqn:H2d.
  - destruct Hblank as [H | [f [text [Hf [Hr Ht]]]]]; [congruence|].
    cbv zeta. rewrite Hf, processImage_run. cbn [worker trace].
    rewrite (imageResult_blank f Hr Ht).
    destruct (worker w) as [wk|] eqn:Ew.
    + eexists. right. reflexivity.
    + destruct Hready as [H | ->]; [now elim H|].
      eexists. right. reflexivity.
  - exists w. left. split; [reflexivity | exact Hready].
Qed.

(** A page hands nothing to a callback that the logger does not hold. *)
Lemma processPage_quiet (cb : Callback) (i : nat) (page : Page)
    (tp : list jsstring) (ht : bool) (w : World) :
  quiet cb w ->
  quiet cb (snd (processPage cwr i page tp ht w))
  /\ delivered cb (trace (snd (processPage cwr i page tp ht w)))
     = delivered cb (trace w).
Proof.
  intros Hq. rewrite processPage_run.
  destruct (textItems page) as [e|items]; [now split|].
  destruct (20 <? length (trim (join " " items))); [now split|].
  destruct (has2d page); [|now split].
  cbv zeta. destruct (raster page 2%Q) as [e|f].
  - cbn. split; [exact Hq|]. rewrite delivered_app. cbn. apply app_nil_r.
  - rewrite processImage_run. cbn [worker trace].
    destruct (worker w) as [wk|] eqn:Ew.
    + assert (Hl : logger wk <> Some cb) by now apply Hq.
      assert (Hd : delivered cb
                     ((trace w ++ [Render i 2%Q]) ++ Recognize f
                        :: loggerEvents (logger wk) (logged f))
                   = delivered cb (trace w)).
      { rewrite !delivered_app. cbn.
        rewrite (delivered_loggerEvents_other (logged f) Hl).
        now rewrite !app_nil_r. }
      destruct (imageResult f) as [e|text]; cbn; (split; [|exact Hd]);
        intros wk' [= <-]; exact Hl.
    + destruct cwr as [e|].
      * cbn. split; [intros wk' [=]|]. rewrite !delivered_app. cbn.
        now rewrite !app_nil_r.
      * assert (Hd : delivered cb
                       ((trace w ++ [Render i 2%Q]) ++ CreateWorker None
                          :: Recognize f :: loggerEvents None (logged f))
                     = delivered cb (trace w)).
        { rewrite !delivered_app. cbn.
          rewrite (@delivered_loggerEvents_other cb None (logged f))
            by discriminate.
          now rewrite !app_nil_r. }
        destruct (imageResult f) as [e|text]; cbn; (split; [|exact Hd]);
          intros wk' [= <-]; discriminate.
Qed.

(** *** The loop over the pages *)

Lemma report_run (cb : option Callback) (v : Q) (w : World) :
  report cb v w
  = (inr tt,
     {| worker := worker w;
        trace := trace w ++ match cb with
                            | Some c => [Progress c v]
                            | None => []
                            end |}).
Proof.
  destruct cb; [reflexivity|]. destruct w. cbn. now rewrite app_nil_r.
Qed.

Lemma pagesLoop_cons (total : nat) (cb : option Callback) (i : nat)
    (page : Page) (rest : list Page) (tp : list jsstring) (ht : bool)
    (w : World) :
  pagesLoop cwr total cb i (page :: rest) tp ht w
  = match processPage cwr i page tp ht w with
    | (inl e, w1) => (inl e, w1)
    | (inr r, w1) =>
        pagesLoop cwr total cb (S i) rest (fst r) (snd r)
          {| worker := worker w1;
             trace := trace w1 ++ match cb with
                                  | Some c => [Progress c (pageProgress i total)]
                                  | None => []
                                  end |}
    end.
Proof.
  cbn [pagesLoop]. rewrite bind_eq.
  destruct (processPage cwr i page tp ht w) as [[e|r] w1]; [reflexivity|].
  now rewrite bind_eq, report_run.
Qed.

Lemma processPDF_run (pages : list Page) (cb : option Callback) (w : World) :
  processPDF cwr (inr pages) cb w
  = match pagesLoop cwr (length pages) cb 1 pages [] false w with
    | (inl e, w') => (inl (PDFProcessingFailed e), w')
    | (inr r, w') =>
        if snd r
        then (inr (join (LF :: LF :: nil) (fst r)), w')
        else (inl (PDFProcessingFailed NoTextInPDF), w')
    end.
Proof.
  unfold processPDF. rewrite tryCatch_eq, bind_eq. unfold await at 1.
  rewrite bind_eq.
  destruct (pagesLoop cwr (length pages) cb 1 pages [] false w)
    as [[e|[tp ht]] w']; [reflexivity|].
  destruct ht; reflexivity.
Qed.

Lemma renders_progress (cb : option Callback) (v : Q) :
  renders match cb with Some c => [Progress c v] | None => [] end = [].
Proof. now destruct cb. Qed.

Lemma recognitions_progress (cb : option Callback) (v : Q) :
  recognitions match cb with Some c => [Progress c v] | None => [] end = [].
Proof. now destruct cb. Qed.

Lemma fallbackFiles_cons (page : Page) (rest : list Page) :
  fallbackFiles (page :: rest) = fallbackFiles [page] ++ fallbackFiles rest.
Proof. unfold fallbackFiles. cbn. now rewrite app_nil_r. Qed.

Lemma textShort_rejected (page : Page) : textShort page -> textRejected page.
Proof.
  intros [items [Hi Hl]]. exists items. split; [exact Hi|].
  pose proof (length_trim (join " " items)). lia.
Qed.

Lemma pagesLoop_reads (total : nat) (cb : option Callback)
    (pages : list Page) :
  Forall (fun page => textRejected page /\ fallbackReads page) pages ->
  forall (i : nat) (tp : list jsstring) (ht : bool) (w : World),
    engineReady cwr w ->
    exists w',
      pagesLoop cwr total cb i pages tp ht w
      = (inr (tp ++ map fallbackText pages,
              match pages with [] => ht | _ => true end), w')
      /\ renders (trace w')
         = renders (trace w) ++ map (fun k => (k, 2%Q)) (seq i (length pages))
      /\ recognitions (trace w')
         = recognitions (trace w) ++ fallbackFiles pages.
Proof.
  induction 1 as [|page rest [Hrej Hreads] _ IH]; intros i tp ht w Hready.
  - exists w. cbn. now rewrite !app_nil_r.
  - destruct (processPage_reads i tp ht Hrej Hreads Hready)
      as [w1 [E1 [Hw1 [Hr1 Hg1]]]].
    rewrite pagesLoop_cons, E1. cbn [fst snd].
    destruct (IH (S i) (tp ++ [fallbackText page]) true
                {| worker := worker w1;
                   trace := trace w1 ++ match cb with
                                        | Some c => [Progress c (pageProgress i total)]
                                        | None => []
                                        end |})
      as [w' [E' [Hr' Hg']]]; [left; exact Hw1|].
    exists w'. rewrite E'. cbn [worker trace] in Hr', Hg'.
    rewrite renders_app, renders_progress, app_nil_r, Hr1 in Hr'.
    rewrite recognitions_app, recognitions_progress, app_nil_r, Hg1 in Hg'.
    split; [|split].
    + rewrite <- app_assoc. cbn. now destruct rest.
    + rewrite Hr'. cbn. now rewrite <- app_assoc.
    + rewrite Hg', (fallbackFiles_cons page rest). now rewrite <- app_assoc.
Qed.

Lemma pagesLoop_blank (total : nat) (cb : option Callback)
    (pages : list Page) :
  Forall (fun page => textRejected page /\ fallbackBlank page) pages ->
  forall (i : nat) (tp : list jsstring) (w : World),
    engineReady cwr w ->
    exists w',
      pagesLoop cwr total cb i pages tp false w = (inr (tp, false), w')
      \/ pagesLoop cwr total cb i pages tp false w
         = (inl (ImageProcessingFailed NoTextInImage), w').
Proof.
  induction 1 as [|page rest [Hrej Hblank] _ IH]; intros i tp w Hready.
  - exists w. now left.
  - rewrite pagesLoop_cons.
    destruct (processPage_blank i tp false Hrej Hblank Hready)
      as [w1 [[E1 Hw1] | E1]]; rewrite E1.
    + cbn [fst snd]. apply IH.
      destruct Hw1 as [Hw1 | Hw1]; [left; exact Hw1 | right; exact Hw1].
    + exists w1. now right.
Qed.

Lemma pagesLoop_delivered (total : nat) (cb : Callback) (pages : list Page) :
  forall (i : nat) (tp : list jsstring) (ht : bool) (w : World),
    quiet cb w ->
    exists m,
      m <= length pages
      /\ delivered cb (trace (snd (pagesLoop cwr total (Some cb) i pages tp ht w)))
         = delivered cb (trace w)
           ++ map (fun k => pageProgress k total) (seq i m)
      /\ (forall r, fst (pagesLoop cwr total (Some cb) i pages tp ht w) = inr r ->
          m = length pages).
Proof.
  induction pages as [|page rest IH]; intros i tp ht w Hq.
  - exists 0. cbn. rewrite app_nil_r. auto.
  - rewrite pagesLoop_cons.
    destruct (processPage_quiet i page tp ht Hq) as [Hq1 Hd1].
    destruct (processPage cwr i page tp ht w) as [[e|r] w1]; cbn [snd] in Hq1, Hd1.
    + exists 0. cbn. rewrite app_nil_r. split; [lia|]. split; [exact Hd1|].
      discriminate.
    + destruct (IH (S i) (fst r) (snd r)
                  {| worker := worker w1;
                     trace := trace w1 ++ [Progress cb (pageProgress i total)] |})
        as [m [Hm [Hd Hs]]].
      * intros wk Hwk. cbn [worker] in Hwk. now apply Hq1.
      * exists (S m). split; [cbn; lia|]. split.
        -- rewrite Hd. cbn [trace]. rewrite delivered_app, Hd1. cbn.
           rewrite Nat.eqb_refl. now rewrite <- app_assoc.
        -- intros r' Hr'. cbn. f_equal. eapply Hs. exact Hr'.
Qed.

(** *** Progress values *)



(** *** The document *)

(** C3, amended. For a PDF with at least one page in which the text layer of
    every page joins to at most 20 code units and the fallback of every page
    reads text that is not blank (a 2d context is there, the rendering and
    the recognition resolve), with the engine there: every page is rendered
    at scale 2 and recognized, in the order of the pages, and the text of
    the document is the trimmed texts of the pages joined by a blank line. *)
Theorem processPDF_all_fallback (pages : list Page) (cb : option Callback)
    (w : World) :
  pages <> [] ->
  Forall (fun page => textShort page /\ fallbackReads page) pages ->
  engineReady cwr w ->
  exists w',
    processPDF cwr (inr pages) cb w
    = (inr (join (LF :: LF :: nil) (map fallbackText pages)), w')
    /\ renders (trace w')
       = renders (trace w) ++ map (fun k => (k, 2%Q)) (seq 1 (length pages))
    /\ recognitions (trace w') = recognitions (trace w) ++ fallbackFiles pages
    /\ length (fallbackFiles pages) = length pages.
Proof.
  intros Hne Hall Hready.
  assert (Hall' : Forall (fun page => textRejected page /\ fallbackReads page)
                    pages).
  { eapply Forall_impl; [|exact Hall]. intros page [H1 H2].
    split; [now apply textShort_rejected | exact H2]. }
  destruct (pagesLoop_reads (length pages) cb Hall' 1 [] false Hready)
    as [w' [E [Hr Hg]]].
  exists w'. rewrite processPDF_run, E. cbn [fst snd app].
  destruct pages as [|page rest]; [now elim Hne|].
  split; [reflexivity|]. split; [exact Hr|]. split; [exact Hg|].
  clear - Hall. induction Hall as [|p l [_ [_ [f [t [Hf _]]]]] _ IH];
    [reflexivity|].
  rewrite fallbackFiles_cons, length_app, IH. unfold fallbackFiles. cbn.
  now rewrite Hf.
Qed.

(** C4, amended. For a PDF in which no page gives text, neither from its
    text layer (not accepted) nor from the fallback (no 2d context, or a
    blank recognition), with the engine there: [processPDF] rejects, and the
    error is the one of the document without text, or the one of the image
    without text re-thrown; in both cases the root of the error reports that
    no text was found, and the message of the error ends with the message of
    that throw site. A page whose rendering or recognition rejects is left
    out. *)
Theorem processPDF_no_text (pages : list Page) (cb : option Callback)
    (w : World) :
  Forall (fun page => textRejected page /\ fallbackBlank page) pages ->
  engineReady cwr w ->
  exists e,
    fst (processPDF cwr (inr pages) cb w) = inl e
    /\ (e = PDFProcessingFailed NoTextInPDF
        \/ e = PDFProcessingFailed (ImageProcessingFailed NoTextInImage))
    /\ isNoTextFound e = true
    /\ (message e
        = "PDF processing failed: Error: No text content could be extracted from this PDF"
        \/ message e
           = "PDF processing failed: Error: Image processing failed: Error: No text could be extracted from this image").
Proof.
  intros Hall Hready.
  destruct (pagesLoop_blank (length pages) cb Hall 1 [] Hready)
    as [w' [E | E]]; rewrite processPDF_run, E; cbn.
  - exists (PDFProcessingFailed NoTextInPDF). auto.
  - exists (PDFProcessingFailed (ImageProcessingFailed NoTextInImage)). auto.
Qed.





End Extraction.

Section ExtractionExamples.
Import JS OCRService Examples.

Lemma processImage_returns_trimmed_witness :
  fst (processImage None photo (Some 7) fresh) = inr (trim "  hi there ")
  /\ trim "  hi there " <> []
  /\ startsWithSpace (trim "  hi there ") = false
  /\ endsWithSpace (trim "  hi there ") = false
  /\ exists result lead trail,
       fst (processImage None photo (Some 7) fresh) = inr result
       /\ "  hi there " = lead ++ result ++ trail
       /\ forallb is_space lead = true
       /\ forallb is_space trail = true
       /\ (exists first rest, result = first :: rest /\ is_space first = false)
       /\ (exists rest last, result = rest ++ [last] /\ is_space last = false).
Proof.
  apply (@processImage_returns_trimmed None photo (Some 7) fresh "  hi there ").
  - right. reflexivity.
  - reflexivity.
  - exists "h"%char. split; [cbn; tauto | reflexivity].
Defined.

(** C2. A blank scanned page, or a page whose rendering rejects, in front of
    a page with a text layer: [processPDF] rejects, and the text of the
    second page is lost. *)
Theorem processPDF_page_failure_aborts :
  fst (processPDF None (inr blankThenText) None fresh)
  = inl (PDFProcessingFailed (ImageProcessingFailed NoTextInImage))
  /\ message (PDFProcessingFailed (ImageProcessingFailed NoTextInImage))
     = "PDF processing failed: Error: Image processing failed: Error: No text could be extracted from this image"
  /\ fst (processPDF None (inr brokenThenText) None fresh)
     = inl (PDFProcessingFailed (External "Error: render failed"))
  /\ fst (processPDF None (inr [textPage realText]) None fresh)
     = inr realText.
Proof. repeat split; vm_compute; reflexivity. Qed.

(** The statement of C3 fails on a page for which the canvas gives no 2d
    context: its text layer is short, yet it is neither rendered nor
    recognized, and the document is rejected. *)
Lemma processPDF_all_fallback_counterexample :
  Forall textShort [noCanvasPage]
  /\ fallbackFiles [noCanvasPage] <> []
  /\ recognitions (trace (snd (processPDF None (inr [noCanvasPage]) None fresh)))
     = []
  /\ renders (trace (snd (processPDF None (inr [noCanvasPage]) None fresh)))
     = []
  /\ fst (processPDF None (inr [noCanvasPage]) None fresh)
     = inl (PDFProcessingFailed NoTextInPDF).
Proof.
  split; [|repeat split; try (vm_compute; reflexivity); discriminate].
  constructor; [|constructor]. exists []. split; [reflexivity | cbn; lia].
Qed.

Lemma processPDF_all_fallback_witness :
  exists w',
    processPDF None (inr twoScans) None fresh
    = (inr (join (LF :: LF :: nil) (map fallbackText twoScans)), w')
    /\ renders (trace w')
       = renders (trace fresh) ++ map (fun k => (k, 2%Q)) (seq 1 (length twoScans))
    /\ recognitions (trace w')
       = recognitions (trace fresh) ++ fallbackFiles twoScans
    /\ length (fallbackFiles twoScans) = length twoScans.
Proof.
  apply (@processPDF_all_fallback None twoScans None fresh).
  - discriminate.
  - repeat constructor;
      try (exists []; split; [reflexivity | cbn; lia]);
      (eexists; eexists; split; [reflexivity|]; split; [reflexivity|];
       vm_compute; discriminate).
  - right. reflexivity.
Defined.

Lemma processPDF_no_text_witness :
  exists e,
    fst (processPDF None (inr blankDocument) None fresh) = inl e
    /\ (e = PDFProcessingFailed NoTextInPDF
        \/ e = PDFProcessingFailed (ImageProcessingFailed NoTextInImage))
    /\ isNoTextFound e = true
    /\ (message e
        = "PDF processing failed: Error: No text content could be extracted from this PDF"
        \/ message e
           = "PDF processing failed: Error: Image processing failed: Error: No text could be extracted from this image").
Proof.
  apply (@processPDF_no_text None blankDocument None fresh).
  - constructor; [|constructor; [|constructor]].
    + split; [exists []; split; [reflexivity | cbn; lia] | left; reflexivity].
    + split; [exists []; split; [reflexivity | cbn; lia]|].
      right. eexists; eexists. split; [reflexivity|]. split; reflexivity.
  - right. reflexivity.
Defined.

(** The statement of C4 fails on a scanned page whose rendering rejects, and
    on a blank scanned page when the engine cannot be started: neither page
    gives text, from its text layer or from the fallback, and the document is
    rejected with the error of the rendering or of the engine, not with one
    that reports that no text was found. *)
Lemma processPDF_no_text_counterexample :
  (textRejected brokenPage
   /\ (forall scale f, raster brokenPage scale <> inr f)
   /\ fst (processPDF None (inr [brokenPage]) None fresh)
      = inl (PDFProcessingFailed (External "Error: render failed"))
   /\ message (PDFProcessingFailed (External "Error: render failed"))
      = "PDF processing failed: Error: render failed"
   /\ isNoTextFound (PDFProcessingFailed (External "Error: render failed"))
      = false)
  /\ (textRejected (scannedPage [] "")
      /\ fst (processPDF (Some (External "Error: no network"))
                (inr [scannedPage [] ""]) None fresh)
         = inl (PDFProcessingFailed OCRInitFailed)
      /\ message (PDFProcessingFailed OCRInitFailed)
         = "PDF processing failed: Error: Failed to initialize OCR engine"
      /\ isNoTextFound (PDFProcessingFailed OCRInitFailed) = false).
Proof.
  assert (Hshort : forall page, textItems page = inr [] -> textRejected page).
  { intros page H. exists []. split; [exact H | cbn; lia]. }
  split.
  - split; [now apply Hshort|]. split; [discriminate|].
    repeat split; vm_compute; reflexivity.
  - split; [now apply Hshort|]. repeat split; vm_compute; reflexivity.
Qed.



End ExtractionExamples.

(** ** The local transform applied twice *)

Unset Implicit Arguments.

Section Idempotence.
Import JS Regex AIService Shape.

(* ---------- first_down ---------- *)

Section FirstDown.
Variable A : Type.
Variable f : nat -> option A.

Lemma first_down_inv (lo k : nat) (r : A) :
  first_down f lo k = Some r ->
  exists j, lo <= j <= k /\ f j = Some r /\ forall j', j < j' <= k -> f j' = None.
Proof.
  induction k as [|k IH]; cbn [first_down].
  - destruct (Nat.ltb_spec 0 lo); [discriminate|].
    destruct (f 0) eqn:E; [|discriminate]. intros [= ->].
    exists 0. repeat split; auto; lia.
  - destruct (Nat.ltb_spec (S k) lo); [discriminate|].
    destruct (f (S k)) eqn:E.
    + intros [= ->]. exists (S k). repeat split; auto; lia.
    + intros H1. destruct (IH H1) as [j [Hj [Hf Hn]]].
      exists j. repeat split; auto; try lia.
      intros j' Hj'. destruct (Nat.eq_dec j' (S k)) as [->|]; [exact E|].
      apply Hn. lia.
Qed.

Lemma first_down_none (lo k : nat) :
  (forall j, lo <= j <= k -> f j = None) -> first_down f lo k = None.
Proof.
  induction k as [|k IH]; intros H; cbn [first_down].
  - destruct (Nat.ltb_spec 0 lo); [reflexivity|]. now rewrite H by lia.
  - destruct (Nat.ltb_spec (S k) lo); [reflexivity|]. rewrite H by lia.
    apply IH. intros j Hj. apply H. lia.
Qed.

Lemma first_down_found (lo k j : nat) (r : A) :
  lo <= j <= k -> f j = Some r -> (forall j', j < j' <= k -> f j' = None) ->
  first_down f lo k = Some r.
Proof.
  induction k as [|k IH]; intros Hj Hf Hn; cbn [first_down].
  - assert (j = 0) as -> by lia.
    destruct (Nat.ltb_spec 0 lo); [lia|]. now rewrite Hf.
  - destruct (Nat.ltb_spec (S k) lo); [lia|].
    destruct (Nat.eq_dec j (S k)) as [->|Hne]; [now rewrite Hf|].
    rewrite Hn by lia. apply IH; auto; try lia. intros j' Hj'. apply Hn. lia.
Qed.

Lemma first_down_top (lo k : nat) (r : A) :
  lo <= k -> f k = Some r -> first_down f lo k = Some r.
Proof. intros H Hf. apply first_down_found with (j := k); auto; lia. Qed.

End FirstDown.

(* ---------- everywhere ---------- *)

Lemma everywhere_here P prev s : everywhere P prev s -> P prev s.
Proof. destruct s; cbn; tauto. Qed.

Lemma everywhere_tail P prev c s :
  everywhere P prev (c :: s) -> everywhere P (Some c) s.
Proof. cbn; tauto. Qed.

Lemma everywhere_mono (P Q : option ascii -> jsstring -> Prop) :
  (forall prev s, everywhere P prev s -> Q prev s) ->
  forall s prev, everywhere P prev s -> everywhere Q prev s.
Proof.
  intros H s. induction s as [|c s IH]; intros prev Hs.
  - cbn. split; [now apply H | exact I].
  - split; [now apply H|]. apply IH. now apply everywhere_tail in Hs.
Qed.

Lemma everywhere_skipn P (n : nat) : forall s prev,
  n <= length s -> everywhere P prev s ->
  everywhere P (prev_after prev s n) (skipn n s).
Proof.
  induction n as [|n IH]; intros s prev Hn Hs; [exact Hs|].
  destruct s as [|c s]; [cbn in Hn; lia|]. cbn in Hn.
  apply everywhere_tail in Hs. specialize (IH s (Some c) ltac:(lia) Hs).
  cbn [skipn]. destruct n as [|n]; [exact IH|]. exact IH.
Qed.

(* ---------- lengths of matches ---------- *)

Lemma run_length_le cls s : run_length cls s <= length s.
Proof. induction s as [|c s IH]; cbn; [lia|]. destruct (cls c); cbn; lia. Qed.

Lemma match_seq_bounds m its : forall prev s caps n,
  match_seq m its prev s = Some (caps, n) -> min_len its <= n <= length s.
Proof.
  induction its as [|it its IH]; intros prev s caps n H.
  - cbn in H. injection H as <- <-. cbn. lia.
  - destruct it as [| | |cls|cap cls mn]; cbn [match_seq min_len] in *.
    + destruct (at_bol m prev); [eauto | discriminate].
    + destruct (at_eol m s); [eauto | discriminate].
    + destruct (at_wordb prev s); [eauto | discriminate].
    + destruct s as [|c s]; [discriminate|]. destruct (cls c); [|discriminate].
      destruct (match_seq m its (Some c) s) as [[caps' n']|] eqn:E; [|discriminate].
      injection H as <- <-. apply IH in E. cbn. lia.
    + apply first_down_inv in H as [j [Hj [Hf _]]].
      destruct (match_seq m its (prev_after prev s j) (skipn j s))
        as [[caps' n']|] eqn:E; [|discriminate].
      injection Hf as <- <-. apply IH in E. rewrite length_skipn in E.
      pose proof (run_length_le cls s). lia.
Qed.

Lemma match_here_bounds re prev s caps n :
  nonempty re = true -> match_here re prev s = Some (caps, n) ->
  1 <= n <= length s.
Proof.
  unfold nonempty, match_here. generalize (alts re) as al.
  induction al as [|its al IH]; cbn; [discriminate|].
  intros Hne H. apply andb_true_iff in Hne as [H1 H2].
  destruct (match_seq (multiline re) its prev s) as [r|] eqn:E.
  - injection H as ->. apply match_seq_bounds in E.
    destruct (min_len its); [discriminate | lia].
  - now apply IH.
Qed.

(* ---------- replace ---------- *)

Lemma replace_from_skip re tpl (k : nat) : forall prev s,
  k <= length s ->
  replace_from re tpl k prev s
  = replace_from re tpl 0 (prev_after prev s k) (skipn k s).
Proof.
  induction k as [|k IH]; intros prev s Hk; [reflexivity|].
  destruct s as [|c s]; [cbn in Hk; lia|]. cbn in Hk.
  cbn [replace_from skipn]. rewrite IH by lia.
  destruct k; reflexivity.
Qed.

Lemma replace_Rewrites re tpl :
  global re = true -> nonempty re = true ->
  forall s prev, Rewrites re tpl prev s (replace_from re tpl 0 prev s).
Proof.
  intros Hg Hne s.
  remember (length s) as len eqn:Hlen.
  revert s Hlen. induction len as [len IH] using lt_wf_ind. intros s Hlen prev.
  destruct s as [|c s].
  - cbn. destruct (match_here re prev []) as [[caps n]|] eqn:E.
    + apply match_here_bounds in E; auto. cbn in E. lia.
    + now constructor.
  - cbn [replace_from].
    destruct (match_here re prev (c :: s)) as [[caps n]|] eqn:E.
    + rewrite Hg. pose proof (match_here_bounds _ _ _ _ _ Hne E) as Hn.
      destruct n as [|k]; [lia|]. cbn [length] in Hn.
      rewrite replace_from_skip by lia.
      eapply RwMatch; eauto.
      replace (prev_after (Some c) s k) with (prev_after prev (c :: s) (S k))
        by (destruct k; reflexivity).
      change (skipn k s) with (skipn (S k) (c :: s)).
      eapply IH; [|reflexivity]. rewrite length_skipn. subst len. cbn. lia.
    + constructor; auto. eapply IH; [|reflexivity]. subst len. cbn. lia.
Qed.

Lemma replace_none re tpl : forall s prev,
  everywhere (fun p b => match_here re p b = None) prev s ->
  replace_from re tpl 0 prev s = s.
Proof.
  induction s as [|c s IH]; intros prev [H Hs]; cbn [replace_from]; rewrite H.
  - reflexivity.
  - f_equal. now apply IH.
Qed.

Lemma Rewrites_stable re tpl prev s out :
  Rewrites re tpl prev s out ->
  everywhere (fun p b => forall caps n, match_here re p b = Some (caps, n) ->
                                        expand tpl caps = firstn n b) prev s ->
  out = s.
Proof.
  induction 1 as [prev E | prev c s out E _ IH | prev s caps n out E Hn _ IH];
    intros Hs.
  - reflexivity.
  - f_equal. apply IH. now apply everywhere_tail in Hs.
  - rewrite (everywhere_here _ _ _ Hs _ _ E).
    rewrite IH by (apply everywhere_skipn; [lia | exact Hs]).
    apply firstn_skipn.
Qed.


(* ---------- classes of code units ---------- *)

Lemma lt_space c : is_lt c = true -> is_space c = true.
Proof.
  unfold is_lt, is_space. generalize (nat_of_ascii c) as n. intros n H.
  apply orb_true_iff in H as [H|H]; apply Nat.eqb_eq in H; subst; reflexivity.
Qed.

Lemma not_space_not_lt c : is_space c = false -> is_lt c = false.
Proof. destruct (is_lt c) eqn:E; [apply lt_space in E; congruence | auto]. Qed.

Lemma hspace_cases c : hspace c = true -> c = SP \/ c = TAB.
Proof.
  unfold hspace, chr. intros H. apply orb_true_iff in H as [H|H];
    apply Ascii.eqb_eq in H; auto.
Qed.

Lemma hspace_space c : hspace c = true -> is_space c = true.
Proof. intros H. destruct (hspace_cases _ H) as [-> | ->]; reflexivity. Qed.

Lemma hspace_not_lt c : hspace c = true -> is_lt c = false.
Proof. intros H. destruct (hspace_cases _ H) as [-> | ->]; reflexivity. Qed.

Lemma not_space_not_hspace c : is_space c = false -> hspace c = false.
Proof.
  destruct (hspace c) eqn:E; [apply hspace_space in E; congruence | auto].
Qed.

Lemma hspace_TAB : hspace TAB = true.
Proof. reflexivity. Qed.

(* ---------- runs ---------- *)

Lemma run_length_0 cls s :
  match s with y :: _ => cls y | [] => false end = false ->
  run_length cls s = 0.
Proof. destruct s as [|y s]; cbn; [auto | now intros ->]. Qed.

Lemma run_length_pos cls y s : cls y = true -> 1 <= run_length cls (y :: s).
Proof. cbn. intros ->. lia. Qed.

Lemma skipn_run_head cls s :
  match skipn (run_length cls s) s with y :: _ => cls y | [] => false end
  = false.
Proof.
  induction s as [|c s IH]; [reflexivity|]. cbn [run_length].
  destruct (cls c) eqn:E; [exact IH | cbn; exact E].
Qed.

Lemma first_down_total (A : Type) (g : nat -> A) lo k :
  lo <= k -> first_down (fun j => Some (g j)) lo k = Some (g k).
Proof. intros H. now apply first_down_top. Qed.

Lemma first_down_none_inv (A : Type) (f : nat -> option A) lo k :
  first_down f lo k = None -> forall j, lo <= j <= k -> f j = None.
Proof.
  induction k as [|k IH]; cbn [first_down]; intros H j Hj.
  - destruct (Nat.ltb_spec 0 lo); [lia|]. assert (j = 0) as -> by lia.
    destruct (f 0); [discriminate | reflexivity].
  - destruct (Nat.ltb_spec (S k) lo); [lia|].
    destruct (f (S k)) eqn:E; [discriminate|].
    destruct (Nat.eq_dec j (S k)) as [->|]; [exact E|]. apply IH; auto. lia.
Qed.

(* ---------- the four expressions of normalize ---------- *)

Lemma match_one_rep (m : bool) (cls : ascii -> bool) (mn : nat) prev s :
  match_seq m [Rep false cls mn] prev s
  = if mn <=? run_length cls s then Some ([], run_length cls s) else None.
Proof.
  cbn [match_seq].
  destruct (Nat.leb_spec mn (run_length cls s)) as [H|H].
  - rewrite first_down_top with (r := (@nil jsstring, run_length cls s)); auto.
    now rewrite Nat.add_0_r.
  - apply first_down_none. intros j Hj. lia.
Qed.

Lemma match_crlf prev s :
  match_here re_crlf prev s
  = match s with
    | x :: y :: _ => if chr CR x && chr LF y then Some ([], 2) else None
    | _ => None
    end.
Proof.
  unfold match_here. cbn [alts re_crlf multiline match_alts match_seq].
  destruct s as [|x [|y s]]; [reflexivity| |].
  - now destruct (chr CR x).
  - destruct (chr CR x); [|reflexivity]. now destruct (chr LF y).
Qed.

Lemma match_nl3 prev s :
  match_here re_nl3 prev s
  = if 3 <=? run_length (chr LF) s then Some ([], run_length (chr LF) s)
    else None.
Proof.
  unfold match_here. cbn [alts re_nl3 multiline match_alts].
  rewrite match_one_rep. now destruct (3 <=? run_length (chr LF) s).
Qed.

Lemma match_hspace prev s :
  match_here re_hspace prev s
  = if 1 <=? run_length hspace s then Some ([], run_length hspace s)
    else None.
Proof.
  unfold match_here. cbn [alts re_hspace multiline match_alts].
  rewrite match_one_rep. now destruct (1 <=? run_length hspace s).
Qed.

Lemma first_down_ext (A : Type) (f g : nat -> option A) lo k :
  (forall j, f j = g j) -> first_down f lo k = first_down g lo k.
Proof.
  intros H. induction k as [|k IH]; cbn [first_down]; rewrite H.
  - reflexivity.
  - now rewrite IH.
Qed.

Lemma opt_eta (A : Type) (o : option A) :
  match o with Some r => Some r | None => None end = o.
Proof. now destruct o. Qed.

Lemma match_rep_eol (m : bool) (cls : ascii -> bool) (mn : nat) prev s :
  match_seq m [Rep false cls mn; Eol] prev s
  = first_down (fun k => if at_eol m (skipn k s) then Some ([], k) else None)
      mn (run_length cls s).
Proof.
  cbn [match_seq]. apply first_down_ext. intros j.
  destruct (at_eol m (skipn j s)); [now rewrite Nat.add_0_r | reflexivity].
Qed.

Lemma match_line_trim prev s :
  match_here re_line_trim prev s
  = if at_bol true prev && (1 <=? run_length is_space s)
    then Some ([], run_length is_space s)
    else first_down (trailing s) 1 (run_length is_space s).
Proof.
  unfold match_here. cbn [alts re_line_trim multiline match_alts].
  rewrite match_rep_eol.
  change (fun k => if at_eol true (skipn k s) then Some (@nil jsstring, k) else None)
    with (trailing s).
  change (match_seq true [Bol; Rep false is_space 1] prev s)
    with (if at_bol true prev
          then match_seq true [Rep false is_space 1] prev s else None).
  rewrite match_one_rep.
  destruct (at_bol true prev); cbn [andb].
  - destruct (1 <=? run_length is_space s) eqn:E; [reflexivity|].
    apply opt_eta.
  - apply opt_eta.
Qed.

(** [open]: no position of the white space at the head of [s], nor the one
    after it, is an end of line. *)
Lemma open_no_eol : forall s,
  open s = true ->
  forall k, k <= run_length is_space s -> at_eol true (skipn k s) = false.
Proof.
  induction s as [|d r IH]; [discriminate|]. cbn [open run_length].
  destruct (is_space d) eqn:Ed.
  - intros H k Hk. apply andb_true_iff in H as [H1 H2].
    destruct k as [|k]; [cbn; now destruct (is_lt d)|].
    cbn [skipn]. apply IH; auto. lia.
  - intros _ k Hk. assert (k = 0) as -> by lia. cbn.
    now apply not_space_not_lt.
Qed.

Lemma no_eol_open : forall s,
  (forall k, k <= run_length is_space s -> at_eol true (skipn k s) = false) ->
  open s = true.
Proof.
  induction s as [|d r IH]; intros H.
  - specialize (H 0 ltac:(cbn; lia)). discriminate.
  - cbn [open]. destruct (is_space d) eqn:Ed; [|reflexivity].
    apply andb_true_iff. split.
    + specialize (H 0 ltac:(lia)). cbn in H. now rewrite H.
    + apply IH. intros k Hk. apply (H (S k)). cbn [run_length].
      rewrite Ed. lia.
Qed.

Lemma line_trim_not_space prev s :
  startsWithSpace s = false -> match_here re_line_trim prev s = None.
Proof.
  intros H. rewrite match_line_trim, (run_length_0 is_space s H).
  rewrite andb_false_r. reflexivity.
Qed.

Lemma line_trim_bol prev s :
  at_bol true prev = true -> startsWithSpace s = true ->
  match_here re_line_trim prev s = Some ([], run_length is_space s).
Proof.
  intros Hb Hs. rewrite match_line_trim, Hb.
  destruct s as [|c s]; [discriminate|]. cbn in Hs. cbn [run_length].
  now rewrite Hs.
Qed.

Lemma line_trim_open prev c s :
  at_bol true prev = false -> open s = true ->
  match_here re_line_trim prev (c :: s) = None.
Proof.
  intros Hb Ho. rewrite match_line_trim, Hb. cbn [andb].
  apply first_down_none. intros j Hj. unfold trailing.
  destruct j as [|j]; [lia|]. cbn [skipn].
  rewrite open_no_eol; auto. cbn [run_length] in Hj.
  destruct (is_space c); lia.
Qed.

Lemma line_trim_none prev c s :
  match_here re_line_trim prev (c :: s) = None -> is_space c = true ->
  at_bol true prev = false /\ open s = true.
Proof.
  intros H Hc. rewrite match_line_trim in H. cbn [run_length] in H.
  rewrite Hc in H. cbn [Nat.leb] in H. rewrite andb_true_r in H.
  destruct (at_bol true prev); [discriminate|]. split; [reflexivity|].
  apply no_eol_open. intros k Hk.
  pose proof (@first_down_none_inv _ _ _ _ H (S k) ltac:(lia)) as Hk'.
  unfold trailing in Hk'. cbn [skipn] in Hk'.
  now destruct (at_eol true (skipn k s)).
Qed.

(* ---------- a tidy string is left as it is ---------- *)

Lemma okPair_lt_space x y : is_lt x = true -> is_space y = true -> okPair x y = false.
Proof. intros Hx Hy. unfold okPair. now rewrite Hx, Hy. Qed.

Lemma okPair_space_lt x y : is_space x = true -> is_lt y = true -> okPair x y = false.
Proof.
  intros Hx Hy. unfold okPair. rewrite Hx, Hy. cbn. now rewrite andb_false_r.
Qed.

Lemma okPair_blanks x y : hspace x = true -> hspace y = true -> okPair x y = false.
Proof.
  intros Hx Hy. unfold okPair. rewrite Hx, Hy. cbn. now rewrite andb_false_r.
Qed.

Lemma chr_eq c x : chr c x = true -> x = c.
Proof. unfold chr. intros H. now apply Ascii.eqb_eq in H. Qed.

Lemma tidy_no_crlf prev s :
  everywhere tidyAt prev s -> match_here re_crlf prev s = None.
Proof.
  intros H. rewrite match_crlf. destruct s as [|x [|y s]]; try reflexivity.
  destruct (chr CR x) eqn:Ex; [|reflexivity].
  destruct (chr LF y) eqn:Ey; [|reflexivity].
  apply chr_eq in Ex, Ey. subst.
  apply everywhere_tail, everywhere_here in H. destruct H as [_ H].
  discriminate H.
Qed.

Lemma tidy_run_LF prev s :
  everywhere tidyAt prev s -> run_length (chr LF) s <= 1.
Proof.
  intros H. destruct s as [|x [|y s]]; cbn [run_length].
  - lia.
  - destruct (chr LF x); lia.
  - destruct (chr LF x) eqn:Ex; [|lia]. destruct (chr LF y) eqn:Ey; [|lia].
    apply chr_eq in Ex, Ey. subst.
    apply everywhere_tail, everywhere_here in H. destruct H as [_ H].
    discriminate H.
Qed.

Lemma tidy_no_nl3 prev s :
  everywhere tidyAt prev s -> match_here re_nl3 prev s = None.
Proof.
  intros H. rewrite match_nl3. apply tidy_run_LF in H.
  destruct (Nat.leb_spec 3 (run_length (chr LF) s)); [lia | reflexivity].
Qed.

Lemma tidy_no_nl2 prev s :
  everywhere tidyAt prev s -> match_here re_nl2 prev s = None.
Proof.
  intros H. unfold match_here. cbn [alts re_nl2 multiline match_alts].
  rewrite match_one_rep. apply tidy_run_LF in H.
  destruct (Nat.leb_spec 2 (run_length (chr LF) s)); [lia | reflexivity].
Qed.

Lemma tidy_hspace_stable prev s :
  everywhere tidyAt prev s ->
  forall caps n, match_here re_hspace prev s = Some (caps, n) ->
                 expand [Lit " "] caps = firstn n s.
Proof.
  intros H caps n. rewrite match_hspace.
  destruct s as [|x s]; [discriminate|]. cbn [run_length].
  destruct (hspace x) eqn:Ex; [|discriminate].
  assert (Hx : x = SP).
  { destruct (hspace_cases _ Ex) as [->| ->]; [reflexivity|].
    apply everywhere_here in H. destruct H as [H _]. now elim H. }
  assert (Hr : run_length hspace s = 0).
  { apply run_length_0. destruct s as [|y s]; [reflexivity|].
    destruct (hspace y) eqn:Ey; [|reflexivity].
    apply everywhere_tail, everywhere_here in H. destruct H as [_ H].
    now rewrite okPair_blanks in H. }
  rewrite Hr. cbn. intros [= <- <-]. subst. reflexivity.
Qed.

Lemma tidy_no_line_trim prev s :
  everywhere tidyAt prev s -> match_here re_line_trim prev s = None.
Proof.
  intros H. destruct s as [|c s]; [now apply line_trim_not_space|].
  destruct (is_space c) eqn:Ec; [|now apply line_trim_not_space].
  assert (Hb : at_bol true prev = false).
  { pose proof (everywhere_here _ _ _ H) as [_ H0].
    destruct prev as [x|]; [|congruence]. cbn.
    destruct (is_lt x) eqn:Ex; [|reflexivity].
    now rewrite okPair_lt_space in H0. }
  apply line_trim_open; [exact Hb|].
  apply everywhere_tail in H. clear Hb prev.
  revert c Ec H. induction s as [|d s IH]; intros c Ec H.
  - apply everywhere_here in H. cbn in H. congruence.
  - cbn [open]. destruct (is_space d) eqn:Ed; [|reflexivity].
    pose proof (everywhere_here _ _ _ H) as [_ H0].
    destruct (is_lt d) eqn:Eld; [now rewrite okPair_space_lt in H0|].
    cbn. apply (IH d Ed). now apply everywhere_tail in H.
Qed.

Lemma tidy_startsWithSpace s : Tidy s -> startsWithSpace s = false.
Proof.
  intros H. apply everywhere_here in H. destruct s as [|c s]; [reflexivity|].
  now destruct H.
Qed.

Lemma tidy_endsWithSpace s : Tidy s -> endsWithSpace s = false.
Proof.
  unfold Tidy. intros H.
  assert (G : forall s prev, everywhere tidyAt prev s ->
                endsWithSpace s = false
                /\ (s = [] -> match prev with Some x => is_space x = false
                                         | None => True end)).
  { clear. induction s as [|c s IH]; intros prev H.
    - split; [reflexivity|]. intros _. now apply everywhere_here in H.
    - split; [|discriminate]. apply everywhere_tail in H.
      destruct (IH _ H) as [H1 H2]. destruct s as [|d s].
      + unfold endsWithSpace. cbn. now apply H2.
      + now rewrite endsWithSpace_cons. }
  now apply (G s None).
Qed.

Lemma tidy_trim s : Tidy s -> trim s = s.
Proof.
  intros H. unfold trim.
  rewrite trimStart_fix by now apply tidy_startsWithSpace.
  apply trimEnd_fix. now apply tidy_endsWithSpace.
Qed.

Lemma normalize_tidy s : Tidy s -> normalize s = s.
Proof.
  intros H. unfold normalize, replace.
  rewrite (replace_none re_crlf)
    by (eapply everywhere_mono; [|exact H]; apply tidy_no_crlf).
  rewrite (replace_none re_nl3)
    by (eapply everywhere_mono; [|exact H]; apply tidy_no_nl3).
  rewrite (@Rewrites_stable re_hspace [Lit " "] None s
             (replace_from re_hspace [Lit " "] 0 None s)).
  - rewrite (replace_none re_line_trim)
      by (eapply everywhere_mono; [|exact H]; apply tidy_no_line_trim).
    now apply tidy_trim.
  - now apply replace_Rewrites.
  - eapply everywhere_mono; [|exact H]. apply tidy_hspace_stable.
Qed.

(* ---------- the result of normalize is tidy ---------- *)

Lemma match_hspace_some prev s caps n :
  match_here re_hspace prev s = Some (caps, n) ->
  caps = [] /\ n = run_length hspace s /\ startsWithBlank s = true.
Proof.
  rewrite match_hspace.
  destruct (Nat.leb_spec 1 (run_length hspace s)) as [H|H]; [|discriminate].
  intros [= <- <-]. repeat split.
  destruct s as [|y s]; cbn in *; [lia|]. now destruct (hspace y).
Qed.

Lemma match_hspace_none prev s :
  match_here re_hspace prev s = None -> startsWithBlank s = false.
Proof.
  rewrite match_hspace. destruct s as [|y s]; [reflexivity|]. cbn.
  now destruct (hspace y).
Qed.

Lemma hspace_out prev s out :
  Rewrites re_hspace [Lit " "] prev s out ->
  forall oprev,
    match oprev with
    | Some x => hspace x = true -> startsWithBlank s = false
    | None => True
    end ->
    everywhere blanksAt oprev out.
Proof.
  induction 1 as [prev E | prev c s out E _ IH | prev s caps n out E Hn _ IH];
    intros oprev Ho.
  - cbn. auto.
  - apply match_hspace_none in E. cbn in E.
    split.
    + split.
      * intros ->. discriminate.
      * destruct oprev as [x|]; [|exact I]. rewrite E. apply andb_false_r.
    + apply IH. intros Hc. congruence.
  - apply match_hspace_some in E as [-> [-> Es]].
    cbn [expand map concat app].
    split.
    + split; [discriminate|]. destruct oprev as [x|]; [|exact I].
      destruct (hspace x) eqn:Ex; [|reflexivity].
      specialize (Ho eq_refl). congruence.
    + apply IH. intros _. apply (skipn_run_head hspace s).
Qed.

Lemma blanks_of_hspace s :
  everywhere blanksAt None (replace re_hspace [Lit " "] s).
Proof.
  eapply hspace_out; [now apply replace_Rewrites | exact I].
Qed.

Lemma open_skip_run : forall s,
  open s = true -> open (skipn (run_length is_space s) s) = true.
Proof.
  induction s as [|c s IH]; [discriminate|]. cbn [open run_length].
  destruct (is_space c) eqn:Ec.
  - intros H. apply andb_true_iff in H as [_ H]. cbn [skipn]. now apply IH.
  - intros _. cbn. now rewrite Ec.
Qed.

Lemma line_trim_some prev s caps n :
  match_here re_line_trim prev s = Some (caps, n) ->
  caps = [] /\ startsWithSpace s = true.
Proof.
  intros H.
  assert (Hs : startsWithSpace s = true).
  { destruct (startsWithSpace s) eqn:E; [reflexivity|].
    rewrite line_trim_not_space in H; [discriminate | exact E]. }
  split; [|exact Hs]. rewrite match_line_trim in H.
  destruct (at_bol true prev && (1 <=? run_length is_space s)).
  - now injection H.
  - apply first_down_inv in H as [j [_ [H _]]]. unfold trailing in H.
    destruct (at_eol true (skipn j s)); [now injection H | discriminate].
Qed.

Lemma line_trim_out prev s out :
  Rewrites re_line_trim [] prev s out ->
  everywhere blanksAt prev s ->
  forall oprev, Link oprev prev s -> everywhere tidyAt oprev out.
Proof.
  induction 1 as [prev E | prev c s out E _ IH | prev s caps n out E Hn _ IH];
    intros Hin oprev Hl.
  - cbn. split; [|exact I]. destruct oprev as [x|]; [|exact I].
    destruct Hl as [Hl | [Hl _]]; [exact Hl | discriminate].
  - pose proof (everywhere_here _ _ _ Hin) as [Htab Hpair].
    split.
    + split; [exact Htab|].
      destruct oprev as [x|].
      * destruct (is_space c) eqn:Ec.
        -- destruct (line_trim_none _ _ _ E Ec) as [Hb Ho].
           destruct Hl as [Hx | [Hop Hp]].
           ++ unfold okPair. rewrite (not_space_not_lt _ Hx), Hx,
                (not_space_not_hspace _ Hx). reflexivity.
           ++ specialize (Hp Ec). subst prev. cbn in Hb, Hop.
              rewrite Ec in Hop. apply andb_true_iff in Hop as [Hc _].
              apply negb_true_iff in Hc.
              unfold okPair. rewrite Hb, Hc, Hpair. cbn.
              now rewrite andb_false_r.
        -- unfold okPair. rewrite Ec, (not_space_not_lt _ Ec),
             (not_space_not_hspace _ Ec). cbn. now rewrite !andb_false_r.
      * destruct (is_space c) eqn:Ec; [|reflexivity].
        destruct (line_trim_none _ _ _ E Ec) as [Hb _].
        destruct Hl as [Hl | Hl]; cbn in Hl; congruence.
    + apply IH; [now apply everywhere_tail in Hin|].
      cbn. destruct (is_space c) eqn:Ec; [|now left].
      right. destruct (line_trim_none _ _ _ E Ec) as [_ Ho]. now split.
  - destruct (line_trim_some _ _ _ _ E) as [-> Hs]. cbn [expand map concat app].
    apply IH; [apply everywhere_skipn; [lia | exact Hin]|].
    assert (Hbol : at_bol true prev = true -> n = run_length is_space s).
    { intros Hb. rewrite (line_trim_bol _ _ Hb Hs) in E. now injection E. }
    destruct oprev as [x|]; cbn in Hl |- *.
    + destruct Hl as [Hx | [Hop Hp]]; [now left|]. right.
      specialize (Hp Hs). subst prev.
      destruct s as [|c s]; [discriminate|]. cbn in Hs.
      destruct (at_bol true (Some x)) eqn:Hb.
      * rewrite (Hbol eq_refl). split; [now apply open_skip_run|].
        intros Hc. pose proof (skipn_run_head is_space (c :: s)) as Hh.
        unfold startsWithSpace in Hc. congruence.
      * cbn [open] in Hop. rewrite Hs in Hop.
        apply andb_true_iff in Hop as [_ Hop].
        rewrite (line_trim_open _ c s Hb Hop) in E. discriminate.
    + destruct Hl as [Hl | Hb]; [congruence|]. left.
      rewrite (Hbol Hb). apply (skipn_run_head is_space s).
Qed.

Lemma tidy_of_line_trim s :
  everywhere blanksAt None s -> Tidy (replace re_line_trim [] s).
Proof.
  intros H. eapply line_trim_out; [now apply replace_Rewrites | exact H|].
  cbn. now right.
Qed.

(** The result of [normalize] is tidy. *)
Lemma tidy_normalize t : Tidy (normalize t).
Proof.
  unfold normalize.
  set (z := replace re_line_trim [] _).
  assert (Hz : Tidy z) by apply tidy_of_line_trim, blanks_of_hspace.
  now rewrite tidy_trim.
Qed.

Lemma normalize_idempotent t : normalize (normalize t) = normalize t.
Proof. apply normalize_tidy, tidy_normalize. Qed.


(* ---------- more on the engine ---------- *)

Lemma replace_from_copy re tpl prev c s :
  match_here re prev (c :: s) = None ->
  replace_from re tpl 0 prev (c :: s) = c :: replace_from re tpl 0 (Some c) s.
Proof. intros H. cbn [replace_from]. now rewrite H. Qed.

Lemma replace_from_match re tpl prev s caps n :
  global re = true -> nonempty re = true ->
  match_here re prev s = Some (caps, n) ->
  replace_from re tpl 0 prev s
  = expand tpl caps ++ replace_from re tpl 0 (prev_after prev s n) (skipn n s).
Proof.
  intros Hg Hne E. pose proof (@match_here_bounds re prev s caps n Hne E) as Hn.
  destruct s as [|c s]; [cbn in Hn; lia|]. cbn [replace_from]. rewrite E, Hg.
  destruct n as [|k]; [lia|]. cbn [length] in Hn.
  rewrite replace_from_skip by lia. f_equal. f_equal.
  destruct k; reflexivity.
Qed.

Lemma replace_from_nil re tpl prev :
  nonempty re = true -> replace_from re tpl 0 prev [] = [].
Proof.
  intros Hne. cbn. destruct (match_here re prev []) as [[caps n]|] eqn:E;
    [|reflexivity].
  apply match_here_bounds in E; auto. cbn in E. lia.
Qed.

Lemma Rewrites_fun re tpl prev s out :
  global re = true -> nonempty re = true ->
  Rewrites re tpl prev s out -> out = replace_from re tpl 0 prev s.
Proof.
  intros Hg Hne. induction 1 as [prev E | prev c s out E _ IH
                                | prev s caps n out E Hn _ IH].
  - now rewrite replace_from_nil.
  - rewrite replace_from_copy by exact E. now f_equal.
  - rewrite (@replace_from_match re tpl prev s caps n Hg Hne E). now f_equal.
Qed.

(* ---------- runs ---------- *)

Lemma run_head cls : forall k s,
  k < run_length cls s -> exists c r, skipn k s = c :: r /\ cls c = true.
Proof.
  induction k as [|k IH]; intros s Hk; destruct s as [|c s]; cbn in Hk;
    try lia; destruct (cls c) eqn:E; try lia.
  - now exists c, s.
  - cbn [skipn]. apply IH. lia.
Qed.

Lemma run_firstn cls : forall s, forallb cls (firstn (run_length cls s) s) = true.
Proof.
  induction s as [|c s IH]; [reflexivity|]. cbn [run_length].
  destruct (cls c) eqn:E; [|reflexivity]. cbn. now rewrite E, IH.
Qed.

Lemma prev_after_run cls prev s :
  1 <= run_length cls s ->
  exists c, prev_after prev s (run_length cls s) = Some c /\ cls c = true.
Proof.
  intros H. destruct (run_length cls s) as [|k] eqn:E; [lia|]. cbn.
  destruct (@run_head cls k s ltac:(lia)) as [c [r [Hs Hc]]].
  exists c. split; [|exact Hc].
  rewrite <- (firstn_skipn k s), Hs, nth_error_app2; rewrite length_firstn.
  - replace (k - Nat.min k (length s)) with 0; [reflexivity|].
    pose proof (run_length_le cls s). lia.
  - lia.
Qed.

(* ---------- repetitions ---------- *)

Lemma match_rep_top m cap cls mn r prev s caps n :
  mn <= run_length cls s ->
  match_seq m r (prev_after prev s (run_length cls s))
    (skipn (run_length cls s) s) = Some (caps, n) ->
  match_seq m (Rep cap cls mn :: r) prev s
  = Some (if cap then firstn (run_length cls s) s :: caps else caps,
          run_length cls s + n).
Proof.
  intros H E. cbn [match_seq]. apply first_down_top; [exact H|]. now rewrite E.
Qed.

Lemma match_rep_short m cap cls mn r prev s :
  run_length cls s < mn -> match_seq m (Rep cap cls mn :: r) prev s = None.
Proof.
  intros H. cbn [match_seq]. apply first_down_none. intros j Hj. lia.
Qed.

Lemma match_rep_only_top m cap cls mn r prev s :
  (forall k, k < run_length cls s ->
             match_seq m r (prev_after prev s k) (skipn k s) = None) ->
  match_seq m (Rep cap cls mn :: r) prev s
  = if mn <=? run_length cls s then
      match match_seq m r (prev_after prev s (run_length cls s))
              (skipn (run_length cls s) s) with
      | Some (caps, n) =>
          Some (if cap then firstn (run_length cls s) s :: caps else caps,
                run_length cls s + n)
      | None => None
      end
    else None.
Proof.
  intros H. destruct (Nat.leb_spec mn (run_length cls s)) as [Hm|Hm];
    [|now apply match_rep_short].
  destruct (match_seq m r (prev_after prev s (run_length cls s))
              (skipn (run_length cls s) s)) as [[caps n]|] eqn:E.
  - now apply match_rep_top.
  - cbn [match_seq]. apply first_down_none. intros j Hj.
    destruct (Nat.eq_dec j (run_length cls s)) as [->|Hne].
    + now rewrite E.
    + rewrite H by lia. reflexivity.
Qed.

Lemma match_one m cls r prev s :
  match_seq m (One cls :: r) prev s
  = match s with
    | c :: s' =>
        if cls c
        then match match_seq m r (Some c) s' with
             | Some (caps, n) => Some (caps, S n)
             | None => None
             end
        else None
    | [] => None
    end.
Proof. reflexivity. Qed.

Lemma match_alts_one m its prev s :
  match_alts m [its] prev s = match_seq m its prev s.
Proof. cbn. apply opt_eta. Qed.

(* ---------- the expressions of convertToMarkdown ---------- *)

Lemma eol_after_dot s : at_eol true (skipn (run_length dot s) s) = true.
Proof.
  pose proof (skipn_run_head dot s) as H.
  destruct (skipn (run_length dot s) s) as [|c r]; [reflexivity|].
  cbn. unfold dot in H. now apply negb_false_iff in H.
Qed.

Lemma match_bol m r prev s :
  match_seq m (Bol :: r) prev s
  = if at_bol m prev then match_seq m r prev s else None.
Proof. reflexivity. Qed.

Lemma match_wordb m r prev s :
  match_seq m (WordB :: r) prev s
  = if at_wordb prev s then match_seq m r prev s else None.
Proof. reflexivity. Qed.

Lemma match_heading prev s :
  match_here re_heading prev s
  = let '(a, W, D) := headingParts s in
    if at_bol true prev && (1 <=? a)
    then Some ([firstn a s; firstn D (skipn W (skipn a s))], a + W + D)
    else None.
Proof.
  unfold match_here, headingParts.
  cbn [alts re_heading multiline]. rewrite match_alts_one, match_bol.
  set (a := run_length (chr "#") s).
  set (W := run_length is_space (skipn a s)).
  set (D := run_length dot (skipn W (skipn a s))).
  destruct (at_bol true prev); [|reflexivity]. cbn [andb].
  destruct (Nat.leb_spec 1 a) as [Ha|Ha]; [|now apply match_rep_short].
  replace (a + W + D) with (a + (W + (D + 0))) by lia.
  erewrite match_rep_top; [reflexivity | exact Ha |].
  erewrite match_rep_top; [reflexivity | lia |].
  erewrite match_rep_top; [reflexivity | lia |].
  cbn [match_seq]. now rewrite eol_after_dot.
Qed.

Lemma bullet_not_space c : bullet c = true -> is_space c = false.
Proof.
  unfold bullet. intros H. apply orb_true_iff in H as [H|H];
    apply chr_eq in H; subst; reflexivity.
Qed.

Lemma digit_not_dot c : is_digit c = true -> chr "." c = false.
Proof.
  intros H. destruct (chr "." c) eqn:E; [|reflexivity].
  apply chr_eq in E. subst. discriminate.
Qed.

Lemma match_bullet_gm_not_bol prev s :
  at_bol true prev = false -> match_here re_bullet_gm prev s = None.
Proof.
  intros H. unfold match_here. cbn [alts re_bullet_gm multiline].
  now rewrite match_alts_one, match_bol, H.
Qed.

Lemma match_bullet_gm prev s :
  startsWithSpace s = false ->
  match_here re_bullet_gm prev s
  = match s with
    | c :: s' =>
        if at_bol true prev && bullet c && (1 <=? run_length is_space s')
        then Some ([], S (run_length is_space s'))
        else None
    | [] => None
    end.
Proof.
  intros Hs. unfold match_here. cbn [alts re_bullet_gm multiline].
  rewrite match_alts_one, match_bol.
  destruct (at_bol true prev); [|now destruct s].
  cbn [andb].
  rewrite match_rep_only_top; rewrite (run_length_0 is_space s Hs);
    [|intros k Hk; lia].
  cbn [Nat.leb skipn prev_after]. rewrite match_one.
  destruct s as [|c s']; [reflexivity|].
  destruct (bullet c); [|reflexivity]. cbn [andb].
  rewrite match_one_rep.
  destruct (run_length is_space s'); reflexivity.
Qed.

Lemma match_numbered prev s :
  match_here re_numbered prev s
  = let d := run_length is_digit s in
    match skipn d s with
    | c :: s' =>
        if at_wordb prev s && (1 <=? d) && chr "." c
           && (1 <=? run_length is_space s')
        then Some ([firstn d s], d + S (run_length is_space s'))
        else None
    | [] => None
    end.
Proof.
  unfold match_here. cbn [alts re_numbered multiline].
  rewrite match_alts_one, match_wordb. cbv zeta.
  set (d := run_length is_digit s).
  destruct (at_wordb prev s); cbn [andb]; [|now destruct (skipn d s)].
  rewrite match_rep_only_top.
  - fold d. destruct (1 <=? d); [|now destruct (skipn d s)].
    rewrite match_one. destruct (skipn d s) as [|c s']; [reflexivity|].
    cbn [andb]. destruct (chr "." c); [|reflexivity]. cbn [andb].
    rewrite match_one_rep.
    destruct (1 <=? run_length is_space s'); reflexivity.
  - intros k Hk. rewrite match_one.
    destruct (@run_head is_digit k s Hk) as [c [r [-> Hc]]].
    now rewrite (digit_not_dot _ Hc).
Qed.


(* ---------- contexts ---------- *)

Lemma ctx_app prev a b : ctx prev (a ++ b) = ctx (ctx prev a) b.
Proof. unfold ctx. apply fold_left_app. Qed.

Lemma ctx_snoc prev a c : ctx prev (a ++ [c]) = Some c.
Proof. now rewrite ctx_app. Qed.

Lemma ctx_cons prev c a : ctx prev (c :: a) = ctx (Some c) a.
Proof. reflexivity. Qed.

Lemma prev_after_ctx : forall n s prev,
  n <= length s -> prev_after prev s n = ctx prev (firstn n s).
Proof.
  induction n as [|n IH]; intros s prev Hn; [reflexivity|].
  destruct s as [|c s]; [cbn in Hn; lia|]. cbn in Hn.
  cbn [firstn]. rewrite ctx_cons, <- IH by lia.
  destruct n; reflexivity.
Qed.

(* ---------- midb ---------- *)

Lemma midb_app : forall u prev v,
  midb prev (u ++ v) = midb prev u && midb (ctx prev u) v.
Proof.
  induction u as [|y u IH]; intros prev v; [reflexivity|].
  cbn [app midb]. rewrite IH, ctx_cons. now rewrite !andb_assoc.
Qed.

Lemma midb_skipn n s prev :
  n <= length s -> midb prev s = true ->
  midb (prev_after prev s n) (skipn n s) = true.
Proof.
  intros Hn H. rewrite <- (firstn_skipn n s), midb_app in H.
  apply andb_true_iff in H as [_ H]. now rewrite prev_after_ctx.
Qed.

Lemma midb_firstn n s prev : midb prev s = true -> midb prev (firstn n s) = true.
Proof.
  intros H. rewrite <- (firstn_skipn n s), midb_app in H.
  now apply andb_true_iff in H as [H _].
Qed.

Lemma midb_tail prev c s : midb prev (c :: s) = true -> midb (Some c) s = true.
Proof. cbn. intros H. now apply andb_true_iff in H as [_ H]. Qed.

Lemma okPair_r x y : is_space y = false -> okPair x y = true.
Proof.
  intros H. unfold okPair.
  now rewrite H, (not_space_not_lt _ H), (not_space_not_hspace _ H), !andb_false_r.
Qed.

Lemma okPair_l x y : is_space x = false -> okPair x y = true.
Proof.
  intros H. unfold okPair.
  now rewrite H, (not_space_not_lt _ H), (not_space_not_hspace _ H).
Qed.

Lemma okPair_SP y : is_space y = false -> okPair SP y = true.
Proof. apply okPair_r. Qed.

(** After a start of line there is no white space. *)
Lemma midb_bol prev s :
  midb prev s = true -> at_bol true prev = true -> startsWithSpace s = false.
Proof.
  destruct s as [|y s]; [reflexivity|]. cbn. intros H Hb.
  apply andb_true_iff in H as [H _]. apply andb_true_iff in H as [_ H].
  destruct prev as [x|]; [|now apply negb_true_iff in H].
  cbn in Hb. destruct (is_space y) eqn:Ey; [|reflexivity].
  now rewrite okPair_lt_space in H.
Qed.

(** Changing the code unit before a string that does not start with white
    space. *)
Lemma midb_rebase prev prev' s :
  midb prev s = true -> startsWithSpace s = false -> prev' <> None ->
  midb prev' s = true.
Proof.
  destruct s as [|y s]; [reflexivity|]. cbn. intros H Hy Hp.
  apply andb_true_iff in H as [H H2]. apply andb_true_iff in H as [H1 _].
  rewrite H1, H2. destruct prev' as [x|]; [|now elim Hp].
  now rewrite okPair_r.
Qed.

Lemma midb_tidy s : midb None s = true -> endsWithSpace s = false -> Tidy s.
Proof.
  unfold Tidy. intros H He.
  assert (G : forall s prev, midb prev s = true ->
                (s = [] -> match prev with Some x => is_space x = false
                                       | None => True end) ->
                endsWithSpace s = false -> everywhere tidyAt prev s).
  { clear. induction s as [|y s IH]; intros prev H H0 He.
    - cbn. split; [|exact I]. now apply H0.
    - cbn in H. apply andb_true_iff in H as [H H2].
      apply andb_true_iff in H as [H1 H3].
      split.
      + split.
        * intros ->. discriminate.
        * destruct prev; [exact H3 | now apply negb_true_iff in H3].
      + apply IH; [exact H2 | |].
        * intros ->. unfold endsWithSpace in He. cbn in He. exact He.
        * destruct s as [|z s]; [reflexivity|]. now rewrite endsWithSpace_cons in He. }
  apply G; auto.
Qed.

Lemma tidy_midb s : Tidy s -> midb None s = true.
Proof.
  unfold Tidy. generalize (@None ascii) as prev.
  induction s as [|y s IH]; intros prev H; [reflexivity|].
  destruct H as [[Ht Hp] H]. cbn [midb].
  rewrite IH by exact H. rewrite andb_true_r.
  apply andb_true_iff. split.
  - apply negb_true_iff. destruct (chr TAB y) eqn:E; [|reflexivity].
    apply chr_eq in E. now elim Ht.
  - destruct prev; [exact Hp | now rewrite Hp].
Qed.

(* ---------- tailb ---------- *)

Lemma tailb_cons prev c s : s <> [] -> tailb prev (c :: s) = tailb (Some c) s.
Proof. destruct s; [now intros H; elim H | reflexivity]. Qed.

Lemma tailb_app_ne : forall u prev v,
  v <> [] -> tailb prev (u ++ v) = tailb (ctx prev u) v.
Proof.
  induction u as [|c u IH]; intros prev v Hv; [reflexivity|].
  cbn [app]. rewrite tailb_cons, ctx_cons; [now apply IH|].
  destruct u; [exact Hv | discriminate].
Qed.

Lemma tailb_skipn n s prev :
  n <= length s -> skipn n s <> [] ->
  tailb (prev_after prev s n) (skipn n s) = tailb prev s.
Proof.
  intros Hn Hne. rewrite <- (firstn_skipn n s) at 3.
  rewrite tailb_app_ne by exact Hne. now rewrite prev_after_ctx.
Qed.

(** White space to the very end that does not come after a # is excluded. *)
Lemma tailb_space_run : forall W x,
  tailb (Some x) W = true -> forallb is_space W = true -> W <> [] ->
  chr "#" x = true.
Proof.
  induction W as [|w W IH]; intros x Ht Hw Hne; [now elim Hne|].
  cbn in Hw. apply andb_true_iff in Hw as [Hw1 Hw2].
  destruct W as [|w2 W].
  - cbn [tailb] in Ht. rewrite Hw1 in Ht. cbn in Ht.
    now apply andb_true_iff in Ht as [_ Ht].
  - rewrite tailb_cons in Ht by discriminate.
    specialize (IH w Ht Hw2 ltac:(discriminate)).
    apply chr_eq in IH. subst. discriminate.
Qed.

Lemma skipn_nil_forallb cls (s : jsstring) :
  skipn (run_length cls s) s = [] -> forallb cls s = true.
Proof.
  induction s as [|c s IH]; [reflexivity|]. cbn [run_length].
  destruct (cls c) eqn:E; [|discriminate]. cbn. intros H. now rewrite E, IH.
Qed.

(* ---------- bullets ---------- *)

Lemma bullet_gm_global : global re_bullet_gm = true.
Proof. reflexivity. Qed.

Lemma bullet_gm_nonempty : nonempty re_bullet_gm = true.
Proof. reflexivity. Qed.

Lemma matchB_inv prev s caps n :
  midb prev s = true ->
  match_here re_bullet_gm prev s = Some (caps, n) ->
  exists c s',
    s = c :: s' /\ at_bol true prev = true /\ bullet c = true
    /\ 1 <= run_length is_space s' /\ caps = []
    /\ n = S (run_length is_space s').
Proof.
  intros Hm E. destruct (at_bol true prev) eqn:Hb;
    [|now rewrite match_bullet_gm_not_bol in E].
  rewrite match_bullet_gm in E by now apply (midb_bol prev).
  destruct s as [|c s']; [discriminate|]. rewrite Hb in E. cbn [andb] in E.
  destruct (bullet c) eqn:Ec; [|discriminate]. cbn [andb] in E.
  destruct (Nat.leb_spec 1 (run_length is_space s')); [|discriminate].
  injection E as <- <-. exists c, s'. repeat split; auto.
Qed.

Lemma matchB_none prev c s :
  midb prev (c :: s) = true ->
  match_here re_bullet_gm prev (c :: s) = None ->
  at_bol true prev = true -> bullet c = true -> startsWithSpace s = false.
Proof.
  intros Hm E Hb Hc. rewrite match_bullet_gm in E by now apply (midb_bol prev).
  rewrite Hb, Hc in E. cbn [andb] in E.
  destruct s as [|w s]; [reflexivity|]. cbn in E |- *.
  destruct (is_space w); [discriminate | reflexivity].
Qed.

Lemma matchB_not prev c s :
  at_bol true prev = false \/ bullet c = false ->
  midb prev (c :: s) = true ->
  match_here re_bullet_gm prev (c :: s) = None.
Proof.
  intros H Hm. destruct (at_bol true prev) eqn:Hb;
    [|now apply match_bullet_gm_not_bol].
  destruct H as [H|H]; [discriminate|].
  rewrite match_bullet_gm by now apply (midb_bol prev).
  now rewrite Hb, H.
Qed.

(** The first code unit of the result. *)
Lemma bullet_head prev s :
  midb prev s = true ->
  startsWithSpace (replace_from re_bullet_gm tplB 0 prev s) = startsWithSpace s.
Proof.
  intros Hm. destruct s as [|c s];
    [now rewrite replace_from_nil|].
  destruct (match_here re_bullet_gm prev (c :: s)) as [[caps n]|] eqn:E.
  - rewrite (@replace_from_match _ tplB _ _ _ _ bullet_gm_global bullet_gm_nonempty E).
    destruct (matchB_inv _ _ _ _ Hm E) as [c' [s' [[= <- <-] [_ [Hc [_ [-> _]]]]]]].
    unfold tplB, expand. cbn [map concat app startsWithSpace].
    rewrite (bullet_not_space c Hc). reflexivity.
  - now rewrite replace_from_copy.
Qed.

Lemma replace_nil_inv re tpl prev s :
  global re = true -> nonempty re = true ->
  (forall caps, expand tpl caps <> []) ->
  replace_from re tpl 0 prev s = [] -> s = [].
Proof.
  intros Hg Hne Hx H. destruct s as [|c s]; [reflexivity|].
  destruct (match_here re prev (c :: s)) as [[caps n]|] eqn:E.
  - rewrite (@replace_from_match _ tpl _ _ _ _ Hg Hne E) in H.
    apply app_eq_nil in H as [H _]. now apply Hx in H.
  - rewrite replace_from_copy in H by exact E. discriminate.
Qed.

Lemma sim_bol oprev prev s :
  Sim oprev prev s -> at_bol true oprev = true -> oprev = prev.
Proof. intros [H | [-> _]] Hb; [exact H | discriminate]. Qed.

Lemma sim_midb oprev prev s :
  Sim oprev prev s -> midb prev s = true -> midb oprev s = true.
Proof.
  intros [-> | [-> [Hs _]]] Hm; [exact Hm|].
  apply (midb_rebase prev); auto. discriminate.
Qed.

Lemma sim_tail_single oprev prev c :
  Sim oprev prev [c] -> tailb prev [c] = true -> tailb oprev [c] = true.
Proof.
  intros [-> | [-> [Hs _]]] Ht; [exact Ht|].
  cbn in Hs. cbn [tailb]. now rewrite Hs.
Qed.

Lemma bullet_not_hash c : bullet c = true -> chr "#" c = false.
Proof.
  unfold bullet. intros H. apply orb_true_iff in H as [H|H];
    apply chr_eq in H; subst; reflexivity.
Qed.

Lemma hash_not_lt c : chr "#" c = true -> is_lt c = false.
Proof. intros H. apply chr_eq in H. now subst. Qed.

Lemma bullet_out prev s out :
  Rewrites re_bullet_gm tplB prev s out ->
  midb prev s = true -> tailb prev s = true -> everywhere headAt prev s ->
  forall oprev, Sim oprev prev s ->
    midb oprev out = true /\ tailb oprev out = true
    /\ everywhere headAt oprev out /\ everywhere bulletAt oprev out.
Proof.
  induction 1 as [prev E | prev c s out E R IH | prev s caps n out E Hn R IH];
    intros Hm Ht Hh oprev Hsim.
  - repeat split; intros _; exact I.
  - pose proof (Rewrites_fun _ _ _ _ _ bullet_gm_global bullet_gm_nonempty R) as Eo.
    assert (Hm' : midb (Some c) s = true) by now apply (midb_tail prev).
    assert (Ht' : tailb (Some c) s = true).
    { destruct s; [reflexivity|]. now rewrite tailb_cons in Ht. }
    destruct (IH Hm' Ht' (everywhere_tail _ _ _ _ Hh) (Some c) (or_introl eq_refl))
      as [IH1 [IH2 [IH3 IH4]]].
    pose proof (sim_midb _ _ _ Hsim Hm) as Hmo. cbn [midb] in Hmo.
    apply andb_true_iff in Hmo as [Hmo _].
    split; [|split; [|split]].
    + cbn [midb]. now rewrite Hmo, IH1.
    + destruct out as [|o out].
      * symmetry in Eo.
        apply replace_nil_inv in Eo; auto; [|intros caps; discriminate].
        subst s. now apply (sim_tail_single oprev prev).
      * rewrite tailb_cons by discriminate. exact IH2.
    + split; [|exact IH3]. intros Hb Hc.
      pose proof (sim_bol _ _ _ Hsim Hb) as Heq. subst oprev.
      pose proof (everywhere_here _ _ _ Hh Hb Hc) as Hg.
      destruct s as [|w r]; [now elim Hg|]. destruct Hg as [-> Hr].
      rewrite Eo, replace_from_copy.
      * split; [reflexivity|]. rewrite bullet_head; [exact Hr|].
        now apply (midb_tail (Some c)).
      * apply matchB_not; [left; cbn; now apply hash_not_lt | exact Hm'].
    + split; [|exact IH4]. intros Hb Hc Hs.
      pose proof (sim_bol _ _ _ Hsim Hb) as Heq. subst oprev.
      rewrite Eo, bullet_head in Hs by exact Hm'.
      rewrite (matchB_none _ _ _ Hm E Hb Hc) in Hs. discriminate.
  - destruct (matchB_inv _ _ _ _ Hm E) as [c [s' [-> [Hb [Hc [HW [-> ->]]]]]]].
    set (W := run_length is_space s') in *.
    assert (Hrest : skipn (S W) (c :: s') = skipn W s') by reflexivity.
    assert (Hs' : s' <> []) by (intros ->; cbn in HW; lia).
    assert (Hne : skipn W s' <> []).
    { intros Hnil. apply skipn_nil_forallb in Hnil.
      rewrite tailb_cons in Ht by exact Hs'.
      pose proof (tailb_space_run _ _ Ht Hnil Hs') as Hx.
      now rewrite (bullet_not_hash c Hc) in Hx. }
    assert (Hhd : startsWithSpace (skipn W s') = false)
      by apply (skipn_run_head is_space s').
    destruct (@prev_after_run is_space (Some c) s' HW) as [w [Hw1 Hw2]].
    assert (Hp : prev_after prev (c :: s') (S W) = Some w).
    { rewrite <- Hw1. fold W. now destruct W. }
    rewrite Hrest, Hp in *.
    pose proof (Rewrites_fun _ _ _ _ _ bullet_gm_global bullet_gm_nonempty R) as Eo.
    assert (Hm' : midb (Some w) (skipn W s') = true).
    { rewrite <- Hp, <- Hrest. apply midb_skipn; [apply Hn | exact Hm]. }
    assert (Ht' : tailb (Some w) (skipn W s') = true).
    { rewrite <- Hp, <- Hrest, tailb_skipn; auto; try apply Hn; now rewrite Hrest. }
    assert (Hh' : everywhere headAt (Some w) (skipn W s')).
    { rewrite <- Hp, <- Hrest. apply everywhere_skipn; [apply Hn | exact Hh]. }
    destruct (IH Hm' Ht' Hh' (Some SP)) as [IH1 [IH2 [IH3 IH4]]].
    { right. split; [reflexivity|]. split; [exact Hhd|]. now exists w. }
    assert (Ho : startsWithSpace out = false).
    { rewrite Eo, bullet_head; auto. }
    assert (Hone : out <> []).
    { intros ->. symmetry in Eo.
      apply replace_nil_inv in Eo; auto. intros caps; discriminate. }
    change (expand tplB [] ++ out) with ("-"%char :: SP :: out).
    split; [|split; [|split]].
    + cbn [midb]. rewrite IH1, andb_true_r.
      destruct oprev as [x|]; [rewrite okPair_r|]; reflexivity.
    + rewrite !tailb_cons; auto. discriminate.
    + split; [intros _; discriminate|].
      split; [intros Hf; discriminate | exact IH3].
    + split; [intros _ _ _; now split|].
      split; [intros Hf; discriminate | exact IH4].
Qed.


(* ---------- classes ---------- *)

Lemma digit_word c : is_digit c = true -> is_word c = true.
Proof. unfold is_digit, is_word. now intros ->. Qed.

Lemma word_not_space c : is_word c = true -> is_space c = false.
Proof.
  unfold is_word, is_space. generalize (nat_of_ascii c) as n. intros n H.
  repeat match goal with
         | H : _ || _ = true |- _ => apply orb_true_iff in H as [H|H]
         | H : _ && _ = true |- _ => apply andb_true_iff in H as [? ?]
         | H : (_ <=? _) = true |- _ => apply Nat.leb_le in H
         | H : (_ =? _) = true |- _ => apply Nat.eqb_eq in H
         end;
  repeat match goal with
         | |- _ || _ = false => apply orb_false_iff; split
         | |- _ && _ = false => apply andb_false_iff
         | |- (_ =? _) = false => apply Nat.eqb_neq; lia
         end;
  try (left; apply Nat.leb_gt; lia); try (right; apply Nat.leb_gt; lia).
Qed.

Lemma space_not_word c : is_space c = true -> is_word c = false.
Proof.
  intros H. destruct (is_word c) eqn:E; [|reflexivity].
  apply word_not_space in E. congruence.
Qed.

Lemma digit_not_space c : is_digit c = true -> is_space c = false.
Proof. intros H. now apply word_not_space, digit_word. Qed.

Lemma digit_not_hash c : is_digit c = true -> chr "#" c = false.
Proof.
  intros H. destruct (chr "#" c) eqn:E; [|reflexivity].
  apply chr_eq in E. subst. discriminate.
Qed.

Lemma digit_not_bullet c : is_digit c = true -> bullet c = false.
Proof.
  intros H. destruct (bullet c) eqn:E; [|reflexivity].
  unfold bullet in E. apply orb_true_iff in E as [E|E]; apply chr_eq in E;
    subst; discriminate.
Qed.

Lemma digit_not_tab c : is_digit c = true -> chr TAB c = false.
Proof.
  intros H. destruct (chr TAB c) eqn:E; [|reflexivity].
  apply chr_eq in E. subst. discriminate.
Qed.

Lemma space_not_digit c : is_space c = true -> is_digit c = false.
Proof.
  intros H. destruct (is_digit c) eqn:E; [|reflexivity].
  apply digit_not_space in E. congruence.
Qed.

(* ---------- runs ---------- *)

Lemma run_length_app cls : forall u v,
  forallb cls u = true -> run_length cls (u ++ v) = length u + run_length cls v.
Proof.
  induction u as [|c u IH]; intros v H; [reflexivity|].
  cbn in H. apply andb_true_iff in H as [Hc Hu].
  cbn [app run_length length]. now rewrite Hc, IH.
Qed.

Lemma skipn_app_length {A} (u v : list A) : skipn (length u) (u ++ v) = v.
Proof. induction u; cbn; auto. Qed.

Lemma firstn_run_length cls (s : jsstring) :
  length (firstn (run_length cls s) s) = run_length cls s.
Proof. rewrite length_firstn. pose proof (run_length_le cls s). lia. Qed.

(* ---------- numbers ---------- *)

Lemma numbered_global : global re_numbered = true.
Proof. reflexivity. Qed.

Lemma numbered_nonempty : nonempty re_numbered = true.
Proof. reflexivity. Qed.

Lemma expand_tplN d : expand tplN [d] = d ++ ". ".
Proof. unfold expand, tplN. cbn [map concat nth Nat.sub]. now rewrite app_nil_r. Qed.

Lemma matchN_inv prev s caps n :
  match_here re_numbered prev s = Some (caps, n) ->
  at_wordb prev s = true /\ 1 <= run_length is_digit s
  /\ exists c s',
       skipn (run_length is_digit s) s = c :: s' /\ chr "." c = true
       /\ 1 <= run_length is_space s'
       /\ caps = [firstn (run_length is_digit s) s]
       /\ n = run_length is_digit s + S (run_length is_space s').
Proof.
  rewrite match_numbered. cbv zeta.
  destruct (skipn (run_length is_digit s) s) as [|c s'] eqn:Es; [discriminate|].
  destruct (at_wordb prev s); [|discriminate]. cbn [andb].
  destruct (Nat.leb_spec 1 (run_length is_digit s)); [|discriminate]. cbn [andb].
  destruct (chr "." c) eqn:Ec; [|discriminate]. cbn [andb].
  destruct (Nat.leb_spec 1 (run_length is_space s')); [|discriminate].
  intros [= <- <-]. repeat split; auto. exists c, s'. repeat split; auto.
Qed.

Lemma matchN_some prev s c s' :
  at_wordb prev s = true -> 1 <= run_length is_digit s ->
  skipn (run_length is_digit s) s = c :: s' -> chr "." c = true ->
  1 <= run_length is_space s' ->
  match_here re_numbered prev s
  = Some ([firstn (run_length is_digit s) s],
          run_length is_digit s + S (run_length is_space s')).
Proof.
  intros Hw Hd Hs Hc HW. rewrite match_numbered. cbv zeta. rewrite Hs, Hw, Hc.
  destruct (Nat.leb_spec 1 (run_length is_digit s)); [|lia].
  destruct (Nat.leb_spec 1 (run_length is_space s')); [|lia]. reflexivity.
Qed.

Lemma matchN_not_digit prev c s :
  is_digit c = false -> match_here re_numbered prev (c :: s) = None.
Proof.
  intros Hc. rewrite match_numbered. cbv zeta. cbn [run_length]. rewrite Hc.
  cbn [skipn Nat.leb]. now rewrite andb_false_r.
Qed.

Lemma matchN_not_wordb prev s :
  at_wordb prev s = false -> match_here re_numbered prev s = None.
Proof.
  intros H. rewrite match_numbered. cbv zeta. rewrite H.
  now destruct (skipn (run_length is_digit s) s).
Qed.

Lemma numbered_nil prev : replace_from re_numbered tplN 0 prev [] = [].
Proof. apply replace_from_nil. reflexivity. Qed.

(** The result starts with the same code unit as the string. *)
Lemma numbered_head prev s :
  hd_error (replace_from re_numbered tplN 0 prev s) = hd_error s.
Proof.
  destruct s as [|c s]; [now rewrite numbered_nil|].
  destruct (match_here re_numbered prev (c :: s)) as [[caps n]|] eqn:E.
  - rewrite (replace_from_match _ tplN _ _ _ _ numbered_global numbered_nonempty E).
    destruct (matchN_inv _ _ _ _ E) as [_ [Hd [_ [_ [_ [_ [_ [-> _]]]]]]]].
    rewrite expand_tplN. cbn [run_length] in *.
    destruct (is_digit c); [reflexivity | lia].
  - now rewrite replace_from_copy.
Qed.

Lemma numbered_starts prev s :
  startsWithSpace (replace_from re_numbered tplN 0 prev s) = startsWithSpace s.
Proof.
  pose proof (numbered_head prev s) as H.
  destruct (replace_from re_numbered tplN 0 prev s), s; try discriminate;
    [reflexivity|]. now injection H as ->.
Qed.

(** A run of digits after a word character is copied. *)
Lemma numbered_run : forall s x,
  is_word x = true ->
  replace_from re_numbered tplN 0 (Some x) s
  = firstn (run_length is_digit s) s
    ++ replace_from re_numbered tplN 0
         (ctx (Some x) (firstn (run_length is_digit s) s))
         (skipn (run_length is_digit s) s).
Proof.
  induction s as [|c s IH]; intros x Hx; [reflexivity|].
  cbn [run_length]. destruct (is_digit c) eqn:Ec; [|reflexivity].
  rewrite replace_from_copy.
  - cbn [firstn skipn app]. rewrite ctx_cons. f_equal. apply IH.
    now apply digit_word.
  - apply matchN_not_wordb. unfold at_wordb. cbn.
    now rewrite Hx, (digit_word c Ec).
Qed.

Lemma sim_wordb oprev prev s :
  Sim oprev prev s -> at_wordb oprev s = at_wordb prev s.
Proof.
  intros [-> | [-> [_ [w [-> Hw]]]]]; [reflexivity|].
  unfold at_wordb. cbn [word_before]. now rewrite (space_not_word w Hw).
Qed.

Lemma everywhere_block (P : option ascii -> jsstring -> Prop)
    (Q : ascii -> Prop) :
  (forall p c r, Q c -> P p (c :: r)) ->
  forall u p v,
    Forall Q u -> everywhere P (ctx p u) v -> everywhere P p (u ++ v).
Proof.
  intros HQ. induction u as [|c u IH]; intros p v Hu Hv; [exact Hv|].
  inversion Hu as [|c' u' Hc Hu']; subst. cbn [app]. split.
  - now apply HQ.
  - apply IH; auto.
Qed.

Lemma ctx_run cls : forall D p,
  D <> [] -> forallb cls D = true -> exists x, ctx p D = Some x /\ cls x = true.
Proof.
  induction D as [|c D IH]; intros p Hne H; [now elim Hne|].
  cbn in H. apply andb_true_iff in H as [Hc HD]. rewrite ctx_cons.
  destruct D as [|c2 D]; [now exists c|]. apply IH; auto. discriminate.
Qed.

Lemma prev_after_add : forall a s prev b,
  a <= length s ->
  prev_after prev s (a + b) = prev_after (prev_after prev s a) (skipn a s) b.
Proof.
  induction a as [|a IH]; intros s prev b Ha; [reflexivity|].
  destruct s as [|c s]; [cbn in Ha; lia|]. cbn in Ha.
  cbn [skipn]. specialize (IH s (Some c) b ltac:(lia)).
  replace (prev_after prev (c :: s) (S a + b))
    with (prev_after (Some c) s (a + b)) by (destruct a, b; reflexivity).
  replace (prev_after prev (c :: s) (S a))
    with (prev_after (Some c) s a) by (destruct a; reflexivity).
  exact IH.
Qed.

Lemma numberAt_block : forall D x v,
  is_word x = true -> forallb is_digit D = true ->
  everywhere numberAt (ctx (Some x) D) v ->
  everywhere numberAt (Some x) (D ++ v).
Proof.
  induction D as [|c D IH]; intros x v Hx HD Hv; [exact Hv|].
  cbn in HD. apply andb_true_iff in HD as [Hc HD]. cbn [app]. split.
  - intros Hw. unfold at_wordb in Hw. cbn in Hw.
    rewrite Hx, (digit_word c Hc) in Hw. discriminate.
  - apply IH; auto. now apply digit_word.
Qed.

Lemma numberAt_expansion D oprev v :
  D <> [] -> forallb is_digit D = true ->
  numberAt oprev (D ++ v) -> everywhere numberAt (ctx oprev D) v ->
  everywhere numberAt oprev (D ++ v).
Proof.
  intros Hne HD H0 Hv. destruct D as [|c0 D0]; [now elim Hne|].
  cbn in HD. apply andb_true_iff in HD as [Hc0 HD0].
  split; [exact H0|]. apply numberAt_block; auto. now apply digit_word.
Qed.

Lemma numberAt_not_digit p c r : is_digit c = false -> numberAt p (c :: r).
Proof. intros Hc _ Hd. cbn [run_length] in Hd. rewrite Hc in Hd. lia. Qed.

Lemma dot_is c : chr "." c = true -> c = "."%char.
Proof. apply chr_eq. Qed.

Lemma number_out prev s out :
  Rewrites re_numbered tplN prev s out ->
  midb prev s = true -> tailb prev s = true ->
  everywhere headAt prev s -> everywhere bulletAt prev s ->
  forall oprev, Sim oprev prev s ->
    midb oprev out = true /\ tailb oprev out = true
    /\ everywhere headAt oprev out /\ everywhere bulletAt oprev out
    /\ everywhere numberAt oprev out.
Proof.
  induction 1 as [prev E | prev c s out E R IH | prev s caps n out E Hn R IH];
    intros Hm Ht Hh Hbu oprev Hsim.
  - repeat split; intros _; exact I.
  - pose proof (Rewrites_fun _ _ _ _ _ numbered_global numbered_nonempty R) as Eo.
    assert (Hm' : midb (Some c) s = true) by now apply (midb_tail prev).
    assert (Ht' : tailb (Some c) s = true).
    { destruct s; [reflexivity|]. now rewrite tailb_cons in Ht. }
    destruct (IH Hm' Ht' (everywhere_tail _ _ _ _ Hh)
                (everywhere_tail _ _ _ _ Hbu) (Some c) (or_introl eq_refl))
      as [IH1 [IH2 [IH3 [IH4 IH5]]]].
    pose proof (sim_midb _ _ _ Hsim Hm) as Hmo. cbn [midb] in Hmo.
    apply andb_true_iff in Hmo as [Hmo _].
    split; [|split; [|split; [|split]]].
    + cbn [midb]. now rewrite Hmo, IH1.
    + destruct out as [|o out].
      * symmetry in Eo.
        apply replace_nil_inv in Eo; auto; [|intros caps; unfold expand, tplN; cbn;
          destruct (nth 0 caps []); discriminate].
        subst s. now apply (sim_tail_single oprev prev).
      * rewrite tailb_cons by discriminate. exact IH2.
    + split; [|exact IH3]. intros Hb Hc.
      pose proof (sim_bol _ _ _ Hsim Hb) as Heq. subst oprev.
      pose proof (everywhere_here _ _ _ Hh Hb Hc) as Hg.
      destruct s as [|w r]; [now elim Hg|]. destruct Hg as [-> Hr].
      rewrite Eo, replace_from_copy by (now apply matchN_not_digit).
      split; [reflexivity|]. now rewrite numbered_starts.
    + split; [|exact IH4]. intros Hb Hc Hs.
      pose proof (sim_bol _ _ _ Hsim Hb) as Heq. subst oprev.
      rewrite Eo, numbered_starts in Hs.
      destruct (everywhere_here _ _ _ Hbu Hb Hc Hs) as [-> Hg].
      split; [reflexivity|].
      destruct s as [|w r]; [now elim Hg|]. destruct Hg as [-> Hr].
      rewrite Eo, replace_from_copy by (now apply matchN_not_digit).
      split; [reflexivity|]. now rewrite numbered_starts.
    + split; [|exact IH5]. intros Hw Hd.
      assert (Hc : is_digit c = true).
      { cbn [run_length] in Hd. destruct (is_digit c); [reflexivity | lia]. }
      assert (Hwi : at_wordb prev (c :: s) = true).
      { rewrite <- (sim_wordb _ _ _ Hsim). exact Hw. }
      rewrite Eo, (numbered_run s c (digit_word c Hc)) in *.
      set (dr := run_length is_digit s) in *.
      set (p3 := ctx (Some c) (firstn dr s)) in *.
      set (out2 := replace_from re_numbered tplN 0 p3 (skipn dr s)) in *.
      assert (Hrun : run_length is_digit (c :: firstn dr s ++ out2) = S dr).
      { change (c :: firstn dr s ++ out2) with ((c :: firstn dr s) ++ out2).
        rewrite run_length_app.
        - cbn [length]. unfold dr at 1. rewrite firstn_run_length.
          rewrite (run_length_0 is_digit out2); [unfold dr; lia|].
          pose proof (numbered_head p3 (skipn dr s)) as Hhd. fold out2 in Hhd.
          pose proof (skipn_run_head is_digit s) as Hsk. fold dr in Hsk.
          destruct out2, (skipn dr s); try discriminate; auto.
          now injection Hhd as ->.
        - cbn. rewrite Hc. apply run_firstn. }
      rewrite Hrun.
      replace (skipn (S dr) (c :: firstn dr s ++ out2)) with out2.
      2:{ cbn [skipn]. pose proof (firstn_run_length is_digit s) as Hl.
          fold dr in Hl. rewrite <- Hl at 1. now rewrite skipn_app_length. }
      destruct out2 as [|c2 r2] eqn:E2; [exact I|].
      intros Hc2 Hr2. exfalso.
      pose proof (numbered_head p3 (skipn dr s)) as Hhd. fold out2 in Hhd.
      rewrite E2 in Hhd. destruct (skipn dr s) as [|c3 s4] eqn:E3; [discriminate|].
      injection Hhd as <-.
      assert (E4 : r2 = replace_from re_numbered tplN 0 (Some c2) s4).
      { unfold out2 in E2. rewrite replace_from_copy in E2.
        - now injection E2.
        - apply matchN_not_digit. apply dot_is in Hc2. now subst. }
      rewrite E4, numbered_starts in Hr2.
      rewrite (matchN_some prev (c :: s) c2 s4) in E; try discriminate; auto.
      * cbn [run_length]. rewrite Hc. lia.
      * cbn [run_length]. rewrite Hc. cbn [skipn]. exact E3.
      * destruct s4 as [|w s4]; [discriminate|]. cbn in Hr2. cbn [run_length].
        rewrite Hr2. lia.
  - destruct (matchN_inv _ _ _ _ E) as [Hwb [Hd [c [s' [Hsk [Hc [HW [-> ->]]]]]]]].
    apply dot_is in Hc. subst c.
    set (d := run_length is_digit s) in *.
    set (W := run_length is_space s') in *.
    set (D := firstn d s) in *.
    assert (Hs : s = D ++ "."%char :: s').
    { rewrite <- Hsk. symmetry. apply firstn_skipn. }
    assert (HD : forallb is_digit D = true) by apply run_firstn.
    assert (HlD : length D = d) by apply firstn_run_length.
    assert (HDne : D <> []) by (intros HD0; rewrite HD0 in HlD; cbn in HlD; lia).
    assert (Hrest : skipn (d + S W) s = skipn W s').
    { rewrite Nat.add_comm, <- skipn_skipn. fold d in Hsk. now rewrite Hsk. }
    assert (Hs' : s' <> []) by (intros ->; cbn in HW; lia).
    assert (Hne : skipn W s' <> []).
    { intros Hnil. apply skipn_nil_forallb in Hnil.
      rewrite Hs, tailb_app_ne in Ht by discriminate.
      rewrite tailb_cons in Ht by exact Hs'.
      pose proof (tailb_space_run _ _ Ht Hnil Hs') as Hx. discriminate. }
    assert (Hhd : startsWithSpace (skipn W s') = false)
      by apply (skipn_run_head is_space s').
    destruct (@prev_after_run is_space (Some "."%char) s' HW) as [w [Hw1 Hw2]].
    assert (Hp : prev_after prev s (d + S W) = Some w).
    { rewrite prev_after_add by (pose proof (run_length_le is_digit s); fold d; lia).
      fold d in Hsk. rewrite Hsk. rewrite <- Hw1. fold W. now destruct W. }
    rewrite Hrest, Hp in *.
    pose proof (Rewrites_fun _ _ _ _ _ numbered_global numbered_nonempty R) as Eo.
    assert (Hm' : midb (Some w) (skipn W s') = true).
    { rewrite <- Hp, <- Hrest. apply midb_skipn; [apply Hn | exact Hm]. }
    assert (Ht' : tailb (Some w) (skipn W s') = true).
    { rewrite <- Hp, <- Hrest, tailb_skipn; auto; try apply Hn; now rewrite Hrest. }
    assert (Hh' : everywhere headAt (Some w) (skipn W s')).
    { rewrite <- Hp, <- Hrest. apply everywhere_skipn; [apply Hn | exact Hh]. }
    assert (Hbu' : everywhere bulletAt (Some w) (skipn W s')).
    { rewrite <- Hp, <- Hrest. apply everywhere_skipn; [apply Hn | exact Hbu]. }
    destruct (IH Hm' Ht' Hh' Hbu' (Some SP)) as [IH1 [IH2 [IH3 [IH4 IH5]]]].
    { right. split; [reflexivity|]. split; [exact Hhd|]. now exists w. }
    assert (Ho : startsWithSpace out = false).
    { rewrite Eo, numbered_starts; auto. }
    assert (Hone : out <> []).
    { intros ->. symmetry in Eo.
      apply replace_nil_inv in Eo; auto. intros caps. unfold expand, tplN. cbn.
      destruct (nth 0 caps []); discriminate. }
    rewrite expand_tplN, <- app_assoc.
    change (". " ++ out) with ("."%char :: SP :: out).
    destruct (ctx_run is_digit D oprev HDne HD) as [x [Hx1 Hx2]].
    assert (HFd : forall (Q : ascii -> Prop),
               (forall c, is_digit c = true -> Q c) -> Forall Q D).
    { intros Q HQ. apply Forall_forall. intros c Hin. apply HQ.
      rewrite forallb_forall in HD. now apply HD. }
    split; [|split; [|split; [|split]]].
    + rewrite midb_app, Hx1. apply andb_true_iff. split.
      * apply (midb_firstn d s). now apply (sim_midb oprev prev).
      * cbn [midb]. rewrite IH1, andb_true_r.
        rewrite (okPair_r x "."%char) by reflexivity. reflexivity.
    + change (D ++ "."%char :: SP :: out) with (D ++ ["."%char; SP] ++ out).
      rewrite app_assoc, tailb_app_ne by exact Hone.
      rewrite ctx_app. exact IH2.
    + apply everywhere_block with (Q := fun c => chr "#" c = false).
      * intros p c r Hc _ Hf. congruence.
      * apply HFd. apply digit_not_hash.
      * split; [intros _ Hf; discriminate|].
        split; [intros _ Hf; discriminate | exact IH3].
    + apply everywhere_block with (Q := fun c => bullet c = false).
      * intros p c r Hc _ Hf. congruence.
      * apply HFd. apply digit_not_bullet.
      * split; [intros _ Hf; discriminate|].
        split; [intros _ Hf; discriminate | exact IH4].
    + apply numberAt_expansion; auto.
      * intros _ _. rewrite run_length_app by exact HD.
        cbn [run_length]. change (is_digit ".") with false. cbv iota.
        rewrite Nat.add_0_r, skipn_app_length. intros _ _. now split.
      * rewrite Hx1. split; [now apply numberAt_not_digit|].
        split; [now apply numberAt_not_digit | exact IH5].
Qed.


(* ---------- headings ---------- *)

Lemma heading_global : global re_heading = true.
Proof. reflexivity. Qed.

Lemma heading_nonempty : nonempty re_heading = true.
Proof. reflexivity. Qed.

Lemma expand_tplH h C : expand tplH [h; C] = "#"%char :: SP :: C.
Proof. unfold expand, tplH. cbn [map concat nth Nat.sub]. now rewrite app_nil_r. Qed.

Lemma expand_tplH_ne caps : expand tplH caps <> [].
Proof. unfold expand, tplH. cbn. discriminate. Qed.

Lemma matchH_inv prev s caps n :
  match_here re_heading prev s = Some (caps, n) ->
  let '(a, W, D) := headingParts s in
  at_bol true prev = true /\ 1 <= a
  /\ caps = [firstn a s; firstn D (skipn W (skipn a s))]
  /\ n = a + W + D.
Proof.
  rewrite match_heading. destruct (headingParts s) as [[a W] D].
  destruct (at_bol true prev); [|discriminate]. cbn [andb].
  destruct (Nat.leb_spec 1 a); [|discriminate].
  intros [= <- <-]. auto.
Qed.

Lemma matchH_some prev c s :
  at_bol true prev = true -> chr "#" c = true ->
  match_here re_heading prev (c :: s) <> None.
Proof.
  intros Hb Hc. rewrite match_heading.
  unfold headingParts. cbn [run_length]. rewrite Hc, Hb. cbn. discriminate.
Qed.

Lemma endsWithSpace_app u v : v <> [] -> endsWithSpace (u ++ v) = endsWithSpace v.
Proof.
  intros Hv. induction u as [|c u IH]; [reflexivity|].
  cbn [app]. destruct (u ++ v) eqn:E.
  - apply app_eq_nil in E as [_ E]. now elim Hv.
  - rewrite endsWithSpace_cons. exact IH.
Qed.

Lemma endsWithSpace_skipn n s :
  endsWithSpace s = false -> endsWithSpace (skipn n s) = false.
Proof.
  intros H. destruct (skipn n s) as [|c r] eqn:E; [reflexivity|].
  rewrite <- (firstn_skipn n s), endsWithSpace_app in H; rewrite E in *;
    [exact H | discriminate].
Qed.

(** A string that does not end with white space has a good end. *)
Lemma tailb_notrail : forall u p, endsWithSpace u = false -> tailb p u = true.
Proof.
  induction u as [|c u IH]; intros p H; [reflexivity|].
  destruct u as [|c2 u].
  - unfold endsWithSpace in H. cbn in H. cbn [tailb]. now rewrite H.
  - rewrite tailb_cons by discriminate. apply IH.
    now rewrite endsWithSpace_cons in H.
Qed.

Lemma headAt_line : forall C p v,
  at_bol true p = false -> forallb dot C = true ->
  everywhere headAt (ctx p C) v -> everywhere headAt p (C ++ v).
Proof.
  induction C as [|c C IH]; intros p v Hp HC Hv; [exact Hv|].
  cbn in HC. apply andb_true_iff in HC as [Hc HC]. cbn [app]. split.
  - intros Hb. congruence.
  - apply IH; auto. cbn. unfold dot in Hc. now apply negb_true_iff in Hc.
Qed.

Lemma heading_out prev s out :
  Rewrites re_heading tplH prev s out ->
  midb prev s = true -> endsWithSpace s = false ->
  midb prev out = true /\ tailb prev out = true /\ everywhere headAt prev out.
Proof.
  induction 1 as [prev E | prev c s out E R IH | prev s caps n out E Hn R IH];
    intros Hm He.
  - repeat split.
  - pose proof (Rewrites_fun _ _ _ _ _ heading_global heading_nonempty R) as Eo.
    assert (He' : endsWithSpace s = false).
    { destruct s as [|c2 s]; [reflexivity|]. now rewrite endsWithSpace_cons in He. }
    destruct (IH (midb_tail _ _ _ Hm) He') as [IH1 [IH2 IH3]].
    cbn [midb] in Hm. apply andb_true_iff in Hm as [Hm0 _].
    split; [|split].
    + cbn [midb]. now rewrite Hm0, IH1.
    + destruct out as [|o out].
      * symmetry in Eo. apply replace_nil_inv in Eo; auto using expand_tplH_ne.
        subst s. now apply tailb_notrail.
      * now rewrite tailb_cons by discriminate.
    + split; [|exact IH3]. intros Hb Hc. now elim (matchH_some prev c s Hb Hc).
  - pose proof (matchH_inv _ _ _ _ E) as HI.
    destruct (headingParts s) as [[a W] D] eqn:EP.
    destruct HI as [Hb [Ha [-> ->]]].
    unfold headingParts in EP. injection EP as Ea EW ED.
    rewrite Ea in EW, ED. rewrite EW in ED.
    set (s2 := skipn W (skipn a s)) in *.
    set (C := firstn D s2) in *.
    assert (Hrest : skipn (a + W + D) s = skipn D s2).
    { unfold s2. rewrite !skipn_skipn. f_equal. lia. }
    assert (HC : forallb dot C = true).
    { unfold C. rewrite <- ED. apply run_firstn. }
    assert (Hs2 : startsWithSpace s2 = false).
    { unfold s2. rewrite <- EW. apply (skipn_run_head is_space). }
    assert (Hm2 : midb (Some SP) s2 = true).
    { apply (midb_rebase (prev_after prev s (a + W))); [|exact Hs2|discriminate].
      unfold s2. rewrite skipn_skipn, (Nat.add_comm W a).
      apply midb_skipn; [lia | exact Hm]. }
    assert (He2 : endsWithSpace s2 = false).
    { unfold s2. now apply endsWithSpace_skipn, endsWithSpace_skipn. }
    pose proof (Rewrites_fun _ _ _ _ _ heading_global heading_nonempty R) as Eo.
    assert (Hmr : midb (prev_after prev s (a + W + D)) (skipn (a + W + D) s) = true)
      by (apply midb_skipn; [exact (proj2 Hn) | exact Hm]).
    rewrite Hrest in *. rewrite expand_tplH.
    destruct (IH Hmr) as [IH1 [IH2 IH3]].
    { now apply endsWithSpace_skipn. }
    change (("#"%char :: SP :: C) ++ out) with ("#"%char :: SP :: C ++ out).
    destruct C as [|c0 C0] eqn:EC.
    + (* nothing on the line after the white space: the string ends here *)
      assert (Enil : skipn D s2 = []).
      { assert (HD : D = 0).
        { destruct D; [reflexivity|]. destruct s2; [|discriminate EC].
          discriminate ED. }
        rewrite HD in *. cbn [skipn].
        pose proof (eol_after_dot s2) as Heol. rewrite ED in Heol. cbn in Heol.
        destruct s2 as [|y r]; [reflexivity|]. cbn in Heol, Hs2.
        apply lt_space in Heol. congruence. }
      rewrite Enil, replace_from_nil in Eo by reflexivity. subst out.
      cbn [app]. repeat split; try (intros Hf; discriminate).
      cbn [midb]. destruct prev as [x|]; [rewrite okPair_r|]; reflexivity.
    + assert (Hc0 : is_space c0 = false).
      { destruct s2 as [|y r]; [destruct D; discriminate EC|].
        destruct D; [discriminate EC|]. cbn in EC. injection EC as -> _.
        exact Hs2. }
      assert (Hctx : ctx (Some SP) (c0 :: C0) = prev_after prev s (a + W + D)).
      { rewrite <- EC. unfold C.
        rewrite (prev_after_add (a + W) s prev D) by lia.
        replace (skipn (a + W) s) with s2
          by (unfold s2; rewrite skipn_skipn; f_equal; lia).
        rewrite prev_after_ctx.
        - fold C. rewrite EC. reflexivity.
        - unfold s2. rewrite !length_skipn. lia. }
      rewrite <- Hctx in IH1, IH2, IH3.
      assert (HmC : midb (Some SP) (c0 :: C0) = true).
      { rewrite <- EC. unfold C. now apply midb_firstn. }
      split; [|split].
      * change (midb prev ("#"%char :: SP :: (c0 :: C0) ++ out))
          with (negb (chr TAB "#") && match prev with
                                      | Some x => okPair x "#"
                                      | None => negb (is_space "#")
                                      end
                && (negb (chr TAB SP) && okPair "#" SP
                    && midb (Some SP) ((c0 :: C0) ++ out))).
        rewrite midb_app, HmC, IH1.
        destruct prev as [x|]; [rewrite okPair_r|]; reflexivity.
      * destruct out as [|o out].
        -- symmetry in Eo. apply replace_nil_inv in Eo; auto using expand_tplH_ne.
           rewrite app_nil_r. apply tailb_notrail.
           change ("#"%char :: SP :: c0 :: C0) with (["#"%char; SP] ++ c0 :: C0).
           rewrite endsWithSpace_app by discriminate.
           rewrite <- EC. unfold C.
           rewrite <- (firstn_skipn D s2), Eo, app_nil_r in He2. exact He2.
        -- change ("#"%char :: SP :: (c0 :: C0) ++ o :: out)
             with (("#"%char :: SP :: c0 :: C0) ++ o :: out).
           rewrite tailb_app_ne by discriminate. exact IH2.
      * split.
        -- intros _ _. cbn [gap app]. split; [reflexivity | exact Hc0].
        -- split; [intros Hf; discriminate|].
           apply headAt_line; [reflexivity | exact HC | exact IH3].
Qed.


(* ---------- general ---------- *)

Lemma everywhere_conj (P Q : option ascii -> jsstring -> Prop) : forall s prev,
  everywhere P prev s -> everywhere Q prev s ->
  everywhere (fun p b => P p b /\ Q p b) prev s.
Proof.
  induction s as [|c s IH]; intros prev [HP HP'] [HQ HQ']; cbn; auto.
Qed.

Lemma everywhere_midb : forall s prev,
  midb prev s = true -> everywhere (fun p b => midb p b = true) prev s.
Proof.
  induction s as [|c s IH]; intros prev H; [now split|].
  split; [exact H|]. apply IH. now apply midb_tail in H.
Qed.

Lemma everywhere_cut (P Q : option ascii -> jsstring -> Prop) (x : ascii) :
  (forall p c r, P p (c :: r ++ [x]) -> Q p (c :: r)) ->
  (forall p, Q p []) ->
  forall u p, everywhere P p (u ++ [x]) -> everywhere Q p u.
Proof.
  intros H H0. induction u as [|c u IH]; intros p Hu; [now split|].
  cbn [app] in Hu. destruct Hu as [Hc Hu]. split; [now apply H | now apply IH].
Qed.

Lemma firstn_add {A} : forall a b (s : list A),
  firstn (a + b) s = firstn a s ++ firstn b (skipn a s).
Proof.
  induction a as [|a IH]; intros b s; [reflexivity|].
  destruct s as [|c s]; [cbn; now rewrite firstn_nil|].
  cbn [Nat.add firstn skipn app]. now rewrite IH.
Qed.

Lemma gap_run r : gap r -> exists r', r = SP :: r' /\ run_length is_space r = 1.
Proof.
  destruct r as [|w r']; [intros []|]. intros [-> H]. exists r'. split; auto.
  cbn [run_length]. change (is_space SP) with true. cbv iota.
  now rewrite (run_length_0 is_space r') by exact H.
Qed.

Lemma gap_cut r x : r <> [] -> gap (r ++ [x]) -> gap r.
Proof.
  destruct r as [|w r]; [now intros H; elim H|]. intros _ [Hw H].
  split; [exact Hw|]. destruct r as [|y r]; [reflexivity | exact H].
Qed.

Lemma startsWithSpace_app r v :
  startsWithSpace r = true -> startsWithSpace (r ++ v) = true.
Proof. destruct r; [discriminate | auto]. Qed.

(* ---------- the expressions find nothing to change ---------- *)

Lemma midb_no_nl2 prev s : midb prev s = true -> match_here re_nl2 prev s = None.
Proof.
  intros H. unfold match_here. cbn [alts re_nl2 multiline match_alts].
  rewrite match_one_rep.
  assert (Hr : run_length (chr LF) s <= 1).
  { destruct s as [|x [|y s]]; cbn [run_length].
    - lia.
    - destruct (chr LF x); lia.
    - destruct (chr LF x) eqn:Ex; [|lia]. destruct (chr LF y) eqn:Ey; [|lia].
      apply chr_eq in Ex, Ey. subst. apply midb_tail in H. cbn in H.
      discriminate H. }
  destruct (Nat.leb_spec 2 (run_length (chr LF) s)); [lia | reflexivity].
Qed.

Lemma nl2_fixed tpl s : midb None s = true -> replace re_nl2 tpl s = s.
Proof.
  intros H. unfold replace. apply replace_none.
  eapply everywhere_mono; [|apply everywhere_midb; exact H].
  intros p b Hb. apply everywhere_here in Hb. now apply midb_no_nl2.
Qed.

Lemma bullet_fixed s :
  midb None s = true -> everywhere bulletAt None s ->
  replace re_bullet_gm tplB s = s.
Proof.
  intros Hm Hb. unfold replace.
  apply (Rewrites_stable re_bullet_gm tplB None s);
    [apply replace_Rewrites; reflexivity|].
  eapply everywhere_mono;
    [|apply everywhere_conj; [apply everywhere_midb; exact Hm | exact Hb]].
  intros p b H caps n E. apply everywhere_here in H. destruct H as [H1 H2].
  destruct (matchB_inv _ _ _ _ H1 E) as [c [s' [-> [Hbol [Hc [Hr [-> ->]]]]]]].
  destruct (H2 Hbol Hc) as [-> Hg].
  { destruct s' as [|w s']; [cbn in Hr; lia|]. cbn in Hr |- *.
    destruct (is_space w); [reflexivity | lia]. }
  destruct (gap_run _ Hg) as [r' [-> ->]]. reflexivity.
Qed.

Lemma number_fixed s :
  everywhere numberAt None s -> replace re_numbered tplN s = s.
Proof.
  intros Hn. unfold replace.
  apply (Rewrites_stable re_numbered tplN None s);
    [apply replace_Rewrites; reflexivity|].
  eapply everywhere_mono; [|exact Hn].
  intros p b H caps n E. apply everywhere_here in H.
  destruct (matchN_inv _ _ _ _ E) as [Hw [Hd [c [s' [Es [Hc [Hr [-> ->]]]]]]]].
  specialize (H Hw Hd). rewrite Es in H.
  destruct (gap_run s') as [r' [-> Hr']].
  { apply H; [exact Hc|]. destruct s' as [|w s']; [cbn in Hr; lia|].
    cbn in Hr |- *. destruct (is_space w); [reflexivity | lia]. }
  rewrite Hr', expand_tplN, firstn_add, Es. apply chr_eq in Hc. now subst c.
Qed.

(** A heading that has its blank is rewritten to itself. *)
Lemma heading_match_gap p c r caps n :
  match_here re_heading p (c :: r) = Some (caps, n) -> gap r ->
  expand tplH caps = firstn n (c :: r).
Proof.
  intros E Hg. pose proof (matchH_inv _ _ _ _ E) as HI.
  destruct (gap_run _ Hg) as [r' [-> Hr]].
  unfold headingParts in HI. cbn [run_length] in HI.
  destruct (chr "#" c) eqn:Ec; [|cbn in HI; lia].
  change (chr "#" SP) with false in HI. cbv iota in HI.
  cbn [skipn] in HI. rewrite Hr in HI. cbn [skipn] in HI.
  destruct HI as [_ [_ [-> ->]]]. rewrite expand_tplH.
  apply chr_eq in Ec. subst c. reflexivity.
Qed.

Lemma heading_fixed s :
  everywhere headAt None s -> replace re_heading tplH s = s.
Proof.
  intros Hh. unfold replace.
  apply (Rewrites_stable re_heading tplH None s);
    [apply replace_Rewrites; reflexivity|].
  eapply everywhere_mono; [|exact Hh].
  intros p b H caps n E. apply everywhere_here in H.
  pose proof (matchH_inv _ _ _ _ E) as HI.
  destruct b as [|c r].
  { cbn in HI. lia. }
  apply (heading_match_gap p c r); [exact E|].
  unfold headingParts in HI. cbn [run_length] in HI.
  destruct (chr "#" c) eqn:Ec; [|cbn in HI; lia].
  destruct HI as [Hb _]. now apply H.
Qed.

(** A heading sign that ends the string gets a blank. *)
Lemma heading_end prev s out :
  Rewrites re_heading tplH prev s out -> everywhere headEnd prev s ->
  out = s \/ out = s ++ [SP].
Proof.
  induction 1 as [prev E | prev c s out E R IH | prev s caps n out E Hn R IH];
    intros Hs.
  - now left.
  - destruct (IH (everywhere_tail _ _ _ _ Hs)) as [->| ->]; [now left | now right].
  - pose proof (matchH_inv _ _ _ _ E) as HI.
    destruct s as [|c r]; [cbn in HI; lia|].
    assert (Hc : chr "#" c = true).
    { unfold headingParts in HI. cbn [run_length] in HI.
      destruct (chr "#" c); [reflexivity | cbn in HI; lia]. }
    assert (Hb : at_bol true prev = true).
    { destruct (headingParts (c :: r)) as [[a W] D]. tauto. }
    destruct (everywhere_here _ _ _ Hs Hb Hc) as [-> | Hg].
    + unfold headingParts in HI. cbn [run_length] in HI. rewrite Hc in HI.
      cbn in HI. destruct HI as [_ [_ [-> ->]]].
      apply (Rewrites_fun _ _ _ _ _ heading_global heading_nonempty) in R.
      cbn [skipn] in R. rewrite replace_from_nil in R by reflexivity. subst out.
      right. rewrite expand_tplH. apply chr_eq in Hc. now subst c.
    + rewrite (heading_match_gap _ _ _ _ _ E Hg).
      destruct IH as [->| ->].
      * apply everywhere_skipn; [lia | exact Hs].
      * left. apply firstn_skipn.
      * right. rewrite app_assoc. f_equal. apply firstn_skipn.
Qed.

(* ---------- cutting the last blank ---------- *)

Lemma bulletAt_cut u p :
  everywhere bulletAt p (u ++ [SP]) -> everywhere bulletAt p u.
Proof.
  apply everywhere_cut.
  - intros q c r H Hb Hc Hr. destruct (H Hb Hc) as [-> Hg].
    { now apply startsWithSpace_app. }
    split; [reflexivity|]. apply (gap_cut r SP); [|exact Hg].
    destruct r; [discriminate | discriminate].
  - intros q _. exact I.
Qed.

Lemma headEnd_cut u p :
  everywhere headAt p (u ++ [SP]) -> everywhere headEnd p u.
Proof.
  apply everywhere_cut.
  - intros q c r H Hb Hc. specialize (H Hb Hc).
    destruct r as [|w r]; [now left|]. right.
    apply (gap_cut (w :: r) SP); [discriminate | exact H].
  - intros q _. exact I.
Qed.

Lemma run_length_snoc cls s x :
  cls x = false -> run_length cls (s ++ [x]) = run_length cls s.
Proof.
  intros Hx. induction s as [|c s IH]; cbn; [now rewrite Hx|].
  now rewrite IH.
Qed.

Lemma numberAt_cut u p :
  everywhere numberAt p (u ++ [SP]) -> everywhere numberAt p u.
Proof.
  apply everywhere_cut.
  - intros q c r H Hw Hd. unfold numberAt in H.
    change (c :: r ++ [SP]) with ((c :: r) ++ [SP]) in H.
    rewrite run_length_snoc in H by reflexivity.
    specialize (H Hw Hd).
    pose proof (run_length_le is_digit (c :: r)) as Hle.
    rewrite skipn_app in H.
    replace (run_length is_digit (c :: r) - length (c :: r)) with 0 in H by lia.
    cbn [skipn] in H.
    destruct (skipn (run_length is_digit (c :: r)) (c :: r)) as [|y r0];
      [exact I|].
    cbn [app] in H. intros Hy Hr. apply (gap_cut r0 SP).
    + destruct r0; [discriminate | discriminate].
    + apply H; [exact Hy | now apply startsWithSpace_app].
  - intros q _ Hd. cbn in Hd. lia.
Qed.

(* ---------- the end of the string ---------- *)

Lemma trimEnd_cases : forall s prev,
  tailb prev s = true -> trimEnd s = s \/ s = trimEnd s ++ [SP].
Proof.
  induction s as [|c s IH]; intros prev H; [now left|].
  destruct s as [|d s].
  - cbn [tailb] in H. cbn [trimEnd].
    destruct (is_space c) eqn:Ec; [|now left]. cbn [negb orb] in H.
    apply andb_true_iff in H as [H _]. apply chr_eq in H. subst c. now right.
  - rewrite tailb_cons in H by discriminate.
    change (trimEnd (c :: d :: s))
      with (match trimEnd (d :: s) with
            | [] => if is_space c then [] else [c]
            | r' => c :: r'
            end).
    destruct (IH (Some c) H) as [E|E].
    + rewrite E. now left.
    + destruct (trimEnd (d :: s)) as [|y r'] eqn:Et.
      * cbn [app] in E. injection E as -> ->. cbn [tailb] in H.
        change (is_space SP) with true in H. cbn [negb orb] in H.
        apply andb_true_iff in H as [_ H].
        apply chr_eq in H. subst c. now right.
      * right. rewrite E at 1. reflexivity.
Qed.


Lemma convertToMarkdown_eq text :
  convertToMarkdown text
  = trim (replace re_numbered tplN
           (replace re_bullet_gm tplB
              (replace re_nl2 [Lit (nl ++ nl)]
                 (replace re_heading tplH text)))).
Proof. reflexivity. Qed.

Lemma marked_of_tidy b :
  Tidy b ->
  Marked (replace re_numbered tplN
           (replace re_bullet_gm tplB
              (replace re_nl2 [Lit (nl ++ nl)]
                 (replace re_heading tplH b)))).
Proof.
  intros Hb.
  destruct (heading_out None b (replace re_heading tplH b))
    as [H1 [H2 H3]].
  - apply replace_Rewrites; reflexivity.
  - now apply tidy_midb.
  - now apply tidy_endsWithSpace.
  - rewrite nl2_fixed by exact H1.
    set (t1 := replace re_heading tplH b) in *.
    assert (R : Rewrites re_bullet_gm tplB None t1 (replace re_bullet_gm tplB t1))
      by (apply replace_Rewrites; reflexivity).
    destruct (bullet_out None t1 _ R H1 H2 H3 None) as [B1 [B2 [B3 B4]]].
    + now left.
    + set (t3 := replace re_bullet_gm tplB t1) in *.
      apply (number_out None t3 (replace re_numbered tplN t3)); auto.
      * apply replace_Rewrites; reflexivity.
      * now left.
Qed.

(** The steps of [convertToMarkdown] before [trim] change nothing in a
    marked text. *)
Lemma marked_fixed s :
  midb None s = true -> everywhere bulletAt None s ->
  everywhere numberAt None s ->
  replace re_numbered tplN
    (replace re_bullet_gm tplB (replace re_nl2 [Lit (nl ++ nl)] s)) = s.
Proof.
  intros H1 H2 H3.
  now rewrite nl2_fixed, bullet_fixed, number_fixed.
Qed.

Lemma marked_trim s :
  Marked s -> Tidy (trim s) /\ convertToMarkdown (trim s) = trim s.
Proof.
  intros [Hm [Ht [Hh [Hb Hn]]]].
  assert (Hs : trim s = trimEnd s).
  { unfold trim. rewrite trimStart_fix; [reflexivity|].
    now apply (midb_bol None). }
  pose proof (trimEnd_endsWithSpace s) as He.
  rewrite Hs. destruct (trimEnd_cases s None Ht) as [E|E].
  - rewrite E in *. split; [now apply midb_tidy|].
    rewrite convertToMarkdown_eq, heading_fixed, marked_fixed by assumption.
    now rewrite Hs.
  - set (u := trimEnd s) in *.
    assert (Hmu : midb None u = true).
    { rewrite E, midb_app in Hm. now apply andb_true_iff in Hm as [Hm _]. }
    rewrite E in Hh, Hb, Hn.
    split; [now apply midb_tidy|].
    rewrite convertToMarkdown_eq.
    destruct (heading_end None u (replace re_heading tplH u)) as [-> | ->].
    + apply replace_Rewrites; reflexivity.
    + now apply headEnd_cut.
    + rewrite marked_fixed;
        [|exact Hmu | now apply bulletAt_cut | now apply numberAt_cut].
      apply tidy_trim. now apply midb_tidy.
    + rewrite <- E. rewrite marked_fixed; [exact Hs | exact Hm | |];
        now rewrite E.
Qed.

Lemma markdown_idempotent t :
  convertToMarkdown (normalize (convertToMarkdown (normalize t)))
  = convertToMarkdown (normalize t).
Proof.
  destruct (marked_trim _ (marked_of_tidy _ (tidy_normalize t))) as [H1 H2].
  rewrite <- convertToMarkdown_eq in H1, H2.
  now rewrite normalize_tidy.
Qed.

(** C6, amended. For every input and every format other than html, the
    local transform applied to its own result returns that result: the
    result of [normalize] is tidy and a tidy string is left as it is, and
    the result of [convertToMarkdown] on a tidy string is tidy and is left
    as it is by the four replacements and the [trim] of
    [convertToMarkdown]. *)
Theorem localProcessing_idempotent_not_html (text format : jsstring) :
  format <> "html"%js ->
  localProcessing (localProcessing text format) format
  = localProcessing text format.
Proof.
  intros Hf. unfold localProcessing. cbv zeta.
  destruct (JS.eqb format "markdown").
  - apply markdown_idempotent.
  - apply eqb_neq in Hf. rewrite Hf. apply normalize_idempotent.
Qed.

(** The theorem at the format markdown, on the input of the
    specification. *)
Lemma localProcessing_idempotent_not_html_witness :
  "markdown" <> "html"
  /\ localProcessing (localProcessing Examples.claimedInput "markdown") "markdown"
     = localProcessing Examples.claimedInput "markdown".
Proof.
  split; [discriminate|].
  apply (localProcessing_idempotent_not_html Examples.claimedInput "markdown").
  discriminate.
Defined.

(** The statement of C6 fails for the format html: the result is markup,
    and the second application wraps the paragraph once more. *)
Lemma localProcessing_idempotent_counterexample :
  localProcessing "a" "html" = "<p>a</p>" ++ nl
  /\ localProcessing (localProcessing "a" "html") "html"
     = "<p><p>a</p></p>" ++ nl
  /\ localProcessing (localProcessing "a" "html") "html"
     <> localProcessing "a" "html".
Proof.
  repeat split; try (vm_compute; reflexivity).
  vm_compute. discriminate.
Qed.

End Idempotence.

(** ** More on the local transform *)

Section LocalTransform.
Import JS Regex AIService Shape.

(** A replacement that writes code units of a class into a string of that
    class gives a string of that class. *)
Lemma Rewrites_forallb (cls : ascii -> bool) re tpl prev s out :
  Rewrites re tpl prev s out ->
  (forall caps, forallb cls (expand tpl caps) = true) ->
  forallb cls s = true -> forallb cls out = true.
Proof.
  intros R Hx. induction R as [prev E | prev c s out E R IH
                               | prev s caps n out E Hn R IH]; intros Hs.
  - reflexivity.
  - cbn in Hs |- *. apply andb_true_iff in Hs as [Hc Hs]. now rewrite Hc, IH.
  - rewrite forallb_app, Hx. apply IH.
    rewrite <- (firstn_skipn n s), forallb_app in Hs.
    now apply andb_true_iff in Hs as [_ Hs].
Qed.

Lemma replace_forallb (cls : ascii -> bool) re tpl s :
  global re = true -> nonempty re = true ->
  (forall caps, forallb cls (expand tpl caps) = true) ->
  forallb cls s = true -> forallb cls (replace re tpl s) = true.
Proof.
  intros Hg Hne Hx Hs.
  apply (Rewrites_forallb cls re tpl None s); auto.
  now apply replace_Rewrites.
Qed.

Lemma normalize_blank text : forallb is_space text = true -> normalize text = [].
Proof.
  intros H. unfold normalize. apply trim_nil_iff.
  repeat (apply replace_forallb; try reflexivity).
  exact H.
Qed.

(** A string without two line feeds in a row is one paragraph. *)
Lemma split_go_one : forall s cur prev,
  everywhere tidyAt prev s -> split_go (nl ++ nl) 0 cur s = [rev cur ++ s].
Proof.
  induction s as [|c s IH]; intros cur prev H.
  - cbn. now rewrite app_nil_r.
  - cbn [split_go].
    assert (E : startsWith (nl ++ nl) (c :: s) = false).
    { pose proof (tidy_run_LF _ _ H) as Hr.
      destruct s as [|d s].
      - change (startsWith (nl ++ nl) [c]) with (Ascii.eqb LF c && false).
        apply andb_false_r.
      - change (startsWith (nl ++ nl) (c :: d :: s))
          with (Ascii.eqb LF c && (Ascii.eqb LF d && true)).
        cbn [run_length] in Hr. unfold chr in Hr.
        destruct (Ascii.eqb LF c); [|reflexivity].
        destruct (Ascii.eqb LF d); [lia | reflexivity]. }
    rewrite E, (IH (c :: cur) (Some c)) by now apply everywhere_tail in H.
    cbn [rev]. now rewrite <- app_assoc.
Qed.

Lemma convertToHTML_tidy p : Tidy p -> convertToHTML p = htmlBlock p.
Proof.
  intros H. unfold convertToHTML, split.
  now rewrite (split_go_one p [] None H).
Qed.

(** What [trim] leaves of a marked text. *)
Lemma marked_trim_shape s :
  Marked s ->
  everywhere headEnd None (trim s) /\ everywhere bulletAt None (trim s)
  /\ everywhere numberAt None (trim s).
Proof.
  intros [Hm [Ht [Hh [Hb Hn]]]].
  assert (Hs : trim s = trimEnd s).
  { unfold trim. rewrite trimStart_fix; [reflexivity|].
    now apply (midb_bol None). }
  rewrite Hs. destruct (trimEnd_cases s None Ht) as [E|E].
  - rewrite E. split; [|now split].
    eapply everywhere_mono; [|exact Hh].
    intros p b H Hbol. apply everywhere_here in H. specialize (H Hbol).
    destruct b as [|c r]; [exact I|]. intros Hc. right. now apply H.
  - rewrite E in Hh, Hb, Hn.
    split; [now apply headEnd_cut|].
    split; [now apply bulletAt_cut | now apply numberAt_cut].
Qed.

Lemma markdown_marked text :
  exists s, Marked s /\ localProcessing text "markdown" = trim s.
Proof.
  eexists. split; [apply (marked_of_tidy _ (tidy_normalize text))|].
  reflexivity.
Qed.

(** X1. For every format other than html, the result of the local transform
    is tidy: it neither begins nor ends with white space, holds no
    tabulation, no two blanks in a row, and no line terminator next to white
    space (so no empty line, and no line that begins or ends with a
    blank). *)
Theorem localProcessing_result_tidy (text format : jsstring) :
  format <> "html" -> Tidy (localProcessing text format).
Proof.
  intros Hf. unfold localProcessing. cbv zeta.
  destruct (JS.eqb format "markdown").
  - destruct (marked_trim _ (marked_of_tidy _ (tidy_normalize text))) as [H _].
    exact H.
  - apply eqb_neq in Hf. rewrite Hf. apply tidy_normalize.
Qed.

(** X2. The strings that the local transform with the format text returns
    unchanged are the tidy strings. *)
Theorem localProcessing_text_fixed_iff_tidy (s : jsstring) :
  localProcessing s "text" = s <-> Tidy s.
Proof.
  change (localProcessing s "text") with (normalize s). split.
  - intros H. rewrite <- H. apply tidy_normalize.
  - apply normalize_tidy.
Qed.

(** X3. A text made of white space only (the empty text included) is
    transformed into the empty string, for every format. *)
Theorem localProcessing_blank_input (text format : jsstring) :
  forallb is_space text = true -> localProcessing text format = "".
Proof.
  intros H. unfold localProcessing. rewrite (normalize_blank text H). cbv zeta.
  destruct (JS.eqb format "markdown"); [reflexivity|].
  destruct (JS.eqb format "html"); reflexivity.
Qed.

(** X4. With the format html the result is one block at most, whatever the
    input: the text that reaches [convertToHTML] has no empty line, so the
    loop over the paragraphs runs once, on the whole normalised text. *)
Theorem localProcessing_html_one_block (text : jsstring) :
  localProcessing text "html" = htmlBlock (normalize text).
Proof.
  change (localProcessing text "html") with (convertToHTML (normalize text)).
  apply convertToHTML_tidy, tidy_normalize.
Qed.

(** X5. In the result of the format markdown, a # at the start of a line is
    followed by one blank and then by a code unit that is not white space,
    unless the text ends with it: every heading is of the first level. *)
Theorem localProcessing_markdown_headings (text : jsstring) :
  everywhere headEnd None (localProcessing text "markdown").
Proof.
  destruct (markdown_marked text) as [s [Hs ->]].
  now apply marked_trim_shape.
Qed.

(** X6. In the result of the format markdown, a bullet (dash or asterisk) at
    the start of a line that is followed by white space is a dash followed
    by one blank; and a number at a word boundary that is followed by a full
    stop and white space is followed by a full stop and one blank. *)
Theorem localProcessing_markdown_lists (text : jsstring) :
  everywhere bulletAt None (localProcessing text "markdown")
  /\ everywhere numberAt None (localProcessing text "markdown").
Proof.
  destruct (markdown_marked text) as [s [Hs ->]].
  now apply marked_trim_shape.
Qed.

End LocalTransform.

(** ** The runs of [callProvider] and of [testConnection] *)

Section Provider.
Import JS AIService Connection.

Variable fetch : Request -> Outcome.

Lemma progressValues_app a b :
  progressValues (a ++ b) = progressValues a ++ progressValues b.
Proof. unfold progressValues. apply flat_map_app. Qed.

Lemma requests_app a b : requests (a ++ b) = requests a ++ requests b.
Proof. unfold requests. apply flat_map_app. Qed.

Lemma progressValues_report cb v :
  progressValues (report cb v) = if cb then [v] else [].
Proof. now destruct cb. Qed.

Lemma requests_report cb v : requests (report cb v) = [].
Proof. now destruct cb. Qed.

(** What [send] does with one request. *)
Lemma send_run request cb :
  requests (snd (send fetch request cb)) = [request]
  /\ progressValues (snd (send fetch request cb))
     = match fetch request with
       | HttpOk _ | HttpOkUnreadable _ => if cb then [90] else []
       | _ => []
       end.
Proof.
  unfold send. destruct (fetch request); cbn [fst snd]; try (now split);
    (split; [cbn; now rewrite requests_report | cbn; now destruct cb]).
Qed.

(** A run of [callProvider] makes no request and reports nothing, or it
    sends one request built from the settings. *)
Lemma callProvider_cases settings prompt userText format cb :
  let run := callProvider fetch settings prompt userText format cb in
  run = (inr (localProcessing userText format), [])
  \/ (exists thrown, run = (inl thrown, []))
  \/ exists config request,
       Providers (provider settings) = Some config
       /\ authorization request = "Bearer " ++ apiKey settings
       /\ timeout request
          = (if JS.eqb (provider settings) "huggingface"
             then 45000 else 30000)%Z
       /\ url request
          = orElse (customUrl settings) (endpoint config)
            ++ (if JS.eqb (provider settings) "deepseek"
                then "/chat/completions"
                else if JS.eqb (provider settings) "huggingface"
                then orElse (model settings) (defaultModel config)
                else "")
       /\ body request
          = (if JS.eqb (provider settings) "huggingface"
             then InferenceBody
                    (enhancePromptForFormat prompt format ++ nl ++ nl
                     ++ "Text to format:" ++ nl ++ userText ++ nl ++ nl
                     ++ "Formatted text:")
             else ChatBody (orElse (model settings) (defaultModel config))
                    "You are a text formatting assistant. Apply instructions exactly. Output only formatted text with no explanation."
                    (enhancePromptForFormat prompt format ++ nl ++ nl
                     ++ "Text to process:" ++ nl ++ userText))
       /\ run
          = (fst (send fetch request cb),
             report cb 10 ++ snd (send fetch request cb)
             ++ match fst (send fetch request cb) with
                | inl _ => report cb 0
                | inr _ => []
                end).
Proof.
  cbv zeta. unfold callProvider.
  destruct (is_empty (provider settings) || JS.eqb (provider settings) "local");
    [now left|].
  right.
  destruct (Providers (provider settings)) as [config|];
    [|left; eexists; reflexivity].
  destruct (requiresKey config && is_empty (apiKey settings));
    [left; eexists; reflexivity|].
  right. exists config.
  assert (Hsend : forall request,
            (let '(r, evs) := send fetch request cb in
             match r with
             | inr text => (inr text, report cb 10 ++ evs)
             | inl error => (inl error, report cb 10 ++ evs ++ report cb 0)
             end)
            = (fst (send fetch request cb),
               report cb 10 ++ snd (send fetch request cb)
               ++ match fst (send fetch request cb) with
                  | inl _ => report cb 0
                  | inr _ => []
                  end)).
  { intros request. destruct (send fetch request cb) as [[e|r] evs];
      cbn [fst snd]; [reflexivity | now rewrite app_nil_r]. }
  destruct (JS.eqb (provider settings) "deepseek") eqn:Ed.
  - assert (Eh : JS.eqb (provider settings) "huggingface" = false).
    { apply eqb_eq in Ed. now rewrite Ed. }
    rewrite Eh. unfold callDeepSeek, callOpenAICompatible.
    match goal with |- context [send fetch ?r cb] => exists r end.
    repeat (split; [reflexivity|]).
    apply Hsend.
  - destruct (JS.eqb (provider settings) "huggingface") eqn:Eh.
    + unfold callHuggingFace.
      match goal with |- context [send fetch ?r cb] => exists r end.
      repeat (split; [reflexivity|]).
      apply Hsend.
    + unfold callOpenAICompatible.
      match goal with |- context [send fetch ?r cb] => exists r end.
      split; [reflexivity|]. split; [reflexivity|]. split; [reflexivity|].
      split; [cbn [url]; now rewrite app_nil_r|]. split; [reflexivity|].
      apply Hsend.
Qed.

(** The requests of a run: none, or one built from the settings. *)
Lemma callProvider_requests settings prompt userText format cb :
  let evs := snd (callProvider fetch settings prompt userText format cb) in
  requests evs = []
  \/ exists config request,
       requests evs = [request]
       /\ Providers (provider settings) = Some config
       /\ authorization request = "Bearer " ++ apiKey settings
       /\ timeout request
          = (if JS.eqb (provider settings) "huggingface"
             then 45000 else 30000)%Z
       /\ url request
          = orElse (customUrl settings) (endpoint config)
            ++ (if JS.eqb (provider settings) "deepseek"
                then "/chat/completions"
                else if JS.eqb (provider settings) "huggingface"
                then orElse (model settings) (defaultModel config)
                else "")
       /\ body request
          = (if JS.eqb (provider settings) "huggingface"
             then InferenceBody
                    (enhancePromptForFormat prompt format ++ nl ++ nl
                     ++ "Text to format:" ++ nl ++ userText ++ nl ++ nl
                     ++ "Formatted text:")
             else ChatBody (orElse (model settings) (defaultModel config))
                    "You are a text formatting assistant. Apply instructions exactly. Output only formatted text with no explanation."
                    (enhancePromptForFormat prompt format ++ nl ++ nl
                     ++ "Text to process:" ++ nl ++ userText)).
Proof.
  cbv zeta.
  destruct (callProvider_cases settings prompt userText format cb)
    as [E | [[m E] | [config [request [Hc [Ha [Ht [Hu [Hb E]]]]]]]]];
    rewrite E; [now left | now left |].
  right. exists config, request. split; [|auto].
  cbn [snd]. rewrite !requests_app, requests_report.
  destruct (send_run request cb) as [-> _].
  destruct (fst (send fetch request cb)); [rewrite requests_report|];
    reflexivity.
Qed.

(** X7. Whatever the settings and whatever the backend answers, one call of
    [callProvider] makes one request at most: nothing is sent twice. *)
Theorem callProvider_at_most_one_request settings prompt userText format cb :
  length (requests (snd (callProvider fetch settings prompt userText format cb)))
  <= 1.
Proof.
  destruct (callProvider_requests settings prompt userText format cb)
    as [E | [config [request [E _]]]]; rewrite E; cbn; lia.
Qed.

(** X8. The values that one call of [callProvider] hands to its callback:
    none when no request is made; 10 and then 90 when the request gives a
    text; 10, 90 and then 0 when the response is ok but the text cannot be
    read from its body (the 90 is reported before the body is read); 10 and
    then 0 for every other failure of the request. *)
Theorem callProvider_progress_values settings prompt userText format :
  let run := callProvider fetch settings prompt userText format true in
  progressValues (snd run)
  = match requests (snd run) with
    | [] => []
    | request :: _ =>
        match fetch request with
        | HttpOk _ => [10; 90]
        | HttpOkUnreadable _ => [10; 90; 0]
        | Aborted | Failed _ | HttpError _ => [10; 0]
        end
    end.
Proof.
  cbv zeta.
  destruct (callProvider_cases settings prompt userText format true)
    as [E | [[m E] | [config [request [_ [_ [_ [_ [_ E]]]]]]]]]; rewrite E;
    [reflexivity | reflexivity |].
  cbn [fst snd]. unfold send.
  destruct (fetch request) eqn:Ef; cbn; rewrite Ef; reflexivity.
Qed.

(** X9. With a provider of the table, every request that [callProvider]
    makes carries the key as a bearer token (the setting [customHeader] is
    not read), has a timeout of 45 seconds for huggingface and of 30 seconds
    otherwise, and goes to the custom URL if there is one, else to the
    endpoint of the table, followed by '/chat/completions' for deepseek and
    by the model for huggingface. *)
Theorem callProvider_request_shape settings config prompt userText format cb
    request :
  Providers (provider settings) = Some config ->
  In request
    (requests (snd (callProvider fetch settings prompt userText format cb))) ->
  authorization request = "Bearer " ++ apiKey settings
  /\ timeout request
     = (if JS.eqb (provider settings) "huggingface" then 45000 else 30000)%Z
  /\ url request
     = orElse (customUrl settings) (endpoint config)
       ++ (if JS.eqb (provider settings) "deepseek"
           then "/chat/completions"
           else if JS.eqb (provider settings) "huggingface"
           then orElse (model settings) (defaultModel config)
           else "").
Proof.
  intros Hp.
  destruct (callProvider_requests settings prompt userText format cb)
    as [E | [config' [req [E [Hc [Ha [Ht [Hu _]]]]]]]]; rewrite E;
    [intros []|].
  intros [<- | []]. rewrite Hp in Hc. injection Hc as <-. auto.
Qed.

(** X10. With no provider or the provider local, the connection test
    answers false, and nothing is sent: the local transform returns the
    text of the test, 'test', which does not hold 'TEST OK'. *)
Theorem testConnection_local settings :
  is_empty (provider settings) || JS.eqb (provider settings) "local" = true ->
  testConnection fetch settings = (inr false, []).
Proof.
  intros H. unfold testConnection, callProvider. rewrite H. reflexivity.
Qed.

(** X11. The connection test answers true only if one request was made and
    the backend answered it with a text that holds 'TEST OK'. *)
Theorem testConnection_true settings :
  fst (testConnection fetch settings) = inr true ->
  exists request text,
    requests (snd (testConnection fetch settings)) = [request]
    /\ fetch request = HttpOk text
    /\ includes "TEST OK" text = true.
Proof.
  unfold testConnection.
  destruct (callProvider_cases settings "Respond with exactly: TEST OK" "test"
              "text" false)
    as [E | [[m E] | [config [request [_ [_ [_ [_ [_ E]]]]]]]]]; rewrite E.
  - cbn. discriminate.
  - destruct (includes "loading" m); cbn; discriminate.
  - unfold send. destruct (fetch request) as [|m|m|m|text] eqn:Ef;
      cbn [fst snd report app];
      try (match goal with
           | |- context [includes "loading" ?x] =>
               destruct (includes "loading" x); cbn; discriminate
           end).
    cbn [fst]. intros [= H]. apply andb_true_iff in H as [_ H].
    exists request, text. auto.
Qed.

End Provider.

(** ** The worker of the recognition service over several calls *)

Section Worker.
Import JS OCRService Lifecycle.

Variable cwr : option Thrown.

Lemma creations_app a b : creations (a ++ b) = creations a + creations b.
Proof. unfold creations. now rewrite filter_app, length_app. Qed.

Lemma creations_loggerEvents o msgs : creations (loggerEvents o msgs) = 0.
Proof.
  induction msgs as [|m msgs IH]; [reflexivity|].
  unfold loggerEvents. cbn [flat_map]. rewrite creations_app.
  fold (loggerEvents o msgs). rewrite IH.
  destruct (JS.eqb (status m) "recognizing text"); [|reflexivity].
  now destruct o.
Qed.

(** Once a worker exists, calls of [processImage] keep it, create no other
    and hand nothing to a callback that its logger does not hold. *)
Lemma processImages_with_worker : forall calls w wk,
  worker w = Some wk ->
  let w' := snd (processImages cwr calls w) in
  worker w' = Some wk
  /\ creations (trace w') = creations (trace w)
  /\ forall cb, logger wk <> Some cb ->
       delivered cb (trace w') = delivered cb (trace w).
Proof.
  induction calls as [|[file o] calls IH]; intros w wk Hw; cbv zeta.
  - cbn. auto.
  - cbn [processImages]. rewrite processImage_run, Hw.
    specialize (IH {| worker := Some wk;
                      trace := trace w ++ Recognize file
                                 :: loggerEvents (logger wk) (logged file) |}
                   wk eq_refl).
    cbv zeta in IH.
    destruct (processImages cwr calls _) as [rs w2]. cbn [snd] in *.
    destruct IH as [H1 [H2 H3]]. split; [exact H1|]. split.
    + rewrite H2. cbn [trace]. rewrite creations_app.
      change (Recognize file :: loggerEvents (logger wk) (logged file))
        with ([Recognize file] ++ loggerEvents (logger wk) (logged file)).
      rewrite creations_app, creations_loggerEvents. cbn. lia.
    + intros cb Hcb. rewrite (H3 cb Hcb). cbn [trace].
      rewrite delivered_app. cbn [delivered].
      rewrite (delivered_loggerEvents_other (logged file) Hcb).
      apply app_nil_r.
Qed.

(** X12. Calls of [processImage] made one after the other while
    [createWorker] resolves, the first without a worker: one worker is
    created, by the first call; its logger holds the callback of that call,
    and no other callback is handed anything by the recognitions. *)
Theorem processImages_one_worker file o rest w :
  cwr = None -> worker w = None ->
  let w' := snd (processImages cwr ((file, o) :: rest) w) in
  creations (trace w') = S (creations (trace w))
  /\ worker w' = Some {| logger := o |}
  /\ forall cb, o <> Some cb ->
       delivered cb (trace w') = delivered cb (trace w).
Proof.
  intros Hc Hw. cbv zeta. cbn [processImages].
  rewrite processImage_run, Hw, Hc.
  pose proof (processImages_with_worker rest
                {| worker := Some {| logger := o |};
                   trace := trace w ++ CreateWorker o :: Recognize file
                              :: loggerEvents o (logged file) |}
                {| logger := o |} eq_refl) as IH.
  cbv zeta in IH. rewrite Hc in IH.
  destruct (processImages None rest _) as [rs w2]. cbn [snd] in *.
  destruct IH as [H1 [H2 H3]]. split; [|split; [exact H1|]].
  - rewrite H2. cbn [trace]. rewrite creations_app.
    change (CreateWorker o :: Recognize file :: loggerEvents o (logged file))
      with ([CreateWorker o; Recognize file] ++ loggerEvents o (logged file)).
    rewrite creations_app, creations_loggerEvents. cbn. lia.
  - intros cb Hcb. rewrite (H3 cb Hcb). cbn [trace].
    rewrite delivered_app. cbn [delivered].
    rewrite (delivered_loggerEvents_other (logged file) Hcb).
    apply app_nil_r.
Qed.

(** X13. While [createWorker] rejects, every call of [processImage] starts a
    creation of its own and rejects with the error of [init], which is not
    wrapped; no file is handed to the recognizer and no worker is kept. *)
Theorem processImages_without_engine thrown calls w :
  cwr = Some thrown -> worker w = None ->
  processImages cwr calls w
  = (map (fun _ => inl OCRInitFailed) calls,
     {| worker := None;
        trace := trace w ++ map (fun call => CreateWorker (snd call)) calls |}).
Proof.
  intros Hc. revert w. induction calls as [|[file o] calls IH]; intros w Hw.
  - cbn. rewrite app_nil_r. destruct w. cbn in Hw. now subst.
  - cbn [processImages]. rewrite processImage_run, Hw.
    rewrite Hc in IH |- *.
    rewrite IH by reflexivity. cbn [trace map snd]. now rewrite <- app_assoc.
Qed.

(** X14. A call of [processImage] that runs on its own rejects with the
    error of [init], when there is no worker and [createWorker] rejects, or
    with 'Image processing failed: ...'; the error 'OCR worker not available'
    is never thrown. *)
Theorem processImage_rejections file o w thrown :
  fst (processImage cwr file o w) = inl thrown ->
  (thrown = OCRInitFailed /\ worker w = None /\ cwr <> None)
  \/ exists cause, thrown = ImageProcessingFailed cause.
Proof.
  rewrite processImage_run.
  assert (Hi : imageResult file = inl thrown ->
               exists cause, thrown = ImageProcessingFailed cause).
  { unfold imageResult.
    destruct (recognized file) as [e|text].
    - intros [= <-]. now exists e.
    - destruct (is_empty text || (length (trim text) =? 0)); [|discriminate].
      intros [= <-]. now exists NoTextInImage. }
  destruct (worker w) as [wk|] eqn:Ew.
  - cbn [fst]. intros H. right. now apply Hi.
  - destruct cwr as [e|].
    + cbn. intros [= <-]. left. split; [reflexivity|]. split; [reflexivity|].
      discriminate.
    + cbn [fst]. intros H. right. now apply Hi.
Qed.

(** X15. Every rejection of [processPDF] is the error of its outer handler:
    the message starts with 'PDF processing failed: '. *)
Theorem processPDF_rejections_wrapped pdf o w thrown :
  fst (processPDF cwr pdf o w) = inl thrown ->
  (exists cause, thrown = PDFProcessingFailed cause)
  /\ startsWith "PDF processing failed: " (message thrown) = true.
Proof.
  intros H.
  assert (G : exists cause, thrown = PDFProcessingFailed cause).
  { destruct pdf as [e|pages].
    - cbn in H. injection H as <-. now exists e.
    - rewrite processPDF_run in H.
      destruct (pagesLoop cwr (length pages) o 1 pages [] false w)
        as [[e|[tp ht]] w'].
      + cbn in H. injection H as <-. now exists e.
      + cbn [snd] in H. destruct ht; [discriminate|].
        cbn in H. injection H as <-. now exists NoTextInPDF. }
  split; [exact G|]. destruct G as [cause ->]. reflexivity.
Qed.

(** A page with an accepted text layer adds that text as it is, and touches
    neither the worker nor the trace. *)
Lemma processPage_native i page tp ht w :
  textAccepted page ->
  processPage cwr i page tp ht w = (inr (tp ++ [nativeText page], true), w).
Proof.
  intros [items [Hi Hl]]. rewrite processPage_run, Hi.
  apply Nat.ltb_lt in Hl. rewrite Hl. unfold nativeText. now rewrite Hi.
Qed.

Lemma pagesLoop_native total o : forall pages i tp ht w,
  Forall textAccepted pages ->
  pagesLoop cwr total o i pages tp ht w
  = (inr (tp ++ map nativeText pages,
          match pages with [] => ht | _ => true end),
     {| worker := worker w;
        trace := trace w
                 ++ match o with
                    | Some cb =>
                        map (fun k => Progress cb (pageProgress k total))
                          (seq i (length pages))
                    | None => []
                    end |}).
Proof.
  induction pages as [|page rest IH]; intros i tp ht w Hall.
  - cbn. rewrite !app_nil_r. destruct w, o; cbn; now rewrite ?app_nil_r.
  - inversion Hall as [|? ? Hp Hrest]; subst.
    rewrite pagesLoop_cons, (processPage_native i page tp ht w Hp).
    cbn [fst snd]. rewrite IH by exact Hrest. cbn [worker trace].
    rewrite <- !app_assoc. cbn [map app length seq].
    f_equal; [f_equal; now destruct rest|].
    f_equal. destruct o; reflexivity.
Qed.

(** X16. A PDF in which every page has an accepted text layer (more than 20
    code units once trimmed) is read without the recognition engine: no
    worker is created, nothing is rendered or recognized, also when
    [createWorker] would reject; the text is the text layers of the pages,
    not trimmed, joined by an empty line, and the callback is handed
    k / N * 100 after each page. *)
Theorem processPDF_all_native pages o w :
  pages <> [] -> Forall textAccepted pages ->
  processPDF cwr (inr pages) o w
  = (inr (join [LF; LF] (map nativeText pages)),
     {| worker := worker w;
        trace := trace w ++ pageReports o (length pages) |}).
Proof.
  intros Hne Hall. rewrite processPDF_run, pagesLoop_native by exact Hall.
  cbn [fst snd app]. destruct pages as [|page rest]; [now elim Hne|].
  reflexivity.
Qed.

Lemma processPage_silent i page tp ht w :
  silent w -> silent (snd (processPage cwr i page tp ht w)).
Proof.
  intros Hs. rewrite processPage_run.
  destruct (textItems page) as [e|items]; [exact Hs|].
  destruct (20 <? length (trim (join " " items))); [exact Hs|].
  destruct (has2d page); [|exact Hs].
  cbv zeta. destruct (raster page 2%Q) as [e|f]; [exact Hs|].
  rewrite processImage_run. cbn [worker trace].
  destruct Hs as [Hs|Hs]; rewrite Hs.
  - destruct cwr as [e|]; [now left|].
    destruct (imageResult f); now right.
  - destruct (imageResult f); now right.
Qed.

Lemma pagesLoop_silent total o : forall pages i tp ht w,
  silent w -> silent (snd (pagesLoop cwr total o i pages tp ht w)).
Proof.
  induction pages as [|page rest IH]; intros i tp ht w Hs; [exact Hs|].
  rewrite pagesLoop_cons.
  pose proof (processPage_silent i page tp ht w Hs) as H1.
  destruct (processPage cwr i page tp ht w) as [[e|r] w1]; [exact H1|].
  apply IH. exact H1.
Qed.

Lemma processPDF_silent pdf o w :
  silent w -> silent (snd (processPDF cwr pdf o w)).
Proof.
  intros Hs. destruct pdf as [e|pages]; [exact Hs|].
  rewrite processPDF_run.
  pose proof (pagesLoop_silent (length pages) o pages 1 [] false w Hs) as H.
  destruct (pagesLoop cwr (length pages) o 1 pages [] false w)
    as [[e|[tp ht]] w']; [exact H|].
  cbn [snd]. destruct ht; exact H.
Qed.

(** X17. A worker that [processPDF] creates holds no callback: the fallback
    calls [processImage] without one. After a call of [processPDF] made
    without a worker, a call of [processImage] hands no value to the
    callback it is given, whatever the recognizer logs. *)
Theorem processPDF_then_processImage_silent pdf o w file cb :
  worker w = None ->
  let w1 := snd (processPDF cwr pdf o w) in
  worker w1 <> None ->
  delivered cb (trace (snd (processImage cwr file (Some cb) w1)))
  = delivered cb (trace w1).
Proof.
  intros Hw. cbv zeta. intros Hw1.
  destruct (processPDF_silent pdf o w (or_introl Hw)) as [H|H];
    [now elim Hw1|].
  rewrite processImage_run, H. cbn [snd trace logger].
  rewrite delivered_app. cbn [delivered].
  rewrite (@delivered_loggerEvents_other cb None (logged file)) by discriminate.
  apply app_nil_r.
Qed.

Lemma cleanup_run w :
  cleanup w = (inr (worker w), {| worker := None; trace := trace w |}).
Proof. destruct w as [[wk|] tr]; reflexivity. Qed.

(** X18. [cleanup] forgets the worker, and with it the callback that its
    logger holds: the next call of [processImage] creates a worker again,
    whose logger holds the callback of that call and hands it the progress
    that the recognizer logs. A second [cleanup] in a row terminates
    nothing. *)
Theorem cleanup_then_processImage w file o :
  cwr = None ->
  let w1 := snd (cleanup w) in
  fst (cleanup w1) = inr None
  /\ processImage cwr file o w1
     = (imageResult file,
        {| worker := Some {| logger := o |};
           trace := trace w ++ CreateWorker o :: Recognize file
                      :: loggerEvents o (logged file) |}).
Proof.
  intros Hc. cbv zeta. rewrite !cleanup_run. cbn [fst snd worker].
  split; [reflexivity|]. rewrite processImage_run, Hc. reflexivity.
Qed.

End Worker.

(** ** The upload of files *)

Section Uploads.
Import JS App Handlers.

Lemma lower_dot c : chr "." (lower c) = chr "." c.
Proof.
  destruct c as [[] [] [] [] [] [] [] []]; reflexivity.
Qed.

Lemma toLowerCase_no_dot s :
  forallb (fun c => negb (chr "." c)) (toLowerCase s)
  = forallb (fun c => negb (chr "." c)) s.
Proof.
  induction s as [|c s IH]; [reflexivity|].
  unfold toLowerCase in *. cbn [map forallb]. now rewrite lower_dot, IH.
Qed.

Lemma startsWith_dot c r : startsWith "." (c :: r) = chr "." c.
Proof. cbn. apply andb_true_r. Qed.

Lemma split_go_dot_none : forall s cur,
  forallb (fun c => negb (chr "." c)) s = true ->
  split_go "." 0 cur s = [rev cur ++ s].
Proof.
  induction s as [|c s IH]; intros cur H.
  - cbn. now rewrite app_nil_r.
  - cbn [forallb] in H. apply andb_true_iff in H as [Hc Hs].
    cbn [split_go]. rewrite startsWith_dot.
    apply negb_true_iff in Hc. rewrite Hc, IH by exact Hs.
    cbn [rev]. now rewrite <- app_assoc.
Qed.

Lemma split_go_nonempty sep : forall s k cur, split_go sep k cur s <> [].
Proof.
  induction s as [|c s IH]; intros k cur; cbn [split_go]; [discriminate|].
  destruct k; [|apply IH]. destruct (startsWith sep (c :: s));
    [discriminate | apply IH].
Qed.

Lemma last_cons_nonempty {A} (x d : A) l : l <> [] -> last (x :: l) d = last l d.
Proof. destruct l; [now intros H; elim H | reflexivity]. Qed.

Lemma split_go_dot_last ext : forall base cur,
  forallb (fun c => negb (chr "." c)) ext = true ->
  last (split_go "." 0 cur (base ++ "." ++ ext)) "" = ext.
Proof.
  induction base as [|c base IH]; intros cur H.
  - change ([] ++ "." ++ ext) with ("."%char :: ext).
    cbn [split_go]. rewrite startsWith_dot.
    change (chr "." ".") with true. cbv iota.
    rewrite last_cons_nonempty by apply split_go_nonempty.
    cbn [length Nat.sub]. now rewrite split_go_dot_none.
  - cbn [app split_go]. rewrite startsWith_dot.
    destruct (chr "." c).
    + rewrite last_cons_nonempty by apply split_go_nonempty.
      cbn [length Nat.sub]. now apply IH.
    + now apply IH.
Qed.

(** X19. The extension of a file name is the part after its last full stop,
    in lower case; a name without a full stop is its own extension (so that
    a file named 'PDF' has the extension 'pdf'). *)
Theorem fileExtension_last_part (base ext : jsstring) :
  forallb (fun c => negb (chr "." c)) ext = true ->
  fileExtension (base ++ "." ++ ext) = toLowerCase ext
  /\ fileExtension ext = toLowerCase ext.
Proof.
  intros H. unfold fileExtension, split, toLowerCase. split.
  - rewrite !map_app. apply split_go_dot_last.
    fold (toLowerCase ext). now rewrite toLowerCase_no_dot.
  - rewrite split_go_dot_none; [reflexivity|].
    fold (toLowerCase ext). now rewrite toLowerCase_no_dot.
Qed.

Lemma handleFile_documents file fresh st :
  length (documents (handleFile file fresh st)) = S (length (documents st)).
Proof.
  unfold handleFile. destruct (attempt file); cbn; now rewrite length_map.
Qed.

Lemma handleFile_toasts file fresh st :
  length (toasts (handleFile file fresh st)) = S (length (toasts st)).
Proof.
  unfold handleFile. destruct (attempt file); cbn; rewrite length_app; cbn; lia.
Qed.

Lemma handleFile_input file fresh st :
  exists added, inputText (handleFile file fresh st) = inputText st ++ added.
Proof.
  unfold handleFile. destruct (attempt file) as [m|text]; cbn.
  - exists []. now rewrite app_nil_r.
  - exists (separator (fileName file) ++ text).
    now destruct (inputText st).
Qed.

Lemma handleFile_status file fresh st :
  appStatus (handleFile file fresh st) = ready
  /\ progress (handleFile file fresh st) = 0%Q.
Proof. unfold handleFile. destruct (attempt file); now split. Qed.

(** X20. One call of [handleFileUpload] on a list of files adds one document
    per file and shows one toast per file after the one that announces the
    upload; the text that was in the input is kept at the head of the new
    input. *)
Theorem handleFileUpload_bookkeeping fileArray st :
  let st' := handleFileUpload (Some fileArray) st in
  length (documents st') = length fileArray + length (documents st)
  /\ length (toasts st') = length fileArray + S (length (toasts st))
  /\ exists added, inputText st' = inputText st ++ added.
Proof.
  cbv zeta. unfold handleFileUpload.
  set (st0 := showToast _ Info st).
  assert (H0 : length (documents st0) = length (documents st)
               /\ length (toasts st0) = S (length (toasts st))
               /\ inputText st0 = inputText st).
  { subst st0. cbn. rewrite length_app. cbn. repeat split; lia. }
  destruct H0 as [<- [Ht <-]]. replace (S (length (toasts st))) with (length (toasts st0)) by exact Ht.
  clear Ht. generalize st0. clear st0 st.
  induction fileArray as [|[file fresh] rest IH]; intros st.
  - cbn. split; [reflexivity|]. split; [reflexivity|].
    exists []. now rewrite app_nil_r.
  - cbn [fold_left fst snd length].
    destruct (IH (handleFile file fresh st)) as [H1 [H2 [added H3]]].
    rewrite H1, H2, handleFile_documents, handleFile_toasts.
    split; [lia|]. split; [lia|].
    destruct (handleFile_input file fresh st) as [a Ha].
    exists (a ++ added). now rewrite H3, Ha, <- app_assoc.
Qed.

(** X21. After a call of [handleFileUpload] on a list of files that is not
    empty, the status is 'Ready' and the progress is 0, whether the files
    were read or not. *)
Theorem handleFileUpload_ends_ready fileArray st :
  fileArray <> [] ->
  appStatus (handleFileUpload (Some fileArray) st) = ready
  /\ progress (handleFileUpload (Some fileArray) st) = 0%Q.
Proof.
  intros Hne. unfold handleFileUpload. generalize (showToast
    ("Processing " ++ decimal (length fileArray) ++ " file(s)...") Info st).
  clear st. destruct (exists_last Hne) as [rest [[file fresh] ->]].
  intros st. rewrite fold_left_app. cbn [fold_left fst snd].
  apply handleFile_status.
Qed.

(** X22. A file whose extraction gives a text that is not blank appends
    the separator with its name and the text to the input, and its document
    comes first, ready, with the text. *)
Theorem handleFile_success file fresh st strategy extracted :
  selectStrategy (fileType file) (fileExtension (fileName file)) = inr strategy ->
  settles file strategy = inr extracted ->
  trim extracted <> [] ->
  let st' := handleFile file fresh st in
  inputText st'
  = inputText st ++ [LF; LF] ++ "--- " ++ fileName file ++ " ---" ++ [LF]
    ++ extracted
  /\ hd_error (documents st')
     = Some {| id := newId fresh; name := fileName file; size := fileSize file;
               type := fileType file; uploadedAt := now fresh;
               extractedText := extracted; status := DocReady |}
  /\ last (toasts st') {| message := ""; toastType := Info |}
     = {| message := "Successfully processed " ++ fileName file;
          toastType := Success |}.
Proof.
  intros Hs He Ht. cbv zeta.
  assert (Ha : attempt file = inr extracted).
  { unfold attempt. rewrite Hs, He.
    destruct extracted as [|c r]; [now elim Ht|]. cbn [is_empty negb andb].
    destruct (trim (c :: r)); [now elim Ht | reflexivity]. }
  unfold handleFile. rewrite Ha. cbn.
  rewrite eqb_refl, last_last. split; [|now split].
  destruct (inputText st); cbn; unfold separator; cbn;
    now rewrite <- ?app_assoc.
Qed.

(** X23. A file whose extraction fails (unsupported type, rejection, or
    blank text) leaves the input as it is, shows the error with the name of
    the file, and marks as failed every document that bears the name of the
    file: its own, and also the documents of earlier uploads, whatever
    their status was. *)
Theorem handleFile_failure file fresh st thrown :
  attempt file = inl thrown ->
  let st' := handleFile file fresh st in
  inputText st' = inputText st
  /\ last (toasts st') {| message := ""; toastType := Info |}
     = {| message := "Error processing " ++ fileName file ++ ": " ++ thrown;
          toastType := Error |}
  /\ (forall d, In d (documents st') -> name d = fileName file ->
        status d = DocError)
  /\ (forall d, In d (documents st) -> name d = fileName file ->
        In (setError d) (documents st'))
  /\ (forall d, In d (documents st) -> name d <> fileName file ->
        In d (documents st')).
Proof.
  intros Ha. cbv zeta. unfold handleFile. rewrite Ha. cbn.
  rewrite eqb_refl, last_last.
  split; [reflexivity|]. split; [reflexivity|].
  split; [|split].
  - intros d [<- | Hin] Hn; [reflexivity|].
    apply in_map_iff in Hin as [d0 [Hd0 Hin]].
    destruct (JS.eqb (name d0) (fileName file)) eqn:E.
    + now subst d.
    + subst d0. apply eqb_neq in E. now elim E.
  - intros d Hin Hn. right. apply in_map_iff. exists d.
    split; [|exact Hin]. apply eqb_eq in Hn. now rewrite Hn.
  - intros d Hin Hn. right. apply in_map_iff. exists d.
    split; [|exact Hin]. apply eqb_neq in Hn. now rewrite Hn.
Qed.

End Uploads.

(** ** [processText] *)

Section Processing.
Import JS AIService Connection Handlers.

Variable fetch : Request -> Outcome.

Lemma processText_events st :
  is_empty (trim (inputText st)) = false ->
  is_empty (trim (customPrompt st)) = false ->
  snd (processText fetch st)
  = snd (callProvider fetch (settings st) (customPrompt st) (inputText st)
           "text" true).
Proof.
  intros Hi Hp. unfold processText. rewrite Hi, Hp.
  destruct (callProvider fetch (settings st) (customPrompt st) (inputText st)
              "text" true) as [[e|r] evs]; reflexivity.
Qed.

(** X24. With an input or a prompt that is blank, [processText] only shows a
    warning, about the input if it is blank and about the prompt otherwise,
    and sets the timer of four seconds that takes this toast off: the
    provider is not called, no other timer is set and the rest of the state
    is as it was. *)
Theorem processText_blank st :
  is_empty (trim (inputText st)) || is_empty (trim (customPrompt st)) = true ->
  let st' := fst (processText fetch st) in
  snd (processText fetch st) = []
  /\ toasts st'
     = toasts st
       ++ [{| message :=
                if is_empty (trim (inputText st))
                then "Please enter text or upload a document"
                else "Please select or enter a formatting prompt";
              toastType := Warning |}]
  /\ timers st'
     = timers st
       ++ [{| delay := 4000; action := HideToast (length (toasts st)) |}]
  /\ documents st' = documents st
  /\ inputText st' = inputText st
  /\ outputText st' = outputText st
  /\ customPrompt st' = customPrompt st
  /\ processing st' = processing st
  /\ progress st' = progress st
  /\ appStatus st' = appStatus st
  /\ settings st' = settings st.
Proof.
  intros H. cbv zeta. unfold processText.
  destruct (is_empty (trim (inputText st))); [cbn; repeat split|].
  cbn [orb] in H. rewrite H. cbn. repeat split.
Qed.

(** X25. With no provider or the provider local, and an input and a prompt
    that are not blank, [processText] sends nothing and puts in the output
    the input normalised as plain text, whatever the prompt asks for: the
    format passed to [callProvider] is always 'text'. The output is
    tidy. *)
Theorem processText_local st :
  is_empty (trim (inputText st)) = false ->
  is_empty (trim (customPrompt st)) = false ->
  is_empty (provider (settings st)) || JS.eqb (provider (settings st)) "local"
  = true ->
  let '(st', evs) := processText fetch st in
  outputText st' = normalize (inputText st)
  /\ Shape.Tidy (outputText st')
  /\ evs = []
  /\ processing st' = false
  /\ progress st' = 100%Q
  /\ inputText st' = inputText st.
Proof.
  intros Hi Hp Hl. unfold processText, callProvider. rewrite Hi, Hp, Hl.
  cbn. repeat split. apply tidy_normalize.
Qed.

(** X26. With a provider of the table, every request that [processText]
    makes carries the prompt followed by the instruction of the format
    'text', whatever the prompt asks for, and then the input. *)
Theorem processText_request st config request :
  Providers (provider (settings st)) = Some config ->
  In request (requests (snd (processText fetch st))) ->
  let instructed :=
    customPrompt st ++ nl ++ nl
    ++ "Output clean, well-formatted plain text with proper paragraphs and spacing." in
  body request
  = (if JS.eqb (provider (settings st)) "huggingface"
     then InferenceBody
            (instructed ++ nl ++ nl ++ "Text to format:" ++ nl
             ++ inputText st ++ nl ++ nl ++ "Formatted text:")
     else ChatBody
            (orElse (model (settings st)) (defaultModel config))
            "You are a text formatting assistant. Apply instructions exactly. Output only formatted text with no explanation."
            (instructed ++ nl ++ nl ++ "Text to process:" ++ nl
             ++ inputText st)).
Proof.
  intros Hp.
  destruct (is_empty (trim (inputText st))) eqn:Hi;
    [unfold processText; rewrite Hi; intros []|].
  destruct (is_empty (trim (customPrompt st))) eqn:Hc;
    [unfold processText; rewrite Hi, Hc; intros []|].
  rewrite (processText_events st Hi Hc).
  destruct (callProvider_requests fetch (settings st) (customPrompt st)
              (inputText st) "text" true)
    as [E | [config' [req [E [Hc' [_ [_ [_ Hb]]]]]]]]; rewrite E; [intros []|].
  intros [<- | []]. rewrite Hp in Hc'. injection Hc' as <-.
  rewrite Hb. reflexivity.
Qed.

End Processing.

(** ** StorageService *)

Section Stored.
Import JS StorageService.

Variable T : Type.
Variable stringify : T -> option jsstring.
Variable parse : jsstring -> option T.

Lemma getItem_removeItem_same key s : getItem key (removeItem key s) = None.
Proof.
  induction s as [|[k v] s IH]; [reflexivity|]. unfold removeItem in *.
  cbn [filter fst]. destruct (JS.eqb k key) eqn:E; cbn [negb]; [exact IH|].
  cbn [getItem]. now rewrite E.
Qed.

Lemma getItem_removeItem_other key key' s :
  key' <> key -> getItem key' (removeItem key s) = getItem key' s.
Proof.
  intros Hne. induction s as [|[k v] s IH]; [reflexivity|].
  unfold removeItem in *. cbn [filter fst getItem].
  destruct (JS.eqb k key) eqn:E; cbn [negb].
  - apply eqb_eq in E. subst k.
    assert (E' : JS.eqb key key' = false).
    { apply eqb_neq. intros H. now elim Hne. }
    now rewrite E'.
  - cbn [getItem]. now rewrite IH.
Qed.

(** X27. A value that is saved can be loaded again: when the storage can be
    reached and takes the write, and JSON gives for the value a text that it
    parses back to the value, [save] answers true and a [load] of the key
    gives the value, whatever the default; the other keys load as
    before. *)
Theorem save_then_load accepts key value text defaultValue s :
  stringify value = Some text -> text <> [] -> parse text = Some value ->
  accepts (setItem key text s) = true ->
  fst (save stringify true accepts key value s) = true
  /\ load parse true key defaultValue
       (snd (save stringify true accepts key value s)) = value
  /\ forall key', key' <> key ->
       load parse true key' defaultValue
         (snd (save stringify true accepts key value s))
       = load parse true key' defaultValue s.
Proof.
  intros Hs Hne Hp Ha. unfold save. rewrite Hs, Ha. cbn [fst snd].
  split; [reflexivity|]. split.
  - unfold load, setItem. cbn [getItem]. rewrite eqb_refl.
    destruct text; [now elim Hne|]. cbn [is_empty]. now rewrite Hp.
  - intros key' Hk. unfold load, setItem. cbn [getItem].
    assert (E : JS.eqb key key' = false).
    { apply eqb_neq. intros H. now elim Hk. }
    now rewrite E, getItem_removeItem_other.
Qed.

(** X28. After [remove], a [load] of the key gives the default, and the
    other keys load as before. *)
Theorem remove_then_load available key defaultValue s :
  load parse available key defaultValue (snd (remove available key s))
  = defaultValue
  /\ forall key', key' <> key ->
       load parse available key' defaultValue (snd (remove available key s))
       = load parse available key' defaultValue s.
Proof.
  unfold load, remove. destruct available; cbn [snd]; [|now split].
  rewrite getItem_removeItem_same. split; [reflexivity|].
  intros key' Hk. now rewrite getItem_removeItem_other.
Qed.

(** X29. A [save] that answers false has written nothing: the storage is as
    it was, whether it could not be reached, JSON threw, or the browser
    refused the write. *)
Theorem save_refused_writes_nothing available accepts key value s :
  fst (save stringify available accepts key value s) = false ->
  snd (save stringify available accepts key value s) = s.
Proof.
  unfold save. destruct available; [|reflexivity].
  destruct (stringify value) as [text|]; [|reflexivity].
  destruct (accepts (setItem key text s)); [discriminate | reflexivity].
Qed.

End Stored.

(** ** The theorems above on inputs *)

Section Instances.
Import JS.

Lemma localProcessing_result_tidy_witness :
  "markdown" <> "html"
  /\ Shape.Tidy (AIService.localProcessing Examples.claimedInput "markdown").
Proof.
  split; [discriminate|].
  apply (localProcessing_result_tidy Examples.claimedInput "markdown").
  discriminate.
Defined.

Lemma localProcessing_blank_input_witness :
  forallb is_space (" " ++ [LF; TAB; CR; LF] ++ "  ") = true
  /\ AIService.localProcessing (" " ++ [LF; TAB; CR; LF] ++ "  ") "html" = "".
Proof.
  split; [reflexivity|].
  apply localProcessing_blank_input. reflexivity.
Defined.

Lemma callProvider_request_shape_witness :
  AIService.authorization Scenarios.deepseekRequest = "Bearer " ++ "key"
  /\ AIService.timeout Scenarios.deepseekRequest = 30000%Z
  /\ AIService.url Scenarios.deepseekRequest
     = AIService.orElse "http://localhost/v1" "https://router.huggingface.co/v1"
       ++ "/chat/completions".
Proof.
  apply (callProvider_request_shape Examples.noNetwork Scenarios.deepseek
           {| AIService.name := "DeepSeek";
              AIService.endpoint := "https://router.huggingface.co/v1";
              AIService.defaultModel := "deepseek-ai/DeepSeek-V3.2-Exp:novita";
              AIService.requiresKey := true |}
           "p" "t" "text" false Scenarios.deepseekRequest).
  - reflexivity.
  - left. reflexivity.
Defined.

Lemma testConnection_local_witness :
  Connection.testConnection Examples.noNetwork Scenarios.noProvider
  = (inr false, []).
Proof.
  apply (testConnection_local Examples.noNetwork Scenarios.noProvider).
  reflexivity.
Defined.

Lemma testConnection_true_witness :
  exists request text,
    Connection.requests
      (snd (Connection.testConnection (Scenarios.answers "TEST OK")
              Scenarios.deepseek)) = [request]
    /\ Scenarios.answers "TEST OK" request = AIService.HttpOk text
    /\ Connection.includes "TEST OK" text = true.
Proof.
  apply (testConnection_true (Scenarios.answers "TEST OK") Scenarios.deepseek).
  reflexivity.
Defined.

Lemma processImages_one_worker_witness :
  let w' :=
    snd (Lifecycle.processImages None
           [(Examples.photo, Some 7); (Examples.photo, Some 8)]
           Examples.fresh) in
  OCRService.creations (OCRService.trace w')
  = S (OCRService.creations (OCRService.trace Examples.fresh))
  /\ OCRService.worker w' = Some {| OCRService.logger := Some 7 |}
  /\ forall cb, Some 7 <> Some cb ->
       OCRService.delivered cb (OCRService.trace w')
       = OCRService.delivered cb (OCRService.trace Examples.fresh).
Proof.
  apply (processImages_one_worker None Examples.photo (Some 7)
           [(Examples.photo, Some 8)] Examples.fresh); reflexivity.
Defined.

Lemma processImages_without_engine_witness :
  Lifecycle.processImages (Some (OCRService.External "Error: no network"))
    [(Examples.photo, Some 7); (Examples.photo, None)] Examples.fresh
  = ([inl OCRService.OCRInitFailed; inl OCRService.OCRInitFailed],
     {| OCRService.worker := None;
        OCRService.trace :=
          [] ++ [OCRService.CreateWorker (Some 7);
                 OCRService.CreateWorker None] |}).
Proof.
  apply (processImages_without_engine
           (Some (OCRService.External "Error: no network"))
           (OCRService.External "Error: no network")
           [(Examples.photo, Some 7); (Examples.photo, None)] Examples.fresh);
    reflexivity.
Defined.

Lemma processImage_rejections_witness :
  (OCRService.OCRInitFailed = OCRService.OCRInitFailed
   /\ OCRService.worker Examples.fresh = None
   /\ Some (OCRService.External "Error: no network") <> None)
  \/ exists cause,
       OCRService.OCRInitFailed = OCRService.ImageProcessingFailed cause.
Proof.
  apply (processImage_rejections
           (Some (OCRService.External "Error: no network"))
           Examples.photo (Some 7) Examples.fresh OCRService.OCRInitFailed).
  reflexivity.
Defined.

Lemma processPDF_rejections_wrapped_witness :
  (exists cause,
     OCRService.PDFProcessingFailed
       (OCRService.ImageProcessingFailed OCRService.NoTextInImage)
     = OCRService.PDFProcessingFailed cause)
  /\ startsWith "PDF processing failed: "
       (OCRService.message
          (OCRService.PDFProcessingFailed
             (OCRService.ImageProcessingFailed OCRService.NoTextInImage)))
     = true.
Proof.
  apply (processPDF_rejections_wrapped None (inr Examples.blankThenText)
           (Some 7) Examples.fresh).
  reflexivity.
Defined.

Lemma processPDF_all_native_witness :
  OCRService.processPDF (Some (OCRService.External "Error: no network"))
    (inr Scenarios.textPages) (Some 7) Examples.fresh
  = (inr (join [LF; LF] (map OCRService.nativeText Scenarios.textPages)),
     {| OCRService.worker := OCRService.worker Examples.fresh;
        OCRService.trace :=
          OCRService.trace Examples.fresh
          ++ Lifecycle.pageReports (Some 7) (length Scenarios.textPages) |}).
Proof.
  apply (processPDF_all_native (Some (OCRService.External "Error: no network"))
           Scenarios.textPages (Some 7) Examples.fresh).
  - discriminate.
  - repeat constructor; exists [Examples.realText];
      (split; [reflexivity | vm_compute; lia]).
Defined.

Lemma processPDF_then_processImage_silent_witness :
  let w1 :=
    snd (OCRService.processPDF None (inr Examples.twoScans) (Some 7)
           Examples.fresh) in
  OCRService.delivered 7
    (OCRService.trace
       (snd (OCRService.processImage None Examples.photo (Some 7) w1)))
  = OCRService.delivered 7 (OCRService.trace w1).
Proof.
  apply (processPDF_then_processImage_silent None (inr Examples.twoScans)
           (Some 7) Examples.fresh Examples.photo 7).
  - reflexivity.
  - vm_compute. discriminate.
Defined.

Lemma cleanup_then_processImage_witness :
  let w1 := snd (Lifecycle.cleanup (Examples.initializedBy 7)) in
  fst (Lifecycle.cleanup w1) = inr None
  /\ OCRService.processImage None Examples.photo (Some 8) w1
     = (OCRService.imageResult Examples.photo,
        {| OCRService.worker := Some {| OCRService.logger := Some 8 |};
           OCRService.trace :=
             OCRService.trace (Examples.initializedBy 7)
             ++ OCRService.CreateWorker (Some 8)
                :: OCRService.Recognize Examples.photo
                :: OCRService.loggerEvents (Some 8)
                     (OCRService.logged Examples.photo) |}).
Proof.
  apply (cleanup_then_processImage None (Examples.initializedBy 7)
           Examples.photo (Some 8)).
  reflexivity.
Defined.

Lemma fileExtension_last_part_witness :
  Handlers.fileExtension ("Notes" ++ "." ++ "TXT") = Handlers.toLowerCase "TXT"
  /\ Handlers.fileExtension "TXT" = Handlers.toLowerCase "TXT".
Proof. apply (fileExtension_last_part "Notes" "TXT"). reflexivity. Defined.

Lemma handleFileUpload_ends_ready_witness :
  Handlers.appStatus
    (Handlers.handleFileUpload
       (Some [(Scenarios.archive, Scenarios.stamp)])
       (Scenarios.typed "" "" Scenarios.noProvider))
  = Handlers.ready
  /\ Handlers.progress
       (Handlers.handleFileUpload
          (Some [(Scenarios.archive, Scenarios.stamp)])
          (Scenarios.typed "" "" Scenarios.noProvider))
     = 0%Q.
Proof.
  apply (handleFileUpload_ends_ready [(Scenarios.archive, Scenarios.stamp)]).
  discriminate.
Defined.

Lemma handleFile_success_witness :
  let st' :=
    Handlers.handleFile Scenarios.notes Scenarios.stamp
      (Scenarios.typed "before" "" Scenarios.noProvider) in
  Handlers.inputText st'
  = Handlers.inputText (Scenarios.typed "before" "" Scenarios.noProvider)
    ++ [LF; LF] ++ "--- " ++ Handlers.fileName Scenarios.notes ++ " ---" ++ [LF]
    ++ "hello"
  /\ hd_error (Handlers.documents st')
     = Some {| Handlers.id := Handlers.newId Scenarios.stamp;
               Handlers.name := Handlers.fileName Scenarios.notes;
               Handlers.size := Handlers.fileSize Scenarios.notes;
               Handlers.type := Handlers.fileType Scenarios.notes;
               Handlers.uploadedAt := Handlers.now Scenarios.stamp;
               Handlers.extractedText := "hello";
               Handlers.status := Handlers.DocReady |}
  /\ last (Handlers.toasts st')
       {| Handlers.message := ""; Handlers.toastType := Handlers.Info |}
     = {| Handlers.message :=
            "Successfully processed " ++ Handlers.fileName Scenarios.notes;
          Handlers.toastType := Handlers.Success |}.
Proof.
  apply (handleFile_success Scenarios.notes Scenarios.stamp
           (Scenarios.typed "before" "" Scenarios.noProvider)
           App.ReadText "hello").
  - reflexivity.
  - reflexivity.
  - discriminate.
Defined.

Lemma handleFile_failure_witness :
  let st := Scenarios.typed "before" "" Scenarios.noProvider in
  let st' := Handlers.handleFile Scenarios.archive Scenarios.stamp st in
  Handlers.inputText st' = Handlers.inputText st
  /\ last (Handlers.toasts st')
       {| Handlers.message := ""; Handlers.toastType := Handlers.Info |}
     = {| Handlers.message :=
            "Error processing " ++ Handlers.fileName Scenarios.archive ++ ": "
            ++ "Unsupported file type: application/zip";
          Handlers.toastType := Handlers.Error |}
  /\ (forall d, In d (Handlers.documents st') ->
        Handlers.name d = Handlers.fileName Scenarios.archive ->
        Handlers.status d = Handlers.DocError)
  /\ (forall d, In d (Handlers.documents st) ->
        Handlers.name d = Handlers.fileName Scenarios.archive ->
        In (Handlers.setError d) (Handlers.documents st'))
  /\ (forall d, In d (Handlers.documents st) ->
        Handlers.name d <> Handlers.fileName Scenarios.archive ->
        In d (Handlers.documents st')).
Proof.
  apply (handleFile_failure Scenarios.archive Scenarios.stamp
           (Scenarios.typed "before" "" Scenarios.noProvider)
           "Unsupported file type: application/zip").
  reflexivity.
Defined.

Lemma processText_blank_witness :
  let st := Scenarios.typed "  " "p" Scenarios.deepseek in
  let st' := fst (Handlers.processText Examples.noNetwork st) in
  snd (Handlers.processText Examples.noNetwork st) = []
  /\ Handlers.toasts st'
     = [{| Handlers.message := "Please enter text or upload a document";
           Handlers.toastType := Handlers.Warning |}]
  /\ Handlers.timers st'
     = [{| Handlers.delay := 4000;
           Handlers.action := Handlers.HideToast 0 |}]
  /\ Handlers.documents st' = Handlers.documents st
  /\ Handlers.inputText st' = Handlers.inputText st
  /\ Handlers.outputText st' = Handlers.outputText st
  /\ Handlers.customPrompt st' = Handlers.customPrompt st
  /\ Handlers.processing st' = Handlers.processing st
  /\ Handlers.progress st' = Handlers.progress st
  /\ Handlers.appStatus st' = Handlers.appStatus st
  /\ Handlers.settings st' = Handlers.settings st.
Proof.
  apply (processText_blank Examples.noNetwork
           (Scenarios.typed "  " "p" Scenarios.deepseek)).
  reflexivity.
Defined.

Lemma processText_local_witness :
  let '(st', evs) :=
    Handlers.processText Examples.noNetwork
      (Scenarios.typed " a  b " "Convert to Markdown" Scenarios.noProvider) in
  Handlers.outputText st'
  = AIService.normalize
      (Handlers.inputText
         (Scenarios.typed " a  b " "Convert to Markdown" Scenarios.noProvider))
  /\ Shape.Tidy (Handlers.outputText st')
  /\ evs = []
  /\ Handlers.processing st' = false
  /\ Handlers.progress st' = 100%Q
  /\ Handlers.inputText st'
     = Handlers.inputText
         (Scenarios.typed " a  b " "Convert to Markdown" Scenarios.noProvider).
Proof.
  apply (processText_local Examples.noNetwork
           (Scenarios.typed " a  b " "Convert to Markdown" Scenarios.noProvider));
    reflexivity.
Defined.

Lemma processText_request_witness :
  AIService.body Scenarios.deepseekRequest
  = AIService.ChatBody
      (AIService.orElse "m" "deepseek-ai/DeepSeek-V3.2-Exp:novita")
      "You are a text formatting assistant. Apply instructions exactly. Output only formatted text with no explanation."
      (("p" ++ AIService.nl ++ AIService.nl
        ++ "Output clean, well-formatted plain text with proper paragraphs and spacing.")
       ++ AIService.nl ++ AIService.nl ++ "Text to process:"
       ++ AIService.nl ++ "t").
Proof.
  apply (processText_request (Scenarios.answers "ok")
           (Scenarios.typed "t" "p" Scenarios.deepseek)
           {| AIService.name := "DeepSeek";
              AIService.endpoint := "https://router.huggingface.co/v1";
              AIService.defaultModel := "deepseek-ai/DeepSeek-V3.2-Exp:novita";
              AIService.requiresKey := true |}
           Scenarios.deepseekRequest).
  - reflexivity.
  - left. reflexivity.
Defined.

Lemma save_then_load_witness :
  fst (StorageService.save Scenarios.stringifyBool true (fun _ => true)
         "ai_formatter_flag" true [])
  = true
  /\ StorageService.load Scenarios.parseBool true "ai_formatter_flag" false
       (snd (StorageService.save Scenarios.stringifyBool true (fun _ => true)
               "ai_formatter_flag" true []))
     = true
  /\ forall key', key' <> "ai_formatter_flag" ->
       StorageService.load Scenarios.parseBool true key' false
         (snd (StorageService.save Scenarios.stringifyBool true (fun _ => true)
                 "ai_formatter_flag" true []))
       = StorageService.load Scenarios.parseBool true key' false [].
Proof.
  apply (save_then_load bool Scenarios.stringifyBool Scenarios.parseBool
           (fun _ => true) "ai_formatter_flag" true "true" false []);
    try reflexivity.
  discriminate.
Defined.

Lemma save_refused_writes_nothing_witness :
  snd (StorageService.save Scenarios.stringifyBool true (fun _ => false)
         "ai_formatter_flag" true [("ai_formatter_flag", "false")])
  = [("ai_formatter_flag", "false")].
Proof.
  apply (save_refused_writes_nothing bool Scenarios.stringifyBool true
           (fun _ => false) "ai_formatter_flag" true
           [("ai_formatter_flag", "false")]).
  reflexivity.
Defined.

End Instances.
